(** * AnnotateFlow: the timeline engine of [App.tsx]

    A shallow embedding of the three derived values of the [App] component
    that make up the animation engine:

    - [pathData]           (the [useMemo] at "1. Path Segments & Distances"),
    - [timeline]           (the [useMemo] at "2. Timeline Schedule"),
    - [getAnimationState]  (the closure at "Animation Logic").

    Numbers.  A JavaScript [number] that is only ever computed from the
    inputs with [+] and [-] is a real ([R]): coordinates, durations, the time
    cursor.  A number that may come out of an array read beyond the bounds
    ([undefined], hence [NaN] after arithmetic) or out of a division is a
    [num]: [Some r] for the finite value [r], [None] for a value that is not
    a finite number.  Comparisons with [None] are false, as they are with
    [NaN].  [pathIndex] is an integer ([Z]); array reads at a negative or too
    large index give [None].  The literal [0.1] is the real [1/10]. *)

From Stdlib Require Import Reals Lra List ZArith Bool String Lia Permutation.
Import ListNotations.

Open Scope R_scope.

(** ** Numbers *)

Definition Rltb (x y : R) : bool := if Rlt_dec x y then true else false.
Definition Rleb (x y : R) : bool := if Rle_dec x y then true else false.

Definition num := option R.

Definition nadd (a b : num) : num :=
  match a, b with Some x, Some y => Some (x + y) | _, _ => None end.

Definition nsub (a b : num) : num :=
  match a, b with Some x, Some y => Some (x - y) | _, _ => None end.

Definition nmul (a b : num) : num :=
  match a, b with Some x, Some y => Some (x * y) | _, _ => None end.

(** [a / b] on finite operands; a zero divisor gives no finite number. *)
Definition ndiv (a b : R) : num :=
  if Req_dec_T b 0 then None else Some (a / b).

(** [a > b] with [a] possibly [NaN]. *)
Definition ngtb (a : num) (b : R) : bool :=
  match a with Some x => Rltb b x | None => false end.

#[global] Arguments Rltb : simpl never.
#[global] Arguments Rleb : simpl never.
#[global] Arguments ndiv : simpl never.

(** [arr[i]] for an integer [i]. *)
Definition js_get {A : Type} (arr : list A) (i : Z) : option A :=
  if (i <? 0)%Z then None else nth_error arr (Z.to_nat i).

(** [a ?? b]. *)
Definition nullish {A : Type} (a : option A) (b : A) : A :=
  match a with Some x => x | None => b end.

(** Truthiness of an optional string ([e.itemId] in a condition). *)
Definition truthy_id (i : option string) : option string :=
  match i with
  | Some s => if string_dec s EmptyString then None else Some s
  | None => None
  end.

#[global] Arguments truthy_id : simpl never.

(** ** Data model ([types.ts]), restricted to the fields the engine reads *)

Record Point := { x : R; y : R }.

Record Annotation := {
  ann_id : string;
  pathIndex : Z;
  ann_order : R;
  segmentDuration : option R;
  pauseDuration : option R
}.

Record Area := {
  area_id : string;
  area_order : R;
  appearDuration : option R
}.

Record AppSettings := {
  enableFlash : bool;
  flashDuration : R;
  defaultSegmentDuration : R;
  defaultPauseDuration : R;
  defaultAreaDuration : R
}.

(** ** 1. Path segments and distances *)

Definition dist (p1 p2 : Point) : R :=
  sqrt ((x p2 - x p1) ^ 2 + (y p2 - y p1) ^ 2).

#[global] Arguments dist : simpl never.

Record PathData := {
  totalLength : R;
  segmentLengths : list R;
  pointDistances : list R
}.

(** The body of the [for] loop, run on the points from index [i] on. *)
Fixpoint pathData_loop (pts : list Point) (acc : PathData) : PathData :=
  match pts with
  | p1 :: ((p2 :: _) as rest) =>
      let d := dist p1 p2 in
      pathData_loop rest
        {| totalLength := totalLength acc + d;
           segmentLengths := segmentLengths acc ++ [d];
           pointDistances := pointDistances acc ++ [totalLength acc + d] |}
  | _ => acc
  end.

Definition pathData (points : list Point) : PathData :=
  pathData_loop points
    {| totalLength := 0; segmentLengths := []; pointDistances := [0] |}.

(** ** 2. Timeline schedule *)

Inductive EventType := Draw | Wait | AreaEv.

Record Event := {
  type : EventType;
  startTime : R;
  duration : R;
  startDist : num;
  endDist : num;
  itemId : option string
}.

Inductive Item :=
| IAnnotation (a : Annotation)
| IArea (a : Area).

Definition item_order (i : Item) : R :=
  match i with IAnnotation a => ann_order a | IArea a => area_order a end.

(** [Array.prototype.sort] with the comparator [a.order - b.order]: a stable
    sort, ascending in [order]. *)
Fixpoint insert_item (i : Item) (l : list Item) : list Item :=
  match l with
  | [] => [i]
  | j :: l' =>
      if Rltb (item_order j) (item_order i) then j :: insert_item i l'
      else i :: j :: l'
  end.

Fixpoint sort_items (l : list Item) : list Item :=
  match l with
  | [] => []
  | i :: l' => insert_item i (sort_items l')
  end.

Definition items (annotations : list Annotation) (areas : list Area) : list Item :=
  sort_items (map IAnnotation annotations ++ map IArea areas).

(** The mutable locals of the memo body. *)
Record Cursor := {
  schedule : list Event;
  timeCursor : R;
  distCursor : num;
  currentPointIdx : Z
}.

Definition cursor0 : Cursor :=
  {| schedule := []; timeCursor := 0; distCursor := Some 0; currentPointIdx := 0%Z |}.

Definition push (c : Cursor) (e : Event) : list Event := schedule c ++ [e].

Definition segmentDist_of (pd : PathData) (c : Cursor) (targetIdx : Z) : num :=
  if (targetIdx >? currentPointIdx c)%Z
  then nsub (js_get (pointDistances pd) targetIdx)
            (js_get (pointDistances pd) (currentPointIdx c))
  else Some 0.

Definition draws (c : Cursor) (targetIdx : Z) (segmentDist : num) : bool :=
  ngtb segmentDist 0
  || ((currentPointIdx c =? 0)%Z && (targetIdx =? 0)%Z
      && (List.length (schedule c) =? 0)%nat).

Definition draw_segment (pd : PathData) (s : AppSettings) (c : Cursor)
    (ann : Annotation) : Cursor :=
  let targetIdx := pathIndex ann in
  let segmentDist := segmentDist_of pd c targetIdx in
  if draws c targetIdx segmentDist then
    let drawDuration := nullish (segmentDuration ann) (defaultSegmentDuration s) in
    {| schedule := push c {| type := Draw;
                             startTime := timeCursor c;
                             duration := drawDuration;
                             startDist := distCursor c;
                             endDist := nadd (distCursor c) segmentDist;
                             itemId := None |};
       timeCursor := timeCursor c + drawDuration;
       distCursor := nadd (distCursor c) segmentDist;
       currentPointIdx := currentPointIdx c |}
  else c.

Definition wait_label (s : AppSettings) (c : Cursor) (ann : Annotation) : Cursor :=
  let waitDuration := nullish (pauseDuration ann) (defaultPauseDuration s) in
  {| schedule := push c {| type := Wait;
                           startTime := timeCursor c;
                           duration := waitDuration;
                           startDist := distCursor c;
                           endDist := distCursor c;
                           itemId := Some (ann_id ann) |};
     timeCursor := timeCursor c + waitDuration;
     distCursor := distCursor c;
     currentPointIdx := pathIndex ann |}.

Definition area_fade (s : AppSettings) (c : Cursor) (area : Area) : Cursor :=
  let d := nullish (appearDuration area) (defaultAreaDuration s) in
  {| schedule := push c {| type := AreaEv;
                           startTime := timeCursor c;
                           duration := d;
                           startDist := distCursor c;
                           endDist := distCursor c;
                           itemId := Some (area_id area) |};
     timeCursor := timeCursor c + d;
     distCursor := distCursor c;
     currentPointIdx := currentPointIdx c |}.

(** One iteration of [for (const item of items)]. *)
Definition step (pd : PathData) (s : AppSettings) (c : Cursor) (item : Item) : Cursor :=
  match item with
  | IAnnotation ann => wait_label s (draw_segment pd s c ann) ann
  | IArea area => area_fade s c area
  end.

Definition run (pd : PathData) (s : AppSettings) (l : list Item) (c : Cursor) : Cursor :=
  fold_left (step pd s) l c.

(** "Finish path tail". *)
Definition tail_guard (points : list Point) (c : Cursor) : bool :=
  (0 <? List.length points)%nat
  && (currentPointIdx c <? Z.of_nat (List.length points) - 1)%Z.

Definition remainingDist_of (pd : PathData) (c : Cursor) : num :=
  nsub (Some (totalLength pd)) (js_get (pointDistances pd) (currentPointIdx c)).

Definition emits_tail (points : list Point) (pd : PathData) (c : Cursor) : bool :=
  tail_guard points c && ngtb (remainingDist_of pd c) (1 / 10).

Definition finish (points : list Point) (pd : PathData) (s : AppSettings)
    (c : Cursor) : Cursor :=
  if tail_guard points c then
    let remainingDist := remainingDist_of pd c in
    if ngtb remainingDist (1 / 10) then
      let drawDuration := defaultSegmentDuration s in
      {| schedule := push c {| type := Draw;
                               startTime := timeCursor c;
                               duration := drawDuration;
                               startDist := distCursor c;
                               endDist := nadd (distCursor c) remainingDist;
                               itemId := None |};
         timeCursor := timeCursor c + drawDuration;
         distCursor := distCursor c;
         currentPointIdx := currentPointIdx c |}
    else c
  else c.

Record Timeline := {
  tl_schedule : list Event;
  totalDuration : R
}.

Definition result (c : Cursor) : Timeline :=
  {| tl_schedule := schedule c; totalDuration := timeCursor c |}.

(** The cursor when the [for] loop ends. *)
Definition after_items (points : list Point) (annotations : list Annotation)
    (areas : list Area) (s : AppSettings) : Cursor :=
  run (pathData points) s (items annotations areas) cursor0.

Definition timeline (points : list Point) (annotations : list Annotation)
    (areas : list Area) (s : AppSettings) : Timeline :=
  result (finish points (pathData points) s (after_items points annotations areas s)).

(** ** Animation logic *)

Record AnimationState := {
  currentDistance : num;
  activeAnnotationIds : list string;
  visibleAreaIds : list string;
  isFlashing : bool
}.

Definition rest_state (flashing : bool) : AnimationState :=
  {| currentDistance := Some 0; activeAnnotationIds := [];
     visibleAreaIds := []; isFlashing := flashing |}.

(** The predicate of [schedule.find]. *)
Definition is_active (effectiveTime : R) (e : Event) : bool :=
  Rleb (startTime e) effectiveTime
  && Rltb effectiveTime (startTime e + duration e).

(** The predicate of [schedule.filter]. *)
Definition is_passed (effectiveTime : R) (e : Event) : bool :=
  Rleb (startTime e + duration e) effectiveTime.

Definition type_eqb (a b : EventType) : bool :=
  match a, b with
  | Draw, Draw | Wait, Wait | AreaEv, AreaEv => true
  | _, _ => false
  end.

(** [if (e.type === ty && e.itemId) ids.push(e.itemId)]. *)
Definition id_if (ty : EventType) (e : Event) : list string :=
  if type_eqb (type e) ty then
    match truthy_id (itemId e) with Some i => [i] | None => [] end
  else [].

Definition active_id_if (ty : EventType) (activeEvent : option Event) : list string :=
  match activeEvent with Some e => id_if ty e | None => [] end.

Definition progress_of (effectiveTime : R) (e : Event) : num :=
  ndiv (effectiveTime - startTime e) (duration e).

Definition distance_at (tl : Timeline) (pd : PathData) (effectiveTime : R)
    (activeEvent : option Event) : num :=
  match activeEvent with
  | Some e =>
      match type e with
      | Draw =>
          let progress := progress_of effectiveTime e in
          nadd (startDist e) (nmul (nsub (endDist e) (startDist e)) progress)
      | _ => startDist e
      end
  | None =>
      if Rleb (totalDuration tl) effectiveTime then Some (totalLength pd)
      else Some 0
  end.

Definition effectiveTime_of (s : AppSettings) (time : R) : R :=
  if enableFlash s then time - flashDuration s else time.

Definition getAnimationState (s : AppSettings) (tl : Timeline) (pd : PathData)
    (time : R) : AnimationState :=
  if enableFlash s && Rltb time (flashDuration s) then rest_state true
  else
    let effectiveTime := effectiveTime_of s time in
    if Rltb effectiveTime 0 then rest_state false
    else
      let activeEvent := find (is_active effectiveTime) (tl_schedule tl) in
      let passed := filter (is_passed effectiveTime) (tl_schedule tl) in
      {| currentDistance := distance_at tl pd effectiveTime activeEvent;
         activeAnnotationIds :=
           flat_map (id_if Wait) passed ++ active_id_if Wait activeEvent;
         visibleAreaIds :=
           flat_map (id_if AreaEv) passed ++ active_id_if AreaEv activeEvent;
         isFlashing := false |}.

(** The state shown for the points, items and settings of the component. *)
Definition visualState (points : list Point) (annotations : list Annotation)
    (areas : list Area) (s : AppSettings) (time : R) : AnimationState :=
  getAnimationState s (timeline points annotations areas s) (pathData points) time.


(** ** Specification vocabulary *)

(** The sum of the Euclidean lengths of the first [i] segments of the path:
    the distance along the path from waypoint 0 to waypoint [i]. *)
Fixpoint euclid_sum (pts : list Point) (i : nat) : R :=
  match i, pts with
  | S i', p1 :: ((p2 :: _) as rest) => dist p1 p2 + euclid_sum rest i'
  | _, _ => 0
  end.

(** The events follow one another without gap or overlap: each one starts
    when the one before it ends.  [chained t0 l t1]: the first starts at
    [t0], the last ends at [t1]. *)
Inductive chained : R -> list Event -> R -> Prop :=
| chained_nil t : chained t [] t
| chained_cons e l t :
    chained (startTime e + duration e) l t -> chained (startTime e) (e :: l) t.

(** Both distances of the event are finite and [0 <= startDist <= endDist]. *)
Definition dist_ok (e : Event) : Prop :=
  exists a b, startDist e = Some a /\ endDist e = Some b /\ 0 <= a <= b.

Definition opt_nonneg (d : option R) : Prop :=
  match d with Some r => 0 <= r | None => True end.

Definition item_nonneg (i : Item) : Prop :=
  match i with
  | IAnnotation a => opt_nonneg (segmentDuration a) /\ opt_nonneg (pauseDuration a)
  | IArea a => opt_nonneg (appearDuration a)
  end.

Definition defaults_nonneg (s : AppSettings) : Prop :=
  0 <= defaultSegmentDuration s /\ 0 <= defaultPauseDuration s
  /\ 0 <= defaultAreaDuration s.

(** No item duration and no default duration is negative. *)
Definition durations_nonneg (annotations : list Annotation) (areas : list Area)
    (s : AppSettings) : Prop :=
  Forall (fun a => item_nonneg (IAnnotation a)) annotations
  /\ Forall (fun a => item_nonneg (IArea a)) areas
  /\ defaults_nonneg s.

(** No field of the event is negative (none can be [NaN]: the times are
    reals, the distances are required to be finite). *)
Definition event_nonneg (e : Event) : Prop :=
  0 <= startTime e /\ 0 <= duration e /\ dist_ok e.

(** [pathIndex] is not the index of a waypoint. *)
Definition out_of_range (points : list Point) (i : Z) : Prop :=
  (i < 0)%Z \/ (Z.of_nat (List.length points) <= i)%Z.

Definition is_area (i : Item) : Prop :=
  match i with IArea _ => True | IAnnotation _ => False end.

(** What holds of the cursor throughout the loop. *)
Definition cursor_ok (c : Cursor) : Prop :=
  chained 0 (schedule c) (timeCursor c)
  /\ (exists d, distCursor c = Some d /\ 0 <= d)
  /\ Forall dist_ok (schedule c).

(** The ids the resolver reports for events of type [ty] at [effectiveTime]:
    those of the passed events, then that of the active event. *)
Definition revealed (ty : EventType) (sch : list Event) (effectiveTime : R)
  : list string :=
  flat_map (id_if ty) (filter (is_passed effectiveTime) sch)
  ++ active_id_if ty (find (is_active effectiveTime) sch).

(** Two settings that differ at most in [flashDuration]. *)
Definition same_but_flashDuration (s1 s2 : AppSettings) : Prop :=
  enableFlash s1 = enableFlash s2
  /\ defaultSegmentDuration s1 = defaultSegmentDuration s2
  /\ defaultPauseDuration s1 = defaultPauseDuration s2
  /\ defaultAreaDuration s1 = defaultAreaDuration s2.

(** The event pushed by "Finish path tail". *)
Definition tail_event (pd : PathData) (s : AppSettings) (c : Cursor) : Event :=
  {| type := Draw;
     startTime := timeCursor c;
     duration := defaultSegmentDuration s;
     startDist := distCursor c;
     endDist := nadd (distCursor c) (remainingDist_of pd c);
     itemId := None |}.

(** The event [e], [d] seconds later. *)
Definition delay (d : R) (e : Event) : Event :=
  {| type := type e;
     startTime := d + startTime e;
     duration := duration e;
     startDist := startDist e;
     endDist := endDist e;
     itemId := itemId e |}.

(** The cursor [c] had the event [b], lasting [d] seconds, been scheduled
    before everything else. *)
Definition delayed (b : Event) (d : R) (c : Cursor) : Cursor :=
  {| schedule := b :: map (delay d) (schedule c);
     timeCursor := d + timeCursor c;
     distCursor := distCursor c;
     currentPointIdx := currentPointIdx c |}.

(** The bootstrap draw event of a first annotation whose segment lasts [d]. *)
Definition bootstrap_event (d : R) : Event :=
  {| type := Draw; startTime := 0; duration := d;
     startDist := Some 0; endDist := Some 0; itemId := None |}.

(** ** Scenarios *)

Definition pt (a b : R) : Point := {| x := a; y := b |}.

Definition ev (ty : EventType) (t d a b : R) (i : option string) : Event :=
  {| type := ty; startTime := t; duration := d;
     startDist := Some a; endDist := Some b; itemId := i |}.

(** The settings [App] starts with. *)
Definition initial_settings : AppSettings :=
  {| enableFlash := false; flashDuration := 1 / 2;
     defaultSegmentDuration := 2; defaultPauseDuration := 3 / 2;
     defaultAreaDuration := 2 |}.

(** The boundary scenario: three waypoints, one annotation on the second. *)
Definition boundary_points : list Point := [pt 0 0; pt 10 0; pt 10 10].

Definition boundary_annotation (i : string) (o : R) : Annotation :=
  {| ann_id := i; pathIndex := 1; ann_order := o;
     segmentDuration := Some 2; pauseDuration := Some 1 |}.

Definition boundary_settings : AppSettings :=
  {| enableFlash := false; flashDuration := 1 / 2;
     defaultSegmentDuration := 3; defaultPauseDuration := 3 / 2;
     defaultAreaDuration := 2 |}.

(** An annotation with the durations left to the defaults. *)
Definition plain_annotation (i : string) (idx : Z) (o : R) : Annotation :=
  {| ann_id := i; pathIndex := idx; ann_order := o;
     segmentDuration := None; pauseDuration := None |}.

(** A path of two waypoints, of length 10. *)
Definition short_path : list Point := [pt 0 0; pt 10 0].

(** A path of three waypoints, of length 0.1. *)
Definition tiny_path : list Point := [pt 0 0; pt (1 / 20) 0; pt (1 / 10) 0].

(** An annotation that pauses for a negative time. *)
Definition rewinding_annotation : Annotation :=
  {| ann_id := "a"; pathIndex := 1; ann_order := 1;
     segmentDuration := Some 2; pauseDuration := Some (-3) |}.

(** ** Playback driver ([App.tsx]) *)

(** The driver moves between the time of the clock and the time of the
    schedule by adding and subtracting the flash offset.  The numbers of the
    program are doubles: with the flash enabled the sum [t + flashDuration]
    is rounded, and subtracting [flashDuration] again need not give [t]
    back.  With the flash disabled the offset is 0 and the resolver subtracts
    nothing, so both times are the same number.  What is proved below about
    the state shown at the time the driver lands on is stated for that
    case. *)

(** [timeline.totalDuration + (settings.enableFlash ? settings.flashDuration : 0)]. *)
Definition flashOffset (s : AppSettings) : R :=
  if enableFlash s then flashDuration s else 0.

Definition totalTime (s : AppSettings) (tl : Timeline) : R :=
  totalDuration tl + flashOffset s.

(** The updater passed to [setCurrentTime] in the animation loop, for a
    frame [dt] seconds after the previous one: the new time, and whether the
    animation is still playing. *)
Definition tick (s : AppSettings) (tl : Timeline) (prev dt : R) : R * bool :=
  let next := prev + dt in
  if Rleb (totalTime s tl) next then (totalTime s tl, false) else (next, true).


(** [ArrowLeft] in present mode: jump to the start of the current event, or
    to the previous one. *)
Definition arrowLeft (s : AppSettings) (tl : Timeline) (currentTime : R) : R :=
  let effectiveTime := effectiveTime_of s currentTime in
  let currentEvent := find (is_active effectiveTime) (tl_schedule tl) in
  let restart :=
    match currentEvent with
    | Some ev => if Rltb (1 / 2) (effectiveTime - startTime ev) then Some ev else None
    | None => None
    end in
  match restart with
  | Some ev => startTime ev + flashOffset s
  | None =>
      let prevEvents :=
        filter (fun ev => Rltb (startTime ev) (effectiveTime - 1 / 10))
               (tl_schedule tl) in
      match js_get prevEvents (Z.of_nat (List.length prevEvents) - 1) with
      | Some prev => startTime prev + flashOffset s
      | None => 0
      end
  end.

(** ** Rendering ([CanvasArea.tsx]) *)

(** [Math.max(0, totalPathLength - currentDistance)]. *)
Definition strokeDashoffset (totalPathLength : R) (currentDistance : num) : num :=
  match nsub (Some totalPathLength) currentDistance with
  | Some d => Some (Rmax 0 d)
  | None => None
  end.

(** ** More specification vocabulary *)

Definition sum_durations (l : list Event) : R :=
  fold_right (fun e acc => duration e + acc) 0 l.

Definition count_type (ty : EventType) (l : list Event) : nat :=
  List.length (filter (fun e => type_eqb (type e) ty) l).

(** Where the id of an event comes from: a wait event carries the id of an
    annotation, an area event that of an area, a draw event none. *)
Definition event_of_items (annotations : list Annotation) (areas : list Area)
    (e : Event) : Prop :=
  match type e with
  | Draw => itemId e = None
  | Wait => exists a, In a annotations /\ itemId e = Some (ann_id a)
  | AreaEv => exists a, In a areas /\ itemId e = Some (area_id a)
  end.

(** The item is one of the annotations or areas given. *)
Definition item_in (annotations : list Annotation) (areas : list Area)
    (i : Item) : Prop :=
  match i with
  | IAnnotation a => In a annotations
  | IArea a => In a areas
  end.

Definition is_annotationb (i : Item) : bool :=
  match i with IAnnotation _ => true | IArea _ => false end.

(** The event that reveals an item. *)
Definition reveals (i : Item) (e : Event) : Prop :=
  match i with
  | IAnnotation a => type e = Wait /\ itemId e = Some (ann_id a)
  | IArea a => type e = AreaEv /\ itemId e = Some (area_id a)
  end.

(** [e] ends at a distance no greater than the one [e'] starts at. *)
Definition before (e e' : Event) : Prop :=
  exists b a', endDist e = Some b /\ startDist e' = Some a' /\ b <= a'.

(** The events are in the order of their distances, and none ends beyond
    the distance cursor. *)
Definition dist_sorted (c : Cursor) : Prop :=
  ForallOrdPairs before (schedule c)
  /\ exists D, distCursor c = Some D
               /\ Forall (fun e => exists b, endDist e = Some b /\ b <= D)
                         (schedule c).

(** ** Editing the path ([App.tsx]) *)

(** [arr.splice(index, 0, x)] on a copy of [arr], for an integer [index]: a
    negative index counts from the end, and the start is clamped to the
    array. *)
Definition js_splice_insert {A : Type} (arr : list A) (index : Z) (x : A) : list A :=
  let len := Z.of_nat (List.length arr) in
  let start := if (index <? 0)%Z then Z.max (len + index) 0 else Z.min index len in
  firstn (Z.to_nat start) arr ++ x :: skipn (Z.to_nat start) arr.

(** [arr.filter((_, i) => f(i))], counting from [i]. *)
Fixpoint filter_index {A : Type} (f : Z -> bool) (i : Z) (arr : list A) : list A :=
  match arr with
  | [] => []
  | a :: rest =>
      if f i then a :: filter_index f (i + 1)%Z rest
      else filter_index f (i + 1)%Z rest
  end.

(** [{ ...ann, pathIndex: i }]. *)
Definition with_pathIndex (ann : Annotation) (i : Z) : Annotation :=
  {| ann_id := ann_id ann; pathIndex := i; ann_order := ann_order ann;
     segmentDuration := segmentDuration ann; pauseDuration := pauseDuration ann |}.

(** [handleAddPoint(point, index)]: the new points and annotations. *)
Definition handleAddPoint (point : Point) (index : option Z)
    (points : list Point) (annotations : list Annotation)
  : list Point * list Annotation :=
  (match index with
   | Some i => js_splice_insert points i point
   | None => points ++ [point]
   end,
   match index with
   | Some i =>
       map (fun ann => if (pathIndex ann >=? i)%Z
                       then with_pathIndex ann (pathIndex ann + 1)
                       else ann) annotations
   | None => annotations
   end).

(** [handleDeletePoint(index)]. *)
Definition handleDeletePoint (index : Z)
    (points : list Point) (annotations : list Annotation)
  : list Point * list Annotation :=
  (filter_index (fun i => negb (i =? index)%Z) 0 points,
   flat_map (fun ann =>
               if (pathIndex ann =? index)%Z then []
               else if (pathIndex ann >? index)%Z
                    then [with_pathIndex ann (pathIndex ann - 1)]
                    else [ann]) annotations).

(** [handleAddAnnotation(pointIndex)], with the id [uuidv4()] returns. *)
Definition handleAddAnnotation (newId : string) (pointIndex : Z)
    (annotations : list Annotation) (areas : list Area) (s : AppSettings)
  : list Annotation :=
  let newOrder := INR (List.length annotations + List.length areas + 1) in
  annotations ++ [ {| ann_id := newId; pathIndex := pointIndex;
                      ann_order := newOrder;
                      segmentDuration := Some (defaultSegmentDuration s);
                      pauseDuration := Some (defaultPauseDuration s) |} ].

(** [handlePointClick(e, index)] of the canvas: in edit mode with the node
    tool, a left click on a waypoint without annotation, with no context
    menu open, adds one. *)
Definition handlePointClick (present nodeTool menuOpen : bool) (button : Z)
    (newId : string) (index : Z)
    (annotations : list Annotation) (areas : list Area) (s : AppSettings)
  : list Annotation :=
  if present then annotations
  else if nodeTool then
    let exists_ := existsb (fun a => (pathIndex a =? index)%Z) annotations in
    if negb exists_ && negb menuOpen && (button =? 0)%Z
    then handleAddAnnotation newId index annotations areas s
    else annotations
  else annotations.

(** The waypoint an annotation is attached to: [points[ann.pathIndex]]. *)
Definition anchor (points : list Point) (ann : Annotation) : option Point :=
  js_get points (pathIndex ann).

(** Every annotation is attached to a waypoint of the path. *)
Definition valid_anchors (points : list Point) (annotations : list Annotation)
  : Prop :=
  Forall (fun a => (0 <= pathIndex a < Z.of_nat (List.length points))%Z)
         annotations.

(** No two annotations are attached to the same waypoint. *)
Definition distinct_anchors (annotations : list Annotation) : Prop :=
  NoDup (map pathIndex annotations).

(** ** Clicks on the canvas ([CanvasArea.tsx]) *)

(** The distance from [p] to the segment from [v] to [w]. *)
Definition distToSegment (p v w : Point) : R :=
  let l2 := (x v - x w) ^ 2 + (y v - y w) ^ 2 in
  if Req_dec_T l2 0 then sqrt ((x p - x v) ^ 2 + (y p - y v) ^ 2)
  else
    let t := ((x p - x v) * (x w - x v) + (y p - y v) * (y w - y v)) / l2 in
    let t := Rmax 0 (Rmin 1 t) in
    let proj := {| x := x v + t * (x w - x v); y := y v + t * (y w - y v) |} in
    sqrt ((x p - x proj) ^ 2 + (y p - y proj) ^ 2).

(** The loop of [handleCanvasClick] that looks for a segment within 10 of
    the click, from segment [i] on: the index to insert at, or [-1]. *)
Fixpoint insertIndex_from (click : Point) (pts : list Point) (i : Z) : Z :=
  match pts with
  | p1 :: ((p2 :: _) as rest) =>
      if Rltb (distToSegment click p1 p2) 10 then (i + 1)%Z
      else insertIndex_from click rest (i + 1)%Z
  | _ => (-1)%Z
  end.

(** [handleCanvasClick] with the path tool, for a click at [click] that
    passes the guards (an image is loaded, edit mode, no context menu, not
    on an interactive element). *)
Definition handleCanvasClick (click : Point)
    (points : list Point) (annotations : list Annotation)
  : list Point * list Annotation :=
  let insertIndex := insertIndex_from click points 0 in
  if negb (insertIndex =? -1)%Z
  then handleAddPoint click (Some insertIndex) points annotations
  else handleAddPoint click None points annotations.

(** The point at fraction [u] of the segment from [v] to [w]. *)
Definition on_segment (v w : Point) (u : R) : Point :=
  {| x := x v + u * (x w - x v); y := y v + u * (y w - y v) |}.

(** ** The timeline tab ([SettingsPanel.tsx]) *)

(** ['draw' | 'wait']. *)
Inductive DurationKind := KDraw | KWait.

Definition with_segmentDuration (ann : Annotation) (d : option R) : Annotation :=
  {| ann_id := ann_id ann; pathIndex := pathIndex ann; ann_order := ann_order ann;
     segmentDuration := d; pauseDuration := pauseDuration ann |}.

Definition with_pauseDuration (ann : Annotation) (d : option R) : Annotation :=
  {| ann_id := ann_id ann; pathIndex := pathIndex ann; ann_order := ann_order ann;
     segmentDuration := segmentDuration ann; pauseDuration := d |}.

(** [applyDurationToAll(type, value)], [confirmed] being the answer to the
    confirmation dialog. *)
Definition applyDurationToAll (confirmed : bool) (kind : DurationKind) (value : R)
    (annotations : list Annotation) : list Annotation :=
  if confirmed then
    map (fun ann => match kind with
                    | KDraw => with_segmentDuration ann (Some value)
                    | KWait => with_pauseDuration ann (Some value)
                    end) annotations
  else annotations.

Inductive Direction := Up | Down.

Definition item_id (i : Item) : string :=
  match i with IAnnotation a => ann_id a | IArea a => area_id a end.

(** [arr.findIndex(f)], counting from [i]. *)
Fixpoint findIndex_from {A : Type} (f : A -> bool) (arr : list A) (i : Z) : Z :=
  match arr with
  | [] => (-1)%Z
  | a :: rest => if f a then i else findIndex_from f rest (i + 1)%Z
  end.

Definition with_ann_order (ann : Annotation) (o : R) : Annotation :=
  {| ann_id := ann_id ann; pathIndex := pathIndex ann; ann_order := o;
     segmentDuration := segmentDuration ann; pauseDuration := pauseDuration ann |}.

Definition with_area_order (area : Area) (o : R) : Area :=
  {| area_id := area_id area; area_order := o;
     appearDuration := appearDuration area |}.

(** [updateOrder(item, newOrder)] inside [reorder]. *)
Definition updateOrder (item : Item) (newOrder : R)
    (st : list Annotation * list Area) : list Annotation * list Area :=
  match item with
  | IAnnotation it =>
      (map (fun a => if String.eqb (ann_id a) (ann_id it)
                     then with_ann_order a newOrder else a) (fst st),
       snd st)
  | IArea it =>
      (fst st,
       map (fun a => if String.eqb (area_id a) (area_id it)
                     then with_area_order a newOrder else a) (snd st))
  end.

(** [reorder(id, direction)]: the new annotations and areas.  The two items
    read from [timelineItems] exist once the bounds are checked; the last
    branch is never taken. *)
Definition reorder (id : string) (direction : Direction)
    (annotations : list Annotation) (areas : list Area)
  : list Annotation * list Area :=
  let timelineItems := items annotations areas in
  let currentIndex :=
    findIndex_from (fun item => String.eqb (item_id item) id) timelineItems 0 in
  if (currentIndex =? -1)%Z then (annotations, areas)
  else
    let newIndex := match direction with
                    | Up => (currentIndex - 1)%Z
                    | Down => (currentIndex + 1)%Z
                    end in
    if (newIndex <? 0)%Z || (newIndex >=? Z.of_nat (List.length timelineItems))%Z
    then (annotations, areas)
    else
      match js_get timelineItems currentIndex, js_get timelineItems newIndex with
      | Some itemA, Some itemB =>
          updateOrder itemB (item_order itemA)
            (updateOrder itemA (item_order itemB) (annotations, areas))
      | _, _ => (annotations, areas)
      end.

(** [{ ...item, order: o }]. *)
Definition with_item_order (i : Item) (o : R) : Item :=
  match i with
  | IAnnotation a => IAnnotation (with_ann_order a o)
  | IArea a => IArea (with_area_order a o)
  end.

(** In non-decreasing order of [order]. *)
Definition sorted_items (l : list Item) : Prop :=
  ForallOrdPairs (fun a b => item_order a <= item_order b) l.

(** What [reorder] does to an item when it exchanges [X] and [Y]. *)
Definition exchange (X Y : Item) (i : Item) : Item :=
  if String.eqb (item_id i) (item_id X) then with_item_order i (item_order Y)
  else if String.eqb (item_id i) (item_id Y) then with_item_order i (item_order X)
  else i.

(** All the items, in array order: what [sort] is applied to. *)
Definition all_items (annotations : list Annotation) (areas : list Area)
  : list Item :=
  map IAnnotation annotations ++ map IArea areas.

(** The settings with the flash switched off. *)
Definition without_flash (s : AppSettings) : AppSettings :=
  {| enableFlash := false; flashDuration := flashDuration s;
     defaultSegmentDuration := defaultSegmentDuration s;
     defaultPauseDuration := defaultPauseDuration s;
     defaultAreaDuration := defaultAreaDuration s |}.

(** The annotation [handleAddAnnotation] creates. *)
Definition new_annotation (newId : string) (pointIndex : Z)
    (annotations : list Annotation) (areas : list Area) (s : AppSettings)
  : Annotation :=
  {| ann_id := newId; pathIndex := pointIndex;
     ann_order := INR (List.length annotations + List.length areas + 1);
     segmentDuration := Some (defaultSegmentDuration s);
     pauseDuration := Some (defaultPauseDuration s) |}.

(** The boundary settings with a flash of half a second. *)
Definition flash_settings : AppSettings :=
  {| enableFlash := true; flashDuration := 1 / 2;
     defaultSegmentDuration := 3; defaultPauseDuration := 3 / 2;
     defaultAreaDuration := 2 |}.

(** [handleDeleteAnnotation(id)] and [handleDeleteArea(id)], on the arrays. *)
Definition handleDeleteAnnotation (id : string) (annotations : list Annotation)
  : list Annotation :=
  filter (fun a => negb (String.eqb (ann_id a) id)) annotations.

Definition handleDeleteArea (id : string) (areas : list Area) : list Area :=
  filter (fun a => negb (String.eqb (area_id a) id)) areas.

(** ** The waypoint reached *)

(** The waypoint the path has reached once the items [l] are processed,
    coming from waypoint [i]: the anchor of the last annotation of [l]. *)
Fixpoint reached (l : list Item) (i : Z) : Z :=
  match l with
  | [] => i
  | IAnnotation a :: l' => reached l' (pathIndex a)
  | IArea _ :: l' => reached l' i
  end.

(** * Properties *)

(** ** Comparisons *)

Lemma Rltb_true x y : Rltb x y = true <-> x < y.
Proof. unfold Rltb; destruct (Rlt_dec x y); split; intros; try easy; lra. Qed.

Lemma Rltb_false x y : Rltb x y = false <-> y <= x.
Proof. unfold Rltb; destruct (Rlt_dec x y); split; intros; try easy; lra. Qed.

Lemma Rleb_true x y : Rleb x y = true <-> x <= y.
Proof. unfold Rleb; destruct (Rle_dec x y); split; intros; try easy; lra. Qed.

Lemma Rleb_false x y : Rleb x y = false <-> y < x.
Proof. unfold Rleb; destruct (Rle_dec x y); split; intros; try easy; lra. Qed.


(** ** The metrics provider *)

Lemma dist_nonneg p q : 0 <= dist p q.
Proof. apply sqrt_pos. Qed.

Lemma euclid_sum_0 pts : euclid_sum pts 0 = 0.
Proof. destruct pts as [|p [|q r]]; reflexivity. Qed.

Lemma euclid_sum_nonneg pts : forall i, 0 <= euclid_sum pts i.
Proof.
  induction pts as [|p rest IH]; intros [|i]; simpl; try lra.
  destruct rest as [|q r]; [lra|].
  pose proof (dist_nonneg p q). specialize (IH i). lra.
Qed.

Lemma euclid_sum_mono pts : forall i j, (i <= j)%nat ->
  euclid_sum pts i <= euclid_sum pts j.
Proof.
  induction pts as [|p rest IH]; intros i j Hij.
  - destruct i, j; simpl; lra.
  - destruct i as [|i].
    + rewrite euclid_sum_0. apply euclid_sum_nonneg.
    + destruct j as [|j]; [lia|]. simpl.
      destruct rest as [|q r]; [lra|].
      assert (Hle : (i <= j)%nat) by lia.
      specialize (IH i j Hle). lra.
Qed.

Lemma pathData_loop_distances pts : forall acc,
  pointDistances (pathData_loop pts acc)
  = pointDistances acc
    ++ map (fun i => totalLength acc + euclid_sum pts i)
           (seq 1 (List.length pts - 1)).
Proof.
  induction pts as [|p1 rest IH]; intros acc.
  - simpl. now rewrite app_nil_r.
  - destruct rest as [|p2 r].
    + simpl. now rewrite app_nil_r.
    + change (pathData_loop (p1 :: p2 :: r) acc)
        with (pathData_loop (p2 :: r)
                {| totalLength := totalLength acc + dist p1 p2;
                   segmentLengths := segmentLengths acc ++ [dist p1 p2];
                   pointDistances :=
                     pointDistances acc ++ [totalLength acc + dist p1 p2] |}).
      rewrite IH. cbn [pointDistances totalLength].
      rewrite <- app_assoc. f_equal.
      replace (List.length (p1 :: p2 :: r) - 1)%nat
        with (S (List.length (p2 :: r) - 1)) by (simpl; lia).
      generalize (List.length (p2 :: r) - 1)%nat. intros n.
      cbn [seq map app]. rewrite <- (seq_shift n 1), map_map. f_equal.
      * change (euclid_sum (p1 :: p2 :: r) 1)
          with (dist p1 p2 + euclid_sum (p2 :: r) 0).
        rewrite euclid_sum_0. lra.
      * apply map_ext. intros i. simpl. lra.
Qed.

Lemma pathData_loop_total pts : forall acc,
  totalLength (pathData_loop pts acc)
  = totalLength acc + euclid_sum pts (List.length pts - 1).
Proof.
  induction pts as [|p1 rest IH]; intros acc.
  - simpl. lra.
  - destruct rest as [|p2 r].
    + simpl. lra.
    + change (pathData_loop (p1 :: p2 :: r) acc)
        with (pathData_loop (p2 :: r)
                {| totalLength := totalLength acc + dist p1 p2;
                   segmentLengths := segmentLengths acc ++ [dist p1 p2];
                   pointDistances :=
                     pointDistances acc ++ [totalLength acc + dist p1 p2] |}).
      rewrite IH. cbn [totalLength].
      replace (List.length (p1 :: p2 :: r) - 1)%nat
        with (S (List.length (p2 :: r) - 1)) by (simpl; lia).
      simpl. lra.
Qed.

Lemma pointDistances_eq points :
  pointDistances (pathData points)
  = 0 :: map (euclid_sum points) (seq 1 (List.length points - 1)).
Proof.
  unfold pathData. rewrite pathData_loop_distances.
  cbn [pointDistances totalLength app]. f_equal.
  apply map_ext. intros i. lra.
Qed.

Lemma totalLength_eq points :
  totalLength (pathData points) = euclid_sum points (List.length points - 1).
Proof.
  unfold pathData. rewrite pathData_loop_total. cbn [totalLength].
  apply Rplus_0_l.
Qed.

Lemma pointDistances_length points :
  List.length (pointDistances (pathData points)) = Nat.max 1 (List.length points).
Proof.
  rewrite pointDistances_eq. cbn [List.length].
  rewrite length_map, length_seq. lia.
Qed.

Lemma pointDistances_nth points i :
  (i < Nat.max 1 (List.length points))%nat ->
  nth_error (pointDistances (pathData points)) i = Some (euclid_sum points i).
Proof.
  intros Hi. rewrite pointDistances_eq. destruct i as [|i].
  - simpl. now rewrite euclid_sum_0.
  - simpl. rewrite nth_error_map, nth_error_seq.
    destruct (Nat.ltb_spec i (List.length points - 1)); [reflexivity | lia].
Qed.

Lemma pointDistances_nth_out points i :
  (Nat.max 1 (List.length points) <= i)%nat ->
  nth_error (pointDistances (pathData points)) i = None.
Proof.
  intros Hi. apply nth_error_None. now rewrite pointDistances_length.
Qed.

Lemma pointDistances_last points :
  last (pointDistances (pathData points)) 0 = totalLength (pathData points).
Proof.
  rewrite totalLength_eq, pointDistances_eq.
  remember (List.length points - 1)%nat as n eqn:Hn. clear Hn.
  destruct n as [|n].
  - simpl. now rewrite euclid_sum_0.
  - rewrite seq_S, map_app. cbn [map].
    change (0 :: map (euclid_sum points) (seq 1 n) ++ [euclid_sum points (1 + n)])
      with ((0 :: map (euclid_sum points) (seq 1 n)) ++ [euclid_sum points (1 + n)]).
    now rewrite last_last.
Qed.

(** C8: [cumulativeDistances[0] = 0]; entry [i] is the sum of the Euclidean
    distances between consecutive waypoints from waypoint 0 through waypoint
    [i]; there is one entry per waypoint (and the single entry [0] when there
    is no waypoint); [totalLength] is the last entry; with zero or one
    waypoint, [totalLength = 0] and [cumulativeDistances = [0]]. *)
Theorem metrics_cumulative_distances (points : list Point) :
  (forall p q, dist p q = sqrt ((x q - x p)² + (y q - y p)²))
  /\ js_get (pointDistances (pathData points)) 0 = Some 0
  /\ (forall i, (i < List.length points)%nat ->
        js_get (pointDistances (pathData points)) (Z.of_nat i)
        = Some (euclid_sum points i))
  /\ List.length (pointDistances (pathData points)) = Nat.max 1 (List.length points)
  /\ totalLength (pathData points) = last (pointDistances (pathData points)) 0
  /\ ((List.length points <= 1)%nat ->
        totalLength (pathData points) = 0
        /\ pointDistances (pathData points) = [0]).
Proof.
  repeat split.
  - intros p q. unfold dist, Rsqr. f_equal. ring.
  - unfold js_get. simpl. rewrite pointDistances_eq. reflexivity.
  - intros i Hi. unfold js_get.
    destruct (Z.ltb_spec (Z.of_nat i) 0); [lia|].
    rewrite Nat2Z.id. apply pointDistances_nth. lia.
  - apply pointDistances_length.
  - symmetry. apply pointDistances_last.
  - destruct points as [|p [|q r]]; simpl in *; try reflexivity; lia.
  - destruct points as [|p [|q r]]; simpl in *; try reflexivity; lia.
Qed.

(** ** The timeline builder: what the loop maintains *)

Lemma chained_snoc t0 l t1 e :
  chained t0 l t1 -> startTime e = t1 ->
  chained t0 (l ++ [e]) (t1 + duration e).
Proof.
  intros H. induction H as [t | e' l t H IH]; intros He.
  - subst t. simpl. apply chained_cons, chained_nil.
  - simpl. apply chained_cons. now apply IH.
Qed.

Lemma chained_push t0 l t1 ty d a b i :
  chained t0 l t1 ->
  chained t0 (l ++ [{| type := ty; startTime := t1; duration := d;
                       startDist := a; endDist := b; itemId := i |}])
             (t1 + d).
Proof.
  intros H.
  exact (chained_snoc t0 l t1
           {| type := ty; startTime := t1; duration := d;
              startDist := a; endDist := b; itemId := i |} H eq_refl).
Qed.

Lemma chained_app t0 l1 t1 l2 t2 :
  chained t0 l1 t1 -> chained t1 l2 t2 -> chained t0 (l1 ++ l2) t2.
Proof.
  intros H. induction H as [t | e l t H IH]; intros H2; simpl; [easy|].
  apply chained_cons. now apply IH.
Qed.

Lemma chained_start t0 e l t1 : chained t0 (e :: l) t1 -> startTime e = t0.
Proof. now inversion 1. Qed.

Lemma chained_tail t0 e l t1 :
  chained t0 (e :: l) t1 -> chained (t0 + duration e) l t1.
Proof. inversion 1; subst. assumption. Qed.

(** With no negative duration the events lie between the two ends, in
    order. *)
Lemma chained_bounds t0 l t1 :
  chained t0 l t1 -> Forall (fun e => 0 <= duration e) l ->
  t0 <= t1
  /\ Forall (fun e => t0 <= startTime e /\ startTime e + duration e <= t1) l.
Proof.
  intros H. induction H as [t | e l t H IH]; intros Hd.
  - split; [lra | constructor].
  - inversion Hd as [|? ? He Hl]; subst.
    destruct (IH Hl) as [Hle Hall]. split; [lra|].
    constructor; [lra|].
    eapply Forall_impl; [|exact Hall]. cbn beta. intros a [? ?]. lra.
Qed.

Section Loop.

Variables (pd : PathData) (s : AppSettings).

Lemma draws_finite c t :
  draws c t (segmentDist_of pd c t) = true ->
  exists d, segmentDist_of pd c t = Some d /\ 0 <= d.
Proof.
  unfold draws. intros H. apply orb_true_iff in H. destruct H as [H | H].
  - destruct (segmentDist_of pd c t) as [d|]; [|discriminate].
    simpl in H. apply Rltb_true in H. exists d. split; [reflexivity | lra].
  - apply andb_true_iff in H. destruct H as [H _].
    apply andb_true_iff in H. destruct H as [Hc Ht].
    apply Z.eqb_eq in Hc. apply Z.eqb_eq in Ht.
    unfold segmentDist_of. rewrite Hc, Ht. simpl.
    exists 0. split; [reflexivity | lra].
Qed.

Lemma draw_segment_ok c a : cursor_ok c -> cursor_ok (draw_segment pd s c a).
Proof.
  intros (Hch & (d & Hd & Hd0) & Hall). unfold draw_segment.
  destruct (draws c (pathIndex a) (segmentDist_of pd c (pathIndex a))) eqn:E;
    [|now repeat split; eauto].
  destruct (draws_finite _ _ E) as (g & Hg & Hg0). rewrite Hg, Hd.
  unfold cursor_ok, push. cbn [schedule timeCursor distCursor nadd].
  repeat split.
  - now apply chained_push.
  - exists (d + g). split; [reflexivity | lra].
  - apply Forall_app. split; [assumption|]. constructor; [|constructor].
    exists d, (d + g). cbn. repeat split; lra.
Qed.

Lemma wait_label_ok c a : cursor_ok c -> cursor_ok (wait_label s c a).
Proof.
  intros (Hch & (d & Hd & Hd0) & Hall).
  unfold cursor_ok, wait_label, push. cbn [schedule timeCursor distCursor].
  repeat split.
  - now apply chained_push.
  - eauto.
  - apply Forall_app. split; [assumption|]. constructor; [|constructor].
    exists d, d. cbn. repeat split; try assumption; lra.
Qed.

Lemma area_fade_ok c a : cursor_ok c -> cursor_ok (area_fade s c a).
Proof.
  intros (Hch & (d & Hd & Hd0) & Hall).
  unfold cursor_ok, area_fade, push. cbn [schedule timeCursor distCursor].
  repeat split.
  - now apply chained_push.
  - eauto.
  - apply Forall_app. split; [assumption|]. constructor; [|constructor].
    exists d, d. cbn. repeat split; try assumption; lra.
Qed.

Lemma step_ok c i : cursor_ok c -> cursor_ok (step pd s c i).
Proof.
  destruct i; simpl; intros H.
  - now apply wait_label_ok, draw_segment_ok.
  - now apply area_fade_ok.
Qed.

Lemma run_ok l : forall c, cursor_ok c -> cursor_ok (run pd s l c).
Proof.
  unfold run. induction l as [|i l IH]; intros c H; simpl; [easy|].
  now apply IH, step_ok.
Qed.

End Loop.

Lemma finish_ok points pd s c : cursor_ok c -> cursor_ok (finish points pd s c).
Proof.
  intros H. pose proof H as (Hch & (d & Hd & Hd0) & Hall). unfold finish.
  destruct (tail_guard points c); [|assumption].
  destruct (remainingDist_of pd c) as [g|] eqn:Eg; [|assumption].
  cbn [ngtb]. destruct (Rltb (1 / 10) g) eqn:E; [|assumption].
  apply Rltb_true in E.
  unfold cursor_ok, push. cbn [schedule timeCursor distCursor].
  repeat split.
  - now apply chained_push.
  - eauto.
  - apply Forall_app. split; [assumption|]. constructor; [|constructor].
    exists d, (d + g). rewrite Hd. cbn. repeat split; lra.
Qed.

Lemma cursor0_ok : cursor_ok cursor0.
Proof.
  repeat split; cbn; [apply chained_nil | | constructor].
  exists 0. split; [reflexivity | lra].
Qed.

Lemma after_items_ok points annotations areas s :
  cursor_ok (after_items points annotations areas s).
Proof. apply run_ok, cursor0_ok. Qed.

Lemma timeline_chained points annotations areas s :
  chained 0 (tl_schedule (timeline points annotations areas s))
            (totalDuration (timeline points annotations areas s)).
Proof.
  unfold timeline, result. cbn [tl_schedule totalDuration].
  apply (finish_ok points (pathData points) s _
           (after_items_ok points annotations areas s)).
Qed.

Lemma timeline_dist_ok points annotations areas s :
  Forall dist_ok (tl_schedule (timeline points annotations areas s)).
Proof.
  unfold timeline, result. cbn [tl_schedule totalDuration].
  apply (finish_ok points (pathData points) s _
           (after_items_ok points annotations areas s)).
Qed.

(** ** The resolver: the active event *)

Lemma is_active_spec t e :
  is_active t e = true <-> startTime e <= t < startTime e + duration e.
Proof.
  unfold is_active. rewrite andb_true_iff, Rleb_true, Rltb_true. tauto.
Qed.

Lemma is_passed_spec t e :
  is_passed t e = true <-> startTime e + duration e <= t.
Proof. unfold is_passed. apply Rleb_true. Qed.

Lemma is_active_positive t e : is_active t e = true -> 0 < duration e.
Proof. rewrite is_active_spec. lra. Qed.

Lemma progress_of_active t e :
  is_active t e = true ->
  exists p, progress_of t e = Some p /\ 0 <= p < 1.
Proof.
  intros H. pose proof (is_active_positive _ _ H) as Hd.
  apply is_active_spec in H.
  unfold progress_of, ndiv. destruct (Req_dec_T (duration e) 0) as [E|_]; [lra|].
  eexists. split; [reflexivity|]. split.
  - apply Rmult_le_pos; [lra|]. left. now apply Rinv_0_lt_compat.
  - apply (Rmult_lt_reg_r (duration e)); [assumption|].
    unfold Rdiv. rewrite Rmult_assoc, Rinv_l by lra. lra.
Qed.

(** C4: the event the resolver picks as active has a positive duration, so
    the quotient [(effectiveTime - startTime) / duration] it interpolates
    with is a finite number (in [[0,1)]), for every schedule and every time;
    an event of duration 0 is never active: it counts as passed from its
    start time on. *)
Theorem active_event_never_divides_by_zero
    (sch : list Event) (effectiveTime : R) (e : Event) :
  find (is_active effectiveTime) sch = Some e ->
  0 < duration e
  /\ (exists p, progress_of effectiveTime e = Some p /\ 0 <= p < 1)
  /\ (forall z, duration z = 0 ->
        is_active effectiveTime z = false
        /\ is_passed effectiveTime z = Rleb (startTime z) effectiveTime).
Proof.
  intros H. apply find_some in H. destruct H as [_ H].
  split; [now apply (is_active_positive effectiveTime)|].
  split; [now apply progress_of_active|].
  intros z Hz. split.
  - destruct (is_active effectiveTime z) eqn:E; [|reflexivity].
    apply is_active_positive in E. lra.
  - unfold is_passed. now rewrite Hz, Rplus_0_r.
Qed.

(** The distance the resolver reports for a schedule of the builder is a
    finite number, at every time. *)
Lemma distance_at_finite tl pd t :
  Forall dist_ok (tl_schedule tl) ->
  exists d, distance_at tl pd t (find (is_active t) (tl_schedule tl)) = Some d.
Proof.
  intros Hall. unfold distance_at.
  destruct (find (is_active t) (tl_schedule tl)) as [e|] eqn:E.
  - apply find_some in E. destruct E as [Hin Hact].
    rewrite Forall_forall in Hall.
    destruct (Hall e Hin) as (a & b & Ha & Hb & _).
    destruct (progress_of_active _ _ Hact) as (p & Hp & _).
    rewrite Ha, Hb, Hp. destruct (type e); cbn; eauto.
  - destruct (Rleb (totalDuration tl) t); eauto.
Qed.

Lemma visualState_finite points annotations areas s time :
  exists d, currentDistance (visualState points annotations areas s time) = Some d.
Proof.
  unfold visualState, getAnimationState.
  destruct (enableFlash s && Rltb time (flashDuration s)); [cbn; eauto|].
  destruct (Rltb (effectiveTime_of s time) 0); [cbn; eauto|].
  cbn [currentDistance]. apply distance_at_finite, timeline_dist_ok.
Qed.

(** ** The resolver: revealed ids *)

Lemma getAnimationState_cases s tl pd time :
  (getAnimationState s tl pd time = rest_state true
   /\ enableFlash s = true /\ time < flashDuration s)
  \/ (getAnimationState s tl pd time = rest_state false
      /\ effectiveTime_of s time < 0)
  \/ (let t := effectiveTime_of s time in
      getAnimationState s tl pd time
      = {| currentDistance :=
             distance_at tl pd t (find (is_active t) (tl_schedule tl));
           activeAnnotationIds := revealed Wait (tl_schedule tl) t;
           visibleAreaIds := revealed AreaEv (tl_schedule tl) t;
           isFlashing := false |}
      /\ 0 <= t
      /\ (enableFlash s = true -> flashDuration s <= time)).
Proof.
  unfold getAnimationState.
  destruct (enableFlash s && Rltb time (flashDuration s)) eqn:E1.
  - left. apply andb_true_iff in E1. destruct E1 as [? E1].
    apply Rltb_true in E1. easy.
  - right. destruct (Rltb (effectiveTime_of s time) 0) eqn:E2.
    + left. apply Rltb_true in E2. easy.
    + right. apply Rltb_false in E2. cbn zeta. repeat split; [assumption|].
      intros Hf. rewrite Hf in E1. simpl in E1. now apply Rltb_false in E1.
Qed.

Lemma revealed_In ty sch t i :
  In i (revealed ty sch t) <->
  exists e, In i (id_if ty e)
            /\ ((In e sch /\ is_passed t e = true)
                \/ find (is_active t) sch = Some e).
Proof.
  unfold revealed. rewrite in_app_iff, in_flat_map. split.
  - intros [(e & He & Hi) | H].
    + apply filter_In in He. exists e. tauto.
    + destruct (find (is_active t) sch) as [e|]; [|contradiction].
      exists e. tauto.
  - intros (e & Hi & [[He Hp] | Hf]).
    + left. exists e. split; [|assumption]. apply filter_In. tauto.
    + right. now rewrite Hf.
Qed.

(** While the cursor has not passed [t1], the event found active at [t1] is
    still the one found at a later time inside its span. *)
Lemma find_active_later t0 l t1' t1 t2 e :
  chained t0 l t1' -> t0 <= t1 -> t1 < t2 ->
  find (is_active t1) l = Some e ->
  t2 < startTime e + duration e ->
  find (is_active t2) l = Some e.
Proof.
  intros H. revert e. induction H as [t | e0 l t H IH]; intros e H0 H12 Hf He.
  - discriminate.
  - cbn [find] in *. destruct (is_active t1 e0) eqn:E1.
    + injection Hf as <-. apply is_active_spec in E1.
      assert (E2 : is_active t2 e0 = true) by (apply is_active_spec; lra).
      now rewrite E2.
    + assert (Hend : startTime e0 + duration e0 <= t1).
      { destruct (Rle_dec (startTime e0 + duration e0) t1) as [|Hn]; [assumption|].
        assert (is_active t1 e0 = true) by (apply is_active_spec; lra).
        congruence. }
      assert (E2 : is_active t2 e0 = false).
      { destruct (is_active t2 e0) eqn:E; [|reflexivity].
        apply is_active_spec in E. lra. }
      rewrite E2. now apply IH.
Qed.

Lemma revealed_monotone ty sch total t1 t2 i :
  chained 0 sch total -> 0 <= t1 -> t1 < t2 ->
  In i (revealed ty sch t1) -> In i (revealed ty sch t2).
Proof.
  intros Hch H0 H12. rewrite !revealed_In.
  intros (e & Hi & [[He Hp] | Hf]); exists e; (split; [assumption|]).
  - left. split; [assumption|]. apply is_passed_spec in Hp.
    apply is_passed_spec. lra.
  - destruct (Rle_dec (startTime e + duration e) t2) as [Hle | Hgt].
    + left. apply find_some in Hf. split; [tauto|]. now apply is_passed_spec.
    + right. apply (find_active_later 0 sch total t1); try assumption. lra.
Qed.

Lemma effectiveTime_lt s t1 t2 :
  t1 < t2 -> effectiveTime_of s t1 < effectiveTime_of s t2.
Proof. unfold effectiveTime_of. destruct (enableFlash s); lra. Qed.

Lemma getAnimationState_monotone s tl pd t1 t2 :
  chained 0 (tl_schedule tl) (totalDuration tl) -> t1 < t2 ->
  (forall i, In i (activeAnnotationIds (getAnimationState s tl pd t1)) ->
             In i (activeAnnotationIds (getAnimationState s tl pd t2)))
  /\ (forall i, In i (visibleAreaIds (getAnimationState s tl pd t1)) ->
                In i (visibleAreaIds (getAnimationState s tl pd t2))).
Proof.
  intros Hch H12. pose proof (effectiveTime_lt s _ _ H12) as He.
  destruct (getAnimationState_cases s tl pd t1)
    as [(-> & _) | [(-> & _) | (-> & H0 & Hf1)]];
    [split; intros i []| split; intros i [] |].
  destruct (getAnimationState_cases s tl pd t2)
    as [(_ & Hf & Hlt) | [(_ & Hneg) | (-> & _)]].
  - specialize (Hf1 Hf). lra.
  - lra.
  - cbn [activeAnnotationIds visibleAreaIds].
    split; intros i; apply (revealed_monotone _ _ _ _ _ _ Hch); lra.
Qed.

(** C6: an annotation or area id revealed at time [t1] is revealed at every
    later time [t2] (up to [totalDuration] and beyond), for the schedule the
    builder makes of any waypoints, items and settings. *)
Theorem reveal_is_monotone
    (points : list Point) (annotations : list Annotation) (areas : list Area)
    (s : AppSettings) (t1 t2 : R) (i : string) :
  t1 < t2 ->
  (In i (activeAnnotationIds (visualState points annotations areas s t1)) ->
   In i (activeAnnotationIds (visualState points annotations areas s t2)))
  /\ (In i (visibleAreaIds (visualState points annotations areas s t1)) ->
      In i (visibleAreaIds (visualState points annotations areas s t2))).
Proof.
  intros H12. unfold visualState.
  destruct (getAnimationState_monotone s (timeline points annotations areas s)
              (pathData points) t1 t2
              (timeline_chained points annotations areas s) H12) as [Ha Hb].
  split; [apply Ha | apply Hb].
Qed.

(** ** Durations that are not negative *)

Lemma insert_item_In i l j : In j (insert_item i l) <-> j = i \/ In j l.
Proof.
  induction l as [|k l IH]; simpl.
  - intuition congruence.
  - destruct (Rltb (item_order k) (item_order i)); simpl; rewrite ?IH;
      intuition congruence.
Qed.

Lemma sort_items_In l j : In j (sort_items l) <-> In j l.
Proof.
  induction l as [|k l IH]; simpl; [tauto|].
  rewrite insert_item_In, IH. intuition congruence.
Qed.

Lemma items_nonneg annotations areas s :
  durations_nonneg annotations areas s ->
  Forall item_nonneg (items annotations areas).
Proof.
  intros (Ha & Hb & _). apply Forall_forall. intros j Hj.
  apply sort_items_In, in_app_iff in Hj. rewrite !in_map_iff in Hj.
  rewrite Forall_forall in Ha, Hb.
  destruct Hj as [(a & <- & Hin) | (a & <- & Hin)]; auto.
Qed.

Lemma nullish_nonneg d r : opt_nonneg d -> 0 <= r -> 0 <= nullish d r.
Proof. destruct d; simpl; auto. Qed.

Lemma step_durations pd s c i :
  defaults_nonneg s -> item_nonneg i ->
  Forall (fun e => 0 <= duration e) (schedule c) ->
  Forall (fun e => 0 <= duration e) (schedule (step pd s c i)).
Proof.
  intros (Hs & Hp & Ha) Hi Hall. destruct i as [a | a]; cbn in Hi |- *.
  - unfold push. apply Forall_app. split.
    + unfold draw_segment.
      destruct (draws c (pathIndex a) (segmentDist_of pd c (pathIndex a)));
        [|assumption].
      cbn [schedule]. unfold push. apply Forall_app. split; [assumption|].
      constructor; [|constructor]. cbn. now apply nullish_nonneg.
    + constructor; [|constructor]. cbn. now apply nullish_nonneg.
  - unfold push. apply Forall_app. split; [assumption|].
    constructor; [|constructor]. cbn. now apply nullish_nonneg.
Qed.

Lemma run_durations pd s l :
  defaults_nonneg s -> Forall item_nonneg l -> forall c,
  Forall (fun e => 0 <= duration e) (schedule c) ->
  Forall (fun e => 0 <= duration e) (schedule (run pd s l c)).
Proof.
  intros Hs Hl. unfold run. induction Hl as [|i l Hi Hl IH]; intros c Hc; simpl.
  - assumption.
  - apply IH. now apply step_durations.
Qed.

Lemma finish_durations points pd s c :
  defaults_nonneg s ->
  Forall (fun e => 0 <= duration e) (schedule c) ->
  Forall (fun e => 0 <= duration e) (schedule (finish points pd s c)).
Proof.
  intros (Hs & _) Hall. unfold finish.
  destruct (tail_guard points c); [|assumption].
  destruct (ngtb (remainingDist_of pd c) (1 / 10)); [|assumption].
  cbn [schedule]. unfold push. apply Forall_app. split; [assumption|].
  constructor; [|constructor]. assumption.
Qed.

Lemma timeline_durations points annotations areas s :
  durations_nonneg annotations areas s ->
  Forall (fun e => 0 <= duration e)
         (tl_schedule (timeline points annotations areas s)).
Proof.
  intros H. pose proof (items_nonneg _ _ _ H) as Hi. destruct H as (_ & _ & Hs).
  unfold timeline, result, after_items. cbn [tl_schedule].
  apply finish_durations; [assumption|].
  apply run_durations; [assumption | assumption | constructor].
Qed.

Lemma timeline_bounds points annotations areas s :
  durations_nonneg annotations areas s ->
  0 <= totalDuration (timeline points annotations areas s)
  /\ Forall (fun e => 0 <= startTime e
                      /\ startTime e + duration e
                         <= totalDuration (timeline points annotations areas s))
            (tl_schedule (timeline points annotations areas s)).
Proof.
  intros H. apply chained_bounds.
  - apply timeline_chained.
  - now apply timeline_durations.
Qed.

(** ** The resolver at the end of the timeline *)

Lemma no_active_after_end tl t :
  Forall (fun e => startTime e + duration e <= totalDuration tl) (tl_schedule tl) ->
  totalDuration tl <= t ->
  find (is_active t) (tl_schedule tl) = None.
Proof.
  intros Hall Ht.
  destruct (find (is_active t) (tl_schedule tl)) as [e|] eqn:E; [|reflexivity].
  apply find_some in E. destruct E as [Hin Hact].
  rewrite Forall_forall in Hall. specialize (Hall e Hin).
  apply is_active_spec in Hact. lra.
Qed.

(** C7, with durations that are not negative: once the effective time has
    reached [totalDuration], the resolver reports exactly [totalLength]. *)
Theorem distance_at_end_is_totalLength
    (points : list Point) (annotations : list Annotation) (areas : list Area)
    (s : AppSettings) (time : R) :
  durations_nonneg annotations areas s ->
  totalDuration (timeline points annotations areas s) <= effectiveTime_of s time ->
  currentDistance (visualState points annotations areas s time)
  = Some (totalLength (pathData points)).
Proof.
  intros Hn Ht. destruct (timeline_bounds points _ _ _ Hn) as [H0 Hall].
  unfold visualState.
  destruct (getAnimationState_cases s (timeline points annotations areas s)
              (pathData points) time)
    as [(_ & Hf & Hlt) | [(_ & Hneg) | (-> & _)]].
  - unfold effectiveTime_of in Ht. rewrite Hf in Ht. lra.
  - lra.
  - cbn [currentDistance]. rewrite no_active_after_end.
    + unfold distance_at.
      now rewrite (proj2 (Rleb_true _ _) Ht).
    + eapply Forall_impl; [|exact Hall]. cbn beta. tauto.
    + assumption.
Qed.

(** ** Flash disabled *)

Lemma step_same_defaults pd s1 s2 c i :
  same_but_flashDuration s1 s2 -> step pd s1 c i = step pd s2 c i.
Proof.
  intros (_ & Hs & Hp & Ha). destruct i as [a | a]; cbn.
  - unfold wait_label, draw_segment. now rewrite Hs, Hp.
  - unfold area_fade. now rewrite Ha.
Qed.

Lemma run_same_defaults pd s1 s2 l :
  same_but_flashDuration s1 s2 -> forall c, run pd s1 l c = run pd s2 l c.
Proof.
  intros H. unfold run. induction l as [|i l IH]; intros c; simpl; [reflexivity|].
  now rewrite (step_same_defaults pd s1 s2 c i H), IH.
Qed.

Lemma timeline_same_defaults points annotations areas s1 s2 :
  same_but_flashDuration s1 s2 ->
  timeline points annotations areas s1 = timeline points annotations areas s2.
Proof.
  intros H. unfold timeline, after_items.
  rewrite (run_same_defaults _ s1 s2 _ H).
  unfold finish. destruct H as (_ & -> & _). reflexivity.
Qed.

(** C10: with [enableFlash] false the state the resolver returns does not
    depend on [flashDuration]: for every schedule and every time, two
    settings with the flash disabled give the same distance and the same
    revealed ids, and [isFlashing] is false. *)
Theorem flashDuration_noninterference
    (s1 s2 : AppSettings) (tl : Timeline) (pd : PathData) (time : R) :
  enableFlash s1 = false ->
  enableFlash s2 = false ->
  getAnimationState s1 tl pd time = getAnimationState s2 tl pd time
  /\ isFlashing (getAnimationState s1 tl pd time) = false.
Proof.
  intros H1 H2. unfold getAnimationState, effectiveTime_of.
  rewrite H1, H2. cbn [andb]. split; [reflexivity|].
  destruct (Rltb time 0); reflexivity.
Qed.

(** The same from the inputs of the component: the schedule does not read
    the flash settings either. *)
Corollary visualState_flashDuration
    (points : list Point) (annotations : list Annotation) (areas : list Area)
    (s1 s2 : AppSettings) (time : R) :
  enableFlash s1 = false ->
  same_but_flashDuration s1 s2 ->
  visualState points annotations areas s1 time
  = visualState points annotations areas s2 time.
Proof.
  intros Hf Hs. unfold visualState.
  rewrite (timeline_same_defaults points annotations areas s1 s2 Hs).
  destruct Hs as (Hf2 & _). rewrite Hf in Hf2.
  unfold getAnimationState, effectiveTime_of. now rewrite Hf, <- Hf2.
Qed.

(** ** The trailing draw event *)

Lemma js_get_negative {A : Type} (arr : list A) (i : Z) :
  (i < 0)%Z -> js_get arr i = None.
Proof. unfold js_get. intros H. now destruct (Z.ltb_spec i 0); [|lia]. Qed.

Lemma js_get_nat {A : Type} (arr : list A) (i : Z) :
  (0 <= i)%Z -> js_get arr i = nth_error arr (Z.to_nat i).
Proof. unfold js_get. intros H. now destruct (Z.ltb_spec i 0); [lia|]. Qed.

Lemma js_get_beyond {A : Type} (arr : list A) (i : Z) :
  (Z.of_nat (List.length arr) <= i)%Z -> js_get arr i = None.
Proof.
  intros H. rewrite js_get_nat by lia. apply nth_error_None. lia.
Qed.

Lemma pointDistances_get_0 points :
  js_get (pointDistances (pathData points)) 0 = Some 0.
Proof. rewrite pointDistances_eq. reflexivity. Qed.

Lemma pointDistances_get points i :
  (0 <= i < Z.of_nat (Nat.max 1 (List.length points)))%Z ->
  js_get (pointDistances (pathData points)) i
  = Some (euclid_sum points (Z.to_nat i)).
Proof.
  intros H. rewrite js_get_nat by lia. apply pointDistances_nth. lia.
Qed.

Lemma pointDistances_get_out points i :
  out_of_range points i -> ~ (points = [] /\ i = 0%Z) ->
  js_get (pointDistances (pathData points)) i = None.
Proof.
  intros [Hneg | Hbig] Hnot; [now apply js_get_negative|].
  apply js_get_beyond. rewrite pointDistances_length.
  destruct points as [|p l]; [|simpl List.length in *; lia].
  simpl in *. assert (i <> 0%Z) by tauto. lia.
Qed.

Lemma finish_emits points pd s c :
  finish points pd s c
  = if emits_tail points pd c
    then {| schedule := schedule c ++ [tail_event pd s c];
            timeCursor := timeCursor c + defaultSegmentDuration s;
            distCursor := distCursor c;
            currentPointIdx := currentPointIdx c |}
    else c.
Proof.
  unfold finish, emits_tail. destruct (tail_guard points c); [|reflexivity].
  cbn [andb]. now destruct (ngtb (remainingDist_of pd c) (1 / 10)).
Qed.

Lemma ngtb_true a b : ngtb a b = true <-> exists r, a = Some r /\ b < r.
Proof.
  destruct a as [r|]; cbn [ngtb].
  - rewrite Rltb_true. split; [eauto|]. now intros (? & [= <-] & ?).
  - split; [discriminate|]. now intros (? & [=] & _).
Qed.

Lemma emits_tail_iff points pd c :
  emits_tail points pd c = true <->
  (currentPointIdx c < Z.of_nat (List.length points) - 1)%Z
  /\ exists r, remainingDist_of pd c = Some r /\ 1 / 10 < r.
Proof.
  unfold emits_tail, tail_guard.
  rewrite !andb_true_iff, Nat.ltb_lt, Z.ltb_lt, ngtb_true. split; [tauto|].
  intros (Hlt & r & Hr & Hgt). repeat split; eauto.
  destruct points as [|p l]; [|simpl; lia]. exfalso.
  unfold remainingDist_of in Hr. rewrite js_get_negative in Hr by (simpl in Hlt; lia).
  discriminate.
Qed.

Lemma run_reached pd s l : forall c,
  currentPointIdx (run pd s l c) = reached l (currentPointIdx c).
Proof.
  unfold run. induction l as [|i l IH]; intros c; [reflexivity|].
  cbn [fold_left]. rewrite IH. now destruct i.
Qed.

Lemma remainingDist_of_spec points c :
  (currentPointIdx c < Z.of_nat (List.length points) - 1)%Z ->
  remainingDist_of (pathData points) c
  = if (0 <=? currentPointIdx c)%Z
    then Some (totalLength (pathData points)
               - euclid_sum points (Z.to_nat (currentPointIdx c)))
    else None.
Proof.
  intros Hlt. unfold remainingDist_of.
  destruct (Z.leb_spec 0 (currentPointIdx c)).
  - rewrite pointDistances_get by lia. reflexivity.
  - rewrite js_get_negative by lia. reflexivity.
Qed.

(** C9: with no item and a path of at least two waypoints that is longer
    than 0.1, the schedule is the single draw event from 0 to [totalLength]
    lasting [defaults.segment], and [totalDuration = defaults.segment].
    For any items: when they are processed the current waypoint index
    [idx] is the anchor of the last annotation in schedule order (0 when
    there is none), and [cumulativeDistances[idx]] is the Euclidean length
    of the path up to waypoint [idx] (undefined below 0, so that nothing
    then exceeds 0.1).  The trailing draw event is emitted if and only if
    [idx < lastIndex] and the remaining distance
    [totalLength - cumulativeDistances[idx]] exceeds 0.1; it then starts at
    the time and distance reached, lasts [defaults.segment] and covers the
    remaining distance, and [totalDuration] grows by [defaults.segment];
    otherwise the schedule is the one the items gave. *)
Theorem trailing_draw_event
    (points : list Point) (annotations : list Annotation) (areas : list Area)
    (s : AppSettings) :
  let pd := pathData points in
  let c := after_items points annotations areas s in
  let idx := reached (items annotations areas) 0 in
  let lastIndex := (Z.of_nat (List.length points) - 1)%Z in
  let remaining := totalLength pd - euclid_sum points (Z.to_nat idx) in
  let emitted := (0 <= idx < lastIndex)%Z /\ 1 / 10 < remaining in
  currentPointIdx c = idx
  /\ ((idx < lastIndex)%Z ->
      js_get (pointDistances pd) idx
      = if (0 <=? idx)%Z then Some (euclid_sum points (Z.to_nat idx)) else None)
  /\ (timeline points annotations areas s
      = {| tl_schedule :=
             schedule c ++ [ {| type := Draw;
                                startTime := timeCursor c;
                                duration := defaultSegmentDuration s;
                                startDist := distCursor c;
                                endDist := nadd (distCursor c) (Some remaining);
                                itemId := None |} ];
           totalDuration := timeCursor c + defaultSegmentDuration s |}
      <-> emitted)
  /\ (~ emitted ->
      timeline points annotations areas s
      = {| tl_schedule := schedule c; totalDuration := timeCursor c |})
  /\ ((2 <= List.length points)%nat -> 1 / 10 < totalLength pd ->
      timeline points [] [] s
      = {| tl_schedule := [ {| type := Draw;
                               startTime := 0;
                               duration := defaultSegmentDuration s;
                               startDist := Some 0;
                               endDist := Some (totalLength pd);
                               itemId := None |} ];
           totalDuration := defaultSegmentDuration s |}).
Proof.
  intros pd c idx lastIndex remaining emitted.
  assert (Hidx : currentPointIdx c = idx)
    by (unfold c, after_items; now rewrite run_reached).
  assert (Htl : timeline points annotations areas s
                = if emits_tail points pd c
                  then {| tl_schedule := schedule c ++ [tail_event pd s c];
                          totalDuration := timeCursor c + defaultSegmentDuration s |}
                  else result c).
  { unfold timeline. fold pd. fold c. rewrite finish_emits.
    now destruct (emits_tail points pd c). }
  assert (Hem : emits_tail points pd c = true <-> emitted).
  { rewrite emits_tail_iff. unfold emitted, remaining, lastIndex, pd.
    rewrite <- Hidx. split.
    - intros (Hlt & r & Hr & Hgt). rewrite remainingDist_of_spec in Hr by lia.
      destruct (Z.leb_spec 0 (currentPointIdx c)); [|discriminate].
      injection Hr as <-. split; [lia | exact Hgt].
    - intros ((H0 & Hlt) & Hgt). split; [lia|]. eexists. split; [|exact Hgt].
      rewrite remainingDist_of_spec by lia.
      now destruct (Z.leb_spec 0 (currentPointIdx c)); [|lia]. }
  assert (Htail : emitted ->
            tail_event pd s c
            = {| type := Draw;
                 startTime := timeCursor c;
                 duration := defaultSegmentDuration s;
                 startDist := distCursor c;
                 endDist := nadd (distCursor c) (Some remaining);
                 itemId := None |}).
  { intros ((H0 & Hlt) & _). unfold tail_event, pd.
    rewrite remainingDist_of_spec by (unfold lastIndex in Hlt; lia).
    rewrite Hidx. now destruct (Z.leb_spec 0 idx); [|lia]. }
  split; [exact Hidx|]. split; [|split; [|split]].
  - intros Hlt. unfold pd. destruct (Z.leb_spec 0 idx).
    + apply pointDistances_get. unfold lastIndex in Hlt. lia.
    + apply js_get_negative. lia.
  - rewrite Htl. split.
    + destruct (emits_tail points pd c) eqn:E; [intros _; now apply Hem|].
      intros Heq. apply (f_equal (fun t => List.length (tl_schedule t))) in Heq.
      unfold result in Heq. cbn [tl_schedule] in Heq.
      rewrite length_app in Heq. cbn [List.length] in Heq. lia.
    + intros He. rewrite (proj2 Hem He), (Htail He). reflexivity.
  - intros Hne. rewrite Htl. destruct (emits_tail points pd c) eqn:E.
    + exfalso. now apply Hne, Hem.
    + reflexivity.
  - intros Hlen Hgt. unfold timeline, after_items, items.
    cbn [map app sort_items run fold_left].
    fold pd. rewrite finish_emits.
    assert (Hrem : remainingDist_of pd cursor0 = Some (totalLength pd)).
    { unfold remainingDist_of, pd. cbn [currentPointIdx cursor0].
      rewrite pointDistances_get_0. cbn [nsub]. f_equal. apply Rminus_0_r. }
    assert (Hem0 : emits_tail points pd cursor0 = true).
    { apply emits_tail_iff. cbn [currentPointIdx cursor0]. split; [lia|].
      exists (totalLength pd). now split. }
    rewrite Hem0. unfold result, tail_event.
    cbn [schedule timeCursor distCursor cursor0 tl_schedule app]. rewrite Hrem.
    cbn [nadd]. now rewrite !Rplus_0_l.
Qed.

(** ** Annotations that draw nothing *)

Lemma schedule_step_length pd s c i :
  (List.length (schedule c) < List.length (schedule (step pd s c i)))%nat.
Proof.
  destruct i as [a | a]; cbn; unfold push; rewrite length_app; cbn; [|lia].
  unfold draw_segment.
  destruct (draws c (pathIndex a) (segmentDist_of pd c (pathIndex a))); [|lia].
  cbn. unfold push. rewrite length_app. cbn. lia.
Qed.

Lemma schedule_run_length pd s l : forall c,
  (List.length (schedule c) + List.length l
   <= List.length (schedule (run pd s l c)))%nat.
Proof.
  unfold run. induction l as [|i l IH]; intros c; simpl; [lia|].
  specialize (IH (step pd s c i)).
  pose proof (schedule_step_length pd s c i). lia.
Qed.

Lemma draw_segment_skip pd s c a :
  draws c (pathIndex a) (segmentDist_of pd c (pathIndex a)) = false ->
  step pd s c (IAnnotation a) = wait_label s c a.
Proof. intros H. cbn. unfold draw_segment. now rewrite H. Qed.

(** An index that does not go forward draws nothing, unless the loop is at
    its very start. *)
Lemma draws_backward pd c t :
  (t <= currentPointIdx c)%Z ->
  t <> 0%Z \/ currentPointIdx c <> 0%Z \/ schedule c <> [] ->
  draws c t (segmentDist_of pd c t) = false.
Proof.
  intros Hle Hnb. unfold draws, segmentDist_of.
  destruct (Z.gtb_spec t (currentPointIdx c)); [lia|].
  cbn [ngtb]. rewrite (proj2 (Rltb_false 0 0)) by lra. cbn [orb].
  destruct (Z.eqb_spec (currentPointIdx c) 0); [|reflexivity].
  destruct (Z.eqb_spec t 0); [|reflexivity].
  destruct (schedule c); [tauto | reflexivity].
Qed.

Lemma draws_out_of_range points c t :
  out_of_range points t ->
  points <> [] \/ t <> 0%Z \/ schedule c <> [] ->
  draws c t (segmentDist_of (pathData points) c t) = false.
Proof.
  intros Hout Hnb.
  destruct (Z.le_gt_cases t (currentPointIdx c)) as [Hle | Hgt].
  - apply draws_backward; [assumption|].
    destruct (Z.eq_dec t 0) as [->|]; [|tauto].
    destruct Hnb as [Hp | [? | ?]]; [|tauto|tauto].
    destruct Hout as [? | Hout]; [lia|].
    destruct points; [tauto | simpl in Hout; lia].
  - unfold draws, segmentDist_of.
    destruct (Z.gtb_spec t (currentPointIdx c)); [|lia].
    assert (Hnone : nsub (js_get (pointDistances (pathData points)) t)
                         (js_get (pointDistances (pathData points))
                                 (currentPointIdx c)) = None).
    { destruct (Z.eq_dec t 0) as [-> | Ht].
      - rewrite (js_get_negative _ (currentPointIdx c)) by lia.
        now destruct (js_get (pointDistances (pathData points)) 0).
      - rewrite pointDistances_get_out; [reflexivity | assumption | tauto]. }
    rewrite Hnone. cbn [ngtb orb].
    destruct (Z.eqb_spec t 0) as [-> | ?]; [|now rewrite andb_false_r].
    destruct (Z.eqb_spec (currentPointIdx c) 0); [lia | reflexivity].
Qed.

Lemma run_app pd s l1 l2 c :
  run pd s (l1 ++ l2) c = run pd s l2 (run pd s l1 c).
Proof. unfold run. apply fold_left_app. Qed.

Lemma run_nonempty pd s l c : l <> [] -> schedule (run pd s l c) <> [].
Proof.
  intros Hl E. pose proof (schedule_run_length pd s l c) as H.
  rewrite E in H. destruct l; [tauto | simpl in H; lia].
Qed.

Lemma timeline_event_nonneg points annotations areas s :
  durations_nonneg annotations areas s ->
  Forall event_nonneg (tl_schedule (timeline points annotations areas s)).
Proof.
  intros H. destruct (timeline_bounds points _ _ _ H) as [_ Hb].
  pose proof (timeline_durations points _ _ _ H) as Hd.
  pose proof (timeline_dist_ok points annotations areas s) as Hk.
  rewrite Forall_forall in *. intros e He. unfold event_nonneg.
  specialize (Hb e He). specialize (Hd e He). specialize (Hk e He). tauto.
Qed.

(** C5, with the one exception the code makes: an annotation whose
    [pathIndex] is out of range pushes its wait event and leaves the distance
    cursor where it was; it pushes no draw event, unless there is no waypoint
    at all, its [pathIndex] is 0 and it is the first item (the bootstrap draw
    event, of distance zero); with durations that are not negative, every
    event of the schedule has finite, non-negative times and distances. *)
Theorem out_of_range_annotation
    (points : list Point) (annotations : list Annotation) (areas : list Area)
    (s : AppSettings) (before after : list Item) (a : Annotation) :
  items annotations areas = before ++ IAnnotation a :: after ->
  out_of_range points (pathIndex a) ->
  let pd := pathData points in
  let c := run pd s before cursor0 in
  (exists c', step pd s c (IAnnotation a) = wait_label s c' a
              /\ distCursor c' = distCursor c
              /\ (points <> [] \/ pathIndex a <> 0%Z \/ before <> [] -> c' = c))
  /\ after_items points annotations areas s
     = run pd s after (step pd s c (IAnnotation a))
  /\ (durations_nonneg annotations areas s ->
      Forall event_nonneg (tl_schedule (timeline points annotations areas s))).
Proof.
  intros Hitems Hout pd c.
  assert (Hkey : points <> [] \/ pathIndex a <> 0%Z \/ before <> [] ->
                 draws c (pathIndex a) (segmentDist_of pd c (pathIndex a)) = false).
  { intros Hnb. apply draws_out_of_range; [assumption|].
    destruct Hnb as [? | [? | ?]]; [tauto | tauto |].
    right. right. now apply run_nonempty. }
  split; [|split].
  - destruct (draws c (pathIndex a) (segmentDist_of pd c (pathIndex a))) eqn:E.
    + exists (draw_segment pd s c a). split; [reflexivity|]. split.
      * assert (Hboot : points = [] /\ pathIndex a = 0%Z /\ before = []).
        { destruct points as [|p l];
            [|exfalso; assert (true = false)
                by (apply Hkey; left; discriminate); discriminate].
          destruct (Z.eq_dec (pathIndex a) 0) as [H0 | H0];
            [|exfalso; assert (true = false)
                by (apply Hkey; tauto); discriminate].
          destruct before as [|i l]; [tauto|].
          exfalso. assert (true = false)
            by (apply Hkey; right; right; discriminate).
          discriminate. }
        destruct Hboot as (_ & H0 & Hb). unfold draw_segment. rewrite E.
        unfold c, segmentDist_of. rewrite H0, Hb. cbn. f_equal. lra.
      * intros Hnb. exfalso. assert (true = false) by now apply Hkey.
        discriminate.
    + exists c. split; [now apply draw_segment_skip | tauto].
  - unfold after_items. rewrite Hitems, run_app. reflexivity.
  - apply timeline_event_nonneg.
Qed.

(** ** Backward [pathIndex] *)

Lemma items_two a1 a2 :
  ann_order a1 <= ann_order a2 ->
  items [a1; a2] [] = [IAnnotation a1; IAnnotation a2].
Proof.
  intros H. unfold items. cbn.
  now rewrite (proj2 (Rltb_false (ann_order a2) (ann_order a1))).
Qed.

Lemma run_areas_idx pd s l :
  Forall is_area l -> forall c,
  currentPointIdx (run pd s l c) = currentPointIdx c.
Proof.
  unfold run. induction 1 as [|i l Hi _ IH]; intros c; simpl; [reflexivity|].
  rewrite IH. now destruct i.
Qed.

(** C3, with the guard of the trailing draw: on a path of at least three
    waypoints, when the annotations scheduled are one at [pathIndex] 2 and
    then one at [pathIndex] 0 (areas may come in between), the second
    annotation pushes only its wait event, the loop ends with
    [currentWaypointIndex = 0], the remaining distance is
    [totalLength - cumulativeDistances[0] = totalLength], and the trailing
    draw event, emitted when that distance exceeds 0.1, spans exactly it; no
    event of any schedule ends at a smaller distance than it starts. *)
Theorem backward_pathIndex
    (points : list Point) (annotations : list Annotation) (areas : list Area)
    (s : AppSettings) (l0 l1 l2 : list Item) (a1 a2 : Annotation) :
  (3 <= List.length points)%nat ->
  items annotations areas = l0 ++ IAnnotation a1 :: l1 ++ IAnnotation a2 :: l2 ->
  Forall is_area (l0 ++ l1 ++ l2) ->
  pathIndex a1 = 2%Z -> pathIndex a2 = 0%Z ->
  let pd := pathData points in
  let c2 := run pd s (l0 ++ IAnnotation a1 :: l1) cursor0 in
  let c := after_items points annotations areas s in
  step pd s c2 (IAnnotation a2) = wait_label s c2 a2
  /\ c = run pd s l2 (wait_label s c2 a2)
  /\ currentPointIdx c = 0%Z
  /\ remainingDist_of pd c = Some (totalLength pd)
  /\ timeline points annotations areas s
     = (if Rltb (1 / 10) (totalLength pd)
        then {| tl_schedule := schedule c ++ [tail_event pd s c];
                totalDuration := timeCursor c + defaultSegmentDuration s |}
        else result c)
  /\ (exists d, distCursor c = Some d
                /\ startDist (tail_event pd s c) = Some d
                /\ endDist (tail_event pd s c) = Some (d + totalLength pd))
  /\ (forall points' annotations' areas' s',
        Forall dist_ok (tl_schedule (timeline points' annotations' areas' s'))).
Proof.
  intros Hlen Hitems Hareas H1 H2 pd c2 c.
  apply Forall_app in Hareas. destruct Hareas as [Hl0 Hareas].
  apply Forall_app in Hareas. destruct Hareas as [Hl1 Hl2].
  assert (Hc2 : currentPointIdx c2 = 2%Z).
  { unfold c2. rewrite run_app.
    change (run pd s (IAnnotation a1 :: l1) (run pd s l0 cursor0))
      with (run pd s l1 (step pd s (run pd s l0 cursor0) (IAnnotation a1))).
    rewrite (run_areas_idx pd s l1 Hl1). exact H1. }
  assert (Hstep : step pd s c2 (IAnnotation a2) = wait_label s c2 a2).
  { apply draw_segment_skip, draws_backward; rewrite Hc2, ?H2; [lia|].
    right. left. discriminate. }
  assert (Hc : c = run pd s l2 (wait_label s c2 a2)).
  { unfold c, after_items. rewrite Hitems. fold pd.
    replace (l0 ++ IAnnotation a1 :: l1 ++ IAnnotation a2 :: l2)
      with ((l0 ++ IAnnotation a1 :: l1) ++ IAnnotation a2 :: l2)
      by (rewrite <- app_assoc; reflexivity).
    rewrite run_app. fold c2.
    change (run pd s (IAnnotation a2 :: l2) c2)
      with (run pd s l2 (step pd s c2 (IAnnotation a2))).
    now rewrite Hstep. }
  assert (Hidx : currentPointIdx c = 0%Z).
  { rewrite Hc, (run_areas_idx pd s l2 Hl2). exact H2. }
  assert (Hrem : remainingDist_of pd c = Some (totalLength pd)).
  { unfold remainingDist_of. rewrite Hidx. unfold pd.
    rewrite pointDistances_get_0. cbn [nsub]. f_equal. apply Rminus_0_r. }
  repeat split; try assumption.
  - unfold timeline. fold c. fold pd. rewrite finish_emits.
    unfold emits_tail, tail_guard. rewrite Hidx, Hrem. cbn [ngtb].
    destruct (Nat.ltb_spec 0 (List.length points)); [|lia].
    destruct (Z.ltb_spec 0 (Z.of_nat (List.length points) - 1)); [|lia].
    cbn [andb]. now destruct (Rltb (1 / 10) (totalLength pd)).
  - destruct (after_items_ok points annotations areas s) as (_ & (d & Hd & _) & _).
    fold c in Hd. exists d. unfold tail_event. cbn [startDist endDist].
    now rewrite Hrem, Hd.
  - apply timeline_dist_ok.
Qed.

(** ** The bootstrap draw event *)

Lemma draws_delayed b d c t sd :
  schedule c <> [] -> draws (delayed b d c) t sd = draws c t sd.
Proof.
  intros Hne. unfold draws. cbn [delayed schedule currentPointIdx List.length].
  destruct (schedule c); [tauto|]. cbn. now rewrite !andb_false_r.
Qed.

Lemma step_delayed pd s b d c i :
  schedule c <> [] ->
  step pd s (delayed b d c) i = delayed b d (step pd s c i).
Proof.
  intros Hne. destruct i as [a | a]; cbn [step].
  - unfold draw_segment. rewrite (draws_delayed b d c _ _ Hne).
    change (segmentDist_of pd (delayed b d c) (pathIndex a))
      with (segmentDist_of pd c (pathIndex a)).
    destruct (draws c (pathIndex a) (segmentDist_of pd c (pathIndex a)));
      unfold wait_label, delayed, push, delay;
      cbn [schedule timeCursor distCursor currentPointIdx
           type startTime duration startDist endDist itemId app];
      rewrite ?map_app, ?Rplus_assoc; reflexivity.
  - unfold area_fade, delayed, push, delay;
      cbn [schedule timeCursor distCursor currentPointIdx
           type startTime duration startDist endDist itemId app];
      rewrite ?map_app, ?Rplus_assoc; reflexivity.
Qed.

Lemma step_nonempty pd s c i : schedule (step pd s c i) <> [].
Proof.
  intros E. pose proof (schedule_step_length pd s c i) as H.
  rewrite E in H. simpl in H. lia.
Qed.

Lemma run_delayed pd s b d l : forall c,
  schedule c <> [] ->
  run pd s l (delayed b d c) = delayed b d (run pd s l c).
Proof.
  unfold run. induction l as [|i l IH]; intros c Hne; simpl; [reflexivity|].
  rewrite (step_delayed pd s b d c i Hne). apply IH, step_nonempty.
Qed.

Lemma finish_delayed points pd s b d c :
  finish points pd s (delayed b d c) = delayed b d (finish points pd s c).
Proof.
  unfold finish.
  change (tail_guard points (delayed b d c)) with (tail_guard points c).
  change (remainingDist_of pd (delayed b d c)) with (remainingDist_of pd c).
  destruct (tail_guard points c); [|reflexivity].
  destruct (ngtb (remainingDist_of pd c) (1 / 10)); [|reflexivity].
  unfold delayed, push, delay;
    cbn [schedule timeCursor distCursor currentPointIdx
         type startTime duration startDist endDist itemId app];
    rewrite ?map_app, ?Rplus_assoc; reflexivity.
Qed.

Lemma first_step_bootstrap pd s a :
  pathIndex a = 0%Z ->
  step pd s cursor0 (IAnnotation a)
  = delayed (bootstrap_event (nullish (segmentDuration a) (defaultSegmentDuration s)))
            (nullish (segmentDuration a) (defaultSegmentDuration s))
            (wait_label s cursor0 a).
Proof.
  intros H0. cbn [step]. unfold draw_segment, draws, segmentDist_of.
  rewrite H0. cbn [cursor0 currentPointIdx schedule List.length Z.gtb Z.compare
                   Z.eqb Nat.eqb andb orb].
  rewrite orb_true_r.
  unfold wait_label, delayed, push, delay, bootstrap_event.
  cbn [schedule timeCursor distCursor currentPointIdx cursor0 nadd map
       type startTime duration startDist endDist itemId app].
  rewrite !Rplus_0_l, !Rplus_0_r. reflexivity.
Qed.

(** C1, as the code has it: when the first item scheduled is an annotation
    with [pathIndex = 0], the schedule starts with a draw event of distance
    zero (from 0 to 0) at time 0 whose duration [d] is the annotation's
    [segmentDuration] (or [defaults.segment]); every later event and
    [totalDuration] come [d] seconds later than in the timeline where that
    annotation pushes only its wait event, and are otherwise the same. *)
Theorem bootstrap_draw_event
    (points : list Point) (annotations : list Annotation) (areas : list Area)
    (s : AppSettings) (a : Annotation) (rest : list Item) :
  items annotations areas = IAnnotation a :: rest ->
  pathIndex a = 0%Z ->
  let pd := pathData points in
  let d := nullish (segmentDuration a) (defaultSegmentDuration s) in
  let without := result (finish points pd s (run pd s rest (wait_label s cursor0 a))) in
  tl_schedule (timeline points annotations areas s)
  = bootstrap_event d :: map (delay d) (tl_schedule without)
  /\ totalDuration (timeline points annotations areas s)
     = d + totalDuration without.
Proof.
  intros Hitems H0 pd d without.
  unfold timeline, after_items. rewrite Hitems. fold pd.
  change (run pd s (IAnnotation a :: rest) cursor0)
    with (run pd s rest (step pd s cursor0 (IAnnotation a))).
  rewrite (first_step_bootstrap pd s a H0). fold d.
  rewrite run_delayed, finish_delayed.
  - split; reflexivity.
  - unfold wait_label, push. cbn. discriminate.
Qed.

(** ** Evaluation on concrete inputs *)

Lemma ndiv_nonzero a b : b <> 0 -> ndiv a b = Some (a / b).
Proof. unfold ndiv. intros H. now destruct (Req_dec_T b 0). Qed.

Lemma truthy_id_some i : i <> EmptyString -> truthy_id (Some i) = Some i.
Proof. unfold truthy_id. intros H. now destruct (string_dec i EmptyString). Qed.

Lemma dist_along_x a b c : a <= b -> dist (pt a c) (pt b c) = b - a.
Proof.
  intros H. unfold dist, pt. cbn [x y].
  replace ((b - a) ^ 2 + (c - c) ^ 2) with ((b - a) ^ 2) by ring.
  apply sqrt_pow2. lra.
Qed.

Lemma dist_along_y a b c : a <= b -> dist (pt c a) (pt c b) = b - a.
Proof.
  intros H. unfold dist, pt. cbn [x y].
  replace ((c - c) ^ 2 + (b - a) ^ 2) with ((b - a) ^ 2) by ring.
  apply sqrt_pow2. lra.
Qed.

(** Decide the comparisons of reals in the goal. *)
Ltac Rdecide :=
  repeat match goal with
  | |- context [Rltb ?a ?b] =>
      first [ rewrite (proj2 (Rltb_true a b)) by lra
            | rewrite (proj2 (Rltb_false a b)) by lra ]
  | |- context [Rleb ?a ?b] =>
      first [ rewrite (proj2 (Rleb_true a b)) by lra
            | rewrite (proj2 (Rleb_false a b)) by lra ]
  end.

(** Equality of records, lists and options of reals, field by field. *)
Ltac Req :=
  try reflexivity;
  lazymatch goal with
  | |- @eq R _ _ => lra
  | |- _ => progress f_equal; Req
  end.

(** Compute [pathData] on a path along the axes. *)
Ltac run_metrics :=
  unfold pathData;
  cbn [pathData_loop totalLength segmentLengths pointDistances app];
  rewrite ?dist_along_x, ?dist_along_y by lra; Req.

(** Run the builder, given the metrics of the path. *)
Ltac run_builder Hpd :=
  unfold timeline, after_items, items, finish, tail_guard, remainingDist_of;
  rewrite ?Hpd;
  repeat (progress (unfold run, step, draw_segment, wait_label, area_fade, draws,
                      segmentDist_of, push, js_get;
                    simpl; Rdecide));
  unfold result, ev; simpl.

(** Run the resolver on an explicit schedule. *)
Ltac run_resolver :=
  unfold getAnimationState, effectiveTime_of, rest_state, distance_at,
    progress_of, active_id_if, id_if, is_active, is_passed, ev;
  repeat (simpl; Rdecide; rewrite ?ndiv_nonzero by lra;
          rewrite ?truthy_id_some by (assumption || discriminate)).

Lemma boundary_metrics :
  pathData boundary_points
  = {| totalLength := 20; segmentLengths := [10; 10];
       pointDistances := [0; 10; 20] |}.
Proof. unfold boundary_points. run_metrics. Qed.

Lemma short_path_metrics :
  pathData short_path
  = {| totalLength := 10; segmentLengths := [10]; pointDistances := [0; 10] |}.
Proof. unfold short_path. run_metrics. Qed.

Lemma tiny_path_metrics :
  pathData tiny_path
  = {| totalLength := 1 / 10; segmentLengths := [1 / 20; 1 / 20];
       pointDistances := [0; 1 / 20; 1 / 10] |}.
Proof. unfold tiny_path. run_metrics. Qed.

Lemma no_path_metrics :
  pathData []
  = {| totalLength := 0; segmentLengths := []; pointDistances := [0] |}.
Proof. reflexivity. Qed.

Lemma boundary_timeline i o s :
  defaultSegmentDuration s = 3 ->
  timeline boundary_points [boundary_annotation i o] [] s
  = {| tl_schedule := [ev Draw 0 2 0 10 None;
                       ev Wait 2 1 10 10 (Some i);
                       ev Draw 3 3 10 20 None];
       totalDuration := 6 |}.
Proof.
  intros Hs. unfold boundary_annotation. run_builder boundary_metrics.
  rewrite Hs. Req.
Qed.

(** C2: the boundary scenario.  Waypoints (0,0), (10,0), (10,10); one
    annotation at [pathIndex] 1 with [segmentDuration] 2 and [pauseDuration]
    1; [defaults.segment] 3; no flash.  The schedule is draw (start 0,
    duration 2, 0 to 10), wait (start 2, duration 1, at 10), draw (start 3,
    duration 3, 10 to 20), and [totalDuration] is 6; at time 1 the distance
    is 5 and no id is revealed; at 2.5 it is 10 and the annotation is
    revealed; at 5 it is 50/3. *)
Theorem boundary_scenario (i : string) (o : R) (s : AppSettings) :
  i <> EmptyString ->
  enableFlash s = false ->
  defaultSegmentDuration s = 3 ->
  let state := visualState boundary_points [boundary_annotation i o] [] s in
  timeline boundary_points [boundary_annotation i o] [] s
  = {| tl_schedule := [ev Draw 0 2 0 10 None;
                       ev Wait 2 1 10 10 (Some i);
                       ev Draw 3 3 10 20 None];
       totalDuration := 6 |}
  /\ state 1
     = {| currentDistance := Some 5; activeAnnotationIds := [];
          visibleAreaIds := []; isFlashing := false |}
  /\ state (5 / 2)
     = {| currentDistance := Some 10; activeAnnotationIds := [i];
          visibleAreaIds := []; isFlashing := false |}
  /\ currentDistance (state 5) = Some (50 / 3).
Proof.
  intros Hi Hf Hs state. split; [now apply boundary_timeline|].
  unfold state, visualState. rewrite (boundary_timeline i o s Hs).
  repeat split; run_resolver; rewrite Hf; run_resolver; Req.
Qed.

(** ** The properties on concrete inputs *)

(** The boundary scenario with the id [a]. *)
Lemma boundary_scenario_witness :
  "a"%string <> EmptyString
  /\ enableFlash boundary_settings = false
  /\ defaultSegmentDuration boundary_settings = 3
  /\ (let state := visualState boundary_points [boundary_annotation "a" 1] []
                     boundary_settings in
      timeline boundary_points [boundary_annotation "a" 1] [] boundary_settings
      = {| tl_schedule := [ev Draw 0 2 0 10 None;
                           ev Wait 2 1 10 10 (Some "a"%string);
                           ev Draw 3 3 10 20 None];
           totalDuration := 6 |}
      /\ state 1
         = {| currentDistance := Some 5; activeAnnotationIds := [];
              visibleAreaIds := []; isFlashing := false |}
      /\ state (5 / 2)
         = {| currentDistance := Some 10; activeAnnotationIds := ["a"%string];
              visibleAreaIds := []; isFlashing := false |}
      /\ currentDistance (state 5) = Some (50 / 3)).
Proof.
  assert (H : "a"%string <> EmptyString) by discriminate.
  repeat split; try exact H;
    apply (boundary_scenario "a" 1 boundary_settings H eq_refl eq_refl).
Defined.

(** C1 as stated fails: on a path of two waypoints with one annotation on
    the first, under the initial settings, the bootstrap draw event lasts 2
    seconds; the wait event starts at 2 instead of 0 and [totalDuration] is
    5.5 instead of 3.5. *)
Lemma bootstrap_event_takes_time :
  let a := plain_annotation "a" 0 1 in
  let tl := timeline short_path [a] [] initial_settings in
  let without :=
    result (finish short_path (pathData short_path) initial_settings
              (wait_label initial_settings cursor0 a)) in
  tl = {| tl_schedule := [ev Draw 0 2 0 0 None;
                          ev Wait 2 (3 / 2) 0 0 (Some "a"%string);
                          ev Draw (7 / 2) 2 0 10 None];
          totalDuration := 11 / 2 |}
  /\ without = {| tl_schedule := [ev Wait 0 (3 / 2) 0 0 (Some "a"%string);
                                  ev Draw (3 / 2) 2 0 10 None];
                  totalDuration := 7 / 2 |}
  /\ ~ (forall e, hd_error (tl_schedule tl) = Some e ->
                  duration e = 0 /\ totalDuration tl = totalDuration without).
Proof.
  intros a tl without.
  assert (Htl : tl = {| tl_schedule := [ev Draw 0 2 0 0 None;
                                        ev Wait 2 (3 / 2) 0 0 (Some "a"%string);
                                        ev Draw (7 / 2) 2 0 10 None];
                        totalDuration := 11 / 2 |}).
  { unfold tl, a, plain_annotation, initial_settings.
    run_builder short_path_metrics. Req. }
  split; [exact Htl|]. split.
  - unfold without, a, plain_annotation, initial_settings.
    run_builder short_path_metrics. Req.
  - rewrite Htl. intros H.
    destruct (H (ev Draw 0 2 0 0 None) eq_refl) as [Hd _].
    cbn in Hd. lra.
Qed.

Lemma bootstrap_draw_event_witness :
  let a := plain_annotation "a" 0 1 in
  items [a] [] = [IAnnotation a]
  /\ pathIndex a = 0%Z
  /\ (let pd := pathData short_path in
      let d := nullish (segmentDuration a) (defaultSegmentDuration initial_settings) in
      let without :=
        result (finish short_path pd initial_settings
                  (run pd initial_settings [] (wait_label initial_settings cursor0 a))) in
      tl_schedule (timeline short_path [a] [] initial_settings)
      = bootstrap_event d :: map (delay d) (tl_schedule without)
      /\ totalDuration (timeline short_path [a] [] initial_settings)
         = d + totalDuration without).
Proof.
  intros a. split; [reflexivity|]. split; [reflexivity|].
  exact (bootstrap_draw_event short_path [a] [] initial_settings a []
           eq_refl eq_refl).
Defined.

(** C3 as stated fails: on a path of three waypoints and of length 0.1, with
    annotations at [pathIndex] 2 then 0, the loop ends at waypoint 0 of 2 and
    no trailing draw event is pushed. *)
Lemma backward_pathIndex_without_tail :
  let a1 := plain_annotation "a" 2 1 in
  let a2 := plain_annotation "b" 0 2 in
  let tl := timeline tiny_path [a1; a2] [] initial_settings in
  let c := after_items tiny_path [a1; a2] [] initial_settings in
  tl = {| tl_schedule := [ev Draw 0 2 0 (1 / 10) None;
                          ev Wait 2 (3 / 2) (1 / 10) (1 / 10) (Some "a"%string);
                          ev Wait (7 / 2) (3 / 2) (1 / 10) (1 / 10) (Some "b"%string)];
          totalDuration := 5 |}
  /\ currentPointIdx c = 0%Z
  /\ totalLength (pathData tiny_path) = 1 / 10
  /\ tl_schedule tl = schedule c.
Proof.
  intros a1 a2 tl c.
  assert (Hc : c = {| schedule := [ev Draw 0 2 0 (1 / 10) None;
                          ev Wait 2 (3 / 2) (1 / 10) (1 / 10) (Some "a"%string);
                          ev Wait (7 / 2) (3 / 2) (1 / 10) (1 / 10) (Some "b"%string)];
                      timeCursor := 5; distCursor := Some (1 / 10);
                      currentPointIdx := 0 |}).
  { unfold c, a1, a2, plain_annotation, initial_settings.
    run_builder tiny_path_metrics. Req. }
  assert (Htl : tl = {| tl_schedule := [ev Draw 0 2 0 (1 / 10) None;
                          ev Wait 2 (3 / 2) (1 / 10) (1 / 10) (Some "a"%string);
                          ev Wait (7 / 2) (3 / 2) (1 / 10) (1 / 10) (Some "b"%string)];
                        totalDuration := 5 |}).
  { unfold tl, a1, a2, plain_annotation, initial_settings.
    run_builder tiny_path_metrics. Req. }
  rewrite Htl, Hc, tiny_path_metrics. repeat split.
Qed.

Lemma backward_pathIndex_witness :
  let a1 := plain_annotation "a" 2 1 in
  let a2 := plain_annotation "b" 0 2 in
  let points := boundary_points in
  let s := initial_settings in
  (3 <= List.length points)%nat
  /\ items [a1; a2] [] = [] ++ IAnnotation a1 :: [] ++ IAnnotation a2 :: []
  /\ Forall is_area ([] ++ [] ++ [])
  /\ pathIndex a1 = 2%Z /\ pathIndex a2 = 0%Z
  /\ (let pd := pathData points in
      let c2 := run pd s ([] ++ IAnnotation a1 :: []) cursor0 in
      let c := after_items points [a1; a2] [] s in
      step pd s c2 (IAnnotation a2) = wait_label s c2 a2
      /\ c = run pd s [] (wait_label s c2 a2)
      /\ currentPointIdx c = 0%Z
      /\ remainingDist_of pd c = Some (totalLength pd)
      /\ timeline points [a1; a2] [] s
         = (if Rltb (1 / 10) (totalLength pd)
            then {| tl_schedule := schedule c ++ [tail_event pd s c];
                    totalDuration := timeCursor c + defaultSegmentDuration s |}
            else result c)
      /\ (exists d, distCursor c = Some d
                    /\ startDist (tail_event pd s c) = Some d
                    /\ endDist (tail_event pd s c) = Some (d + totalLength pd))
      /\ (forall points' annotations' areas' s',
            Forall dist_ok (tl_schedule (timeline points' annotations' areas' s')))).
Proof.
  intros a1 a2 points s.
  assert (Hlen : (3 <= List.length points)%nat) by (simpl; lia).
  assert (Hitems : items [a1; a2] []
                   = [] ++ IAnnotation a1 :: [] ++ IAnnotation a2 :: [])
    by (apply items_two; cbn; lra).
  assert (Hareas : Forall is_area (@nil Item ++ [] ++ [])) by constructor.
  split; [exact Hlen|]. split; [exact Hitems|]. split; [exact Hareas|].
  split; [reflexivity|]. split; [reflexivity|].
  exact (backward_pathIndex points [a1; a2] [] s [] [] [] a1 a2
           Hlen Hitems Hareas eq_refl eq_refl).
Defined.

Lemma active_event_never_divides_by_zero_witness :
  let sch := [ev Draw 0 2 0 10 None; ev Wait 2 1 10 10 (Some "a"%string);
              ev Draw 3 3 10 20 None] in
  let e := ev Draw 3 3 10 20 None in
  find (is_active 5) sch = Some e
  /\ 0 < duration e
  /\ (exists p, progress_of 5 e = Some p /\ 0 <= p < 1)
  /\ (forall z, duration z = 0 ->
        is_active 5 z = false /\ is_passed 5 z = Rleb (startTime z) 5).
Proof.
  intros sch e.
  assert (H : find (is_active 5) sch = Some e).
  { unfold sch, e, is_active, ev. simpl. Rdecide. simpl. Rdecide. reflexivity. }
  split; [exact H|].
  exact (active_event_never_divides_by_zero sch 5 e H).
Defined.

(** C5 as stated fails: with no waypoint at all, a first annotation at
    [pathIndex] 0 is out of range and still pushes a draw event (the
    bootstrap one), lasting 2 seconds under the initial settings. *)
Lemma out_of_range_annotation_draws :
  let a := plain_annotation "a" 0 1 in
  out_of_range [] (pathIndex a)
  /\ timeline [] [a] [] initial_settings
     = {| tl_schedule := [ev Draw 0 2 0 0 None;
                          ev Wait 2 (3 / 2) 0 0 (Some "a"%string)];
          totalDuration := 7 / 2 |}
  /\ ~ (forall e, In e (tl_schedule (timeline [] [a] [] initial_settings)) ->
                  type e <> Draw).
Proof.
  intros a.
  assert (Htl : timeline [] [a] [] initial_settings
                = {| tl_schedule := [ev Draw 0 2 0 0 None;
                                     ev Wait 2 (3 / 2) 0 0 (Some "a"%string)];
                     totalDuration := 7 / 2 |}).
  { unfold a, plain_annotation, initial_settings.
    run_builder no_path_metrics. Req. }
  split; [right; simpl; lia|]. split; [exact Htl|].
  rewrite Htl. intros H.
  apply (H (ev Draw 0 2 0 0 None)); [left|]; reflexivity.
Qed.

Lemma out_of_range_annotation_witness :
  let a := plain_annotation "a" 5 1 in
  let points := short_path in
  let s := initial_settings in
  items [a] [] = [] ++ IAnnotation a :: []
  /\ out_of_range points (pathIndex a)
  /\ (let pd := pathData points in
      let c := run pd s [] cursor0 in
      (exists c', step pd s c (IAnnotation a) = wait_label s c' a
                  /\ distCursor c' = distCursor c
                  /\ (points <> [] \/ pathIndex a <> 0%Z \/ @nil Item <> [] -> c' = c))
      /\ after_items points [a] [] s
         = run pd s [] (step pd s c (IAnnotation a))
      /\ (durations_nonneg [a] [] s ->
          Forall event_nonneg (tl_schedule (timeline points [a] [] s)))).
Proof.
  intros a points s.
  assert (Hout : out_of_range points (pathIndex a)) by (right; simpl; lia).
  split; [reflexivity|]. split; [exact Hout|].
  exact (out_of_range_annotation points [a] [] s [] [] a eq_refl Hout).
Defined.

Lemma reveal_is_monotone_witness :
  let state := visualState boundary_points [boundary_annotation "a" 1] []
                 boundary_settings in
  5 / 2 < 5
  /\ (In "a"%string (activeAnnotationIds (state (5 / 2))) ->
      In "a"%string (activeAnnotationIds (state 5)))
  /\ (In "a"%string (visibleAreaIds (state (5 / 2))) ->
      In "a"%string (visibleAreaIds (state 5))).
Proof.
  intros state. assert (H : 5 / 2 < 5) by lra.
  split; [exact H|].
  exact (reveal_is_monotone boundary_points [boundary_annotation "a" 1] []
           boundary_settings (5 / 2) 5 "a" H).
Defined.

(** C7 as stated fails: an annotation that pauses for -3 seconds makes
    [totalDuration] -1; at time 1, past the end, the first draw event is
    still active and the distance is 5, not the length 10 of the path. *)
Lemma negative_pause_rewinds :
  let tl := timeline short_path [rewinding_annotation] [] initial_settings in
  let state := visualState short_path [rewinding_annotation] [] initial_settings in
  tl = {| tl_schedule := [ev Draw 0 2 0 10 None;
                          ev Wait 2 (-3) 10 10 (Some "a"%string)];
          totalDuration := -1 |}
  /\ totalDuration tl <= effectiveTime_of initial_settings 1
  /\ currentDistance (state 1) = Some 5
  /\ totalLength (pathData short_path) = 10
  /\ currentDistance (state 1) <> Some (totalLength (pathData short_path)).
Proof.
  intros tl state.
  assert (Htl : tl = {| tl_schedule := [ev Draw 0 2 0 10 None;
                                        ev Wait 2 (-3) 10 10 (Some "a"%string)];
                        totalDuration := -1 |}).
  { unfold tl, rewinding_annotation, initial_settings.
    run_builder short_path_metrics. Req. }
  assert (Hd : currentDistance (state 1) = Some 5).
  { unfold state, visualState. fold tl. rewrite Htl.
    unfold initial_settings. run_resolver. Req. }
  split; [exact Htl|]. rewrite Hd, Htl, short_path_metrics.
  repeat split.
  - cbn. lra.
  - intros [= H]. lra.
Qed.

Lemma distance_at_end_is_totalLength_witness :
  let anns := [boundary_annotation "a" 1] in
  durations_nonneg anns [] boundary_settings
  /\ totalDuration (timeline boundary_points anns [] boundary_settings)
     <= effectiveTime_of boundary_settings 6
  /\ currentDistance (visualState boundary_points anns [] boundary_settings 6)
     = Some (totalLength (pathData boundary_points)).
Proof.
  intros anns.
  assert (Hn : durations_nonneg anns [] boundary_settings).
  { unfold durations_nonneg, defaults_nonneg, anns.
    repeat split; try constructor; cbn; try constructor; lra. }
  assert (Ht : totalDuration (timeline boundary_points anns [] boundary_settings)
               <= effectiveTime_of boundary_settings 6).
  { unfold anns. rewrite (boundary_timeline "a" 1 boundary_settings eq_refl).
    cbn. lra. }
  split; [exact Hn|]. split; [exact Ht|].
  exact (distance_at_end_is_totalLength boundary_points anns [] boundary_settings
           6 Hn Ht).
Defined.

Lemma trailing_draw_event_witness :
  let anns := [boundary_annotation "a" 1] in
  let c := after_items boundary_points anns [] boundary_settings in
  let idx := reached (items anns []) 0 in
  let remaining :=
    totalLength (pathData boundary_points)
    - euclid_sum boundary_points (Z.to_nat idx) in
  ((0 <= idx < Z.of_nat (List.length boundary_points) - 1)%Z
   /\ 1 / 10 < remaining)
  /\ timeline boundary_points anns [] boundary_settings
     = {| tl_schedule :=
            schedule c ++ [ {| type := Draw;
                               startTime := timeCursor c;
                               duration := defaultSegmentDuration boundary_settings;
                               startDist := distCursor c;
                               endDist := nadd (distCursor c) (Some remaining);
                               itemId := None |} ];
          totalDuration := timeCursor c + defaultSegmentDuration boundary_settings |}
  /\ (2 <= List.length short_path)%nat
  /\ 1 / 10 < totalLength (pathData short_path)
  /\ timeline short_path [] [] initial_settings
     = {| tl_schedule := [ {| type := Draw;
                              startTime := 0;
                              duration := defaultSegmentDuration initial_settings;
                              startDist := Some 0;
                              endDist := Some (totalLength (pathData short_path));
                              itemId := None |} ];
          totalDuration := defaultSegmentDuration initial_settings |}.
Proof.
  intros anns c idx remaining.
  assert (Hidx : idx = 1%Z) by reflexivity.
  assert (Hem : (0 <= idx < Z.of_nat (List.length boundary_points) - 1)%Z
                /\ 1 / 10 < remaining).
  { split; [rewrite Hidx; simpl; lia|]. unfold remaining.
    rewrite Hidx, boundary_metrics. unfold boundary_points. simpl.
    rewrite dist_along_x by lra. lra. }
  assert (Hlen : (2 <= List.length short_path)%nat) by (simpl; lia).
  assert (Hgt : 1 / 10 < totalLength (pathData short_path))
    by (rewrite short_path_metrics; cbn; lra).
  split; [exact Hem|]. split.
  - exact (proj2 (proj1 (proj2 (proj2
             (trailing_draw_event boundary_points anns [] boundary_settings))))
             Hem).
  - split; [exact Hlen|]. split; [exact Hgt|].
    exact (proj2 (proj2 (proj2 (proj2
             (trailing_draw_event short_path [] [] initial_settings))))
             Hlen Hgt).
Defined.

Lemma flashDuration_noninterference_witness :
  let tl := {| tl_schedule := [ev Draw 0 2 0 10 None]; totalDuration := 2 |} in
  let pd := {| totalLength := 10; segmentLengths := [10];
               pointDistances := [0; 10] |} in
  enableFlash initial_settings = false
  /\ enableFlash boundary_settings = false
  /\ getAnimationState initial_settings tl pd 1
     = getAnimationState boundary_settings tl pd 1
  /\ isFlashing (getAnimationState initial_settings tl pd 1) = false.
Proof.
  intros tl pd. split; [reflexivity|]. split; [reflexivity|].
  exact (flashDuration_noninterference initial_settings boundary_settings
           tl pd 1 eq_refl eq_refl).
Defined.

Lemma metrics_cumulative_distances_witness :
  js_get (pointDistances (pathData boundary_points)) 2
  = Some (euclid_sum boundary_points 2).
Proof.
  exact (proj1 (proj2 (proj2 (metrics_cumulative_distances boundary_points)))
           2%nat (Nat.le_refl 3)).
Defined.

(** * Further properties of the engine *)

(** ** The schedule is contiguous *)

Lemma chained_sum t0 l t1 : chained t0 l t1 -> t1 = t0 + sum_durations l.
Proof.
  induction 1 as [t | e l t H IH]; simpl; [lra|]. rewrite IH. lra.
Qed.

Lemma chained_next t0 l t1 : chained t0 l t1 ->
  forall i e e', nth_error l i = Some e -> nth_error l (S i) = Some e' ->
  startTime e' = startTime e + duration e.
Proof.
  induction 1 as [t | e0 l t H IH]; intros i e e' He He'.
  - destruct i; discriminate.
  - destruct i as [|i]; simpl in He, He'.
    + injection He as <-. destruct l as [|e1 l]; [discriminate|].
      injection He' as <-. now apply chained_start in H.
    + now apply (IH i).
Qed.

(** X1: the first event of a schedule starts at 0, each event starts when
    the one before it ends, and [totalDuration] is the sum of the durations
    of the events. *)
Theorem schedule_is_contiguous
    (points : list Point) (annotations : list Annotation) (areas : list Area)
    (s : AppSettings) :
  let tl := timeline points annotations areas s in
  (forall e, nth_error (tl_schedule tl) 0 = Some e -> startTime e = 0)
  /\ (forall i e e',
        nth_error (tl_schedule tl) i = Some e ->
        nth_error (tl_schedule tl) (S i) = Some e' ->
        startTime e' = startTime e + duration e)
  /\ totalDuration tl = sum_durations (tl_schedule tl).
Proof.
  intros tl. pose proof (timeline_chained points annotations areas s) as H.
  fold tl in H. split; [|split].
  - intros e He. destruct (tl_schedule tl) as [|e0 l]; [discriminate|].
    injection He as <-. now apply chained_start in H.
  - now apply chained_next with (t0 := 0) (t1 := totalDuration tl).
  - rewrite (chained_sum _ _ _ H). lra.
Qed.

(** ** Where the events come from *)

Lemma items_in_items annotations areas :
  Forall (item_in annotations areas) (items annotations areas).
Proof.
  apply Forall_forall. intros i Hi.
  apply sort_items_In, in_app_iff in Hi. rewrite !in_map_iff in Hi.
  destruct Hi as [(a & <- & Hin) | (a & <- & Hin)]; exact Hin.
Qed.

Lemma step_provenance annotations areas pd s c i :
  item_in annotations areas i ->
  Forall (event_of_items annotations areas) (schedule c) ->
  Forall (event_of_items annotations areas) (schedule (step pd s c i)).
Proof.
  intros Hi Hall. destruct i as [a | a]; cbn in Hi |- *; unfold push.
  - apply Forall_app. split.
    + unfold draw_segment.
      destruct (draws c (pathIndex a) (segmentDist_of pd c (pathIndex a)));
        [|assumption].
      cbn [schedule]. unfold push. apply Forall_app. split; [assumption|].
      constructor; [reflexivity | constructor].
    + constructor; [|constructor]. unfold event_of_items. cbn. eauto.
  - apply Forall_app. split; [assumption|].
    constructor; [|constructor]. unfold event_of_items. cbn. eauto.
Qed.

Lemma run_provenance annotations areas pd s l :
  Forall (item_in annotations areas) l -> forall c,
  Forall (event_of_items annotations areas) (schedule c) ->
  Forall (event_of_items annotations areas) (schedule (run pd s l c)).
Proof.
  unfold run. induction 1 as [|i l Hi _ IH]; intros c Hc; simpl; [assumption|].
  now apply IH, step_provenance.
Qed.

Lemma timeline_provenance points annotations areas s :
  Forall (event_of_items annotations areas)
         (tl_schedule (timeline points annotations areas s)).
Proof.
  unfold timeline, result, after_items. cbn [tl_schedule].
  rewrite finish_emits.
  set (c := run (pathData points) s (items annotations areas) cursor0).
  assert (Hc : Forall (event_of_items annotations areas) (schedule c)).
  { apply run_provenance; [apply items_in_items | constructor]. }
  destruct (emits_tail points (pathData points) c); [|assumption].
  cbn [schedule]. apply Forall_app. split; [assumption|].
  constructor; [reflexivity | constructor].
Qed.

Lemma id_if_In ty e i :
  In i (id_if ty e) -> type e = ty /\ itemId e = Some i /\ i <> EmptyString.
Proof.
  unfold id_if, truthy_id. destruct (type_eqb (type e) ty) eqn:E; [|contradiction].
  assert (type e = ty) by (destruct (type e), ty; try discriminate; reflexivity).
  destruct (itemId e) as [j|]; [|contradiction].
  destruct (string_dec j EmptyString); [contradiction|].
  intros [<- | []]. auto.
Qed.

Lemma revealed_event ty sch t i :
  In i (revealed ty sch t) ->
  exists e, In e sch /\ type e = ty /\ itemId e = Some i /\ i <> EmptyString.
Proof.
  rewrite revealed_In. intros (e & Hi & He). exists e.
  split; [|now apply id_if_In].
  destruct He as [[He _] | He]; [assumption|]. now apply find_some in He.
Qed.

(** X2: the resolver reveals nothing of its own: an annotation id it
    reports is the (non-empty) id of one of the annotations, an area id it
    reports is the id of one of the areas, at every time. *)
Theorem revealed_ids_are_item_ids
    (points : list Point) (annotations : list Annotation) (areas : list Area)
    (s : AppSettings) (time : R) (i : string) :
  let state := visualState points annotations areas s time in
  (In i (activeAnnotationIds state) ->
     i <> EmptyString /\ exists a, In a annotations /\ ann_id a = i)
  /\ (In i (visibleAreaIds state) ->
      i <> EmptyString /\ exists a, In a areas /\ area_id a = i).
Proof.
  intros state. unfold state, visualState.
  pose proof (timeline_provenance points annotations areas s) as Hp.
  rewrite Forall_forall in Hp.
  destruct (getAnimationState_cases s (timeline points annotations areas s)
              (pathData points) time)
    as [(-> & _) | [(-> & _) | (-> & _)]];
    [split; intros [] | split; intros [] |].
  cbn [activeAnnotationIds visibleAreaIds]. split; intros Hi;
    apply revealed_event in Hi; destruct Hi as (e & He & Hty & Hid & Hne);
    specialize (Hp e He); unfold event_of_items in Hp; rewrite Hty in Hp;
    destruct Hp as (a & Ha & Hida); rewrite Hid in Hida;
    injection Hida as ->; eauto.
Qed.

(** ** How many events *)

Lemma count_type_app ty l1 l2 :
  count_type ty (l1 ++ l2) = (count_type ty l1 + count_type ty l2)%nat.
Proof. unfold count_type. now rewrite filter_app, length_app. Qed.

Lemma insert_item_annotations i l :
  List.length (filter is_annotationb (insert_item i l))
  = List.length (filter is_annotationb (i :: l)).
Proof.
  induction l as [|j l IH]; [reflexivity|]. cbn [insert_item].
  destruct (Rltb (item_order j) (item_order i)); [|reflexivity].
  cbn [filter] in *. destruct (is_annotationb j), (is_annotationb i);
    cbn [List.length] in *; lia.
Qed.

Lemma sort_items_annotations l :
  List.length (filter is_annotationb (sort_items l))
  = List.length (filter is_annotationb l).
Proof.
  induction l as [|i l IH]; [reflexivity|]. cbn [sort_items].
  rewrite insert_item_annotations. cbn [filter].
  destruct (is_annotationb i); cbn [List.length]; lia.
Qed.

Lemma insert_item_length i l :
  List.length (insert_item i l) = S (List.length l).
Proof.
  induction l as [|j l IH]; [reflexivity|]. cbn [insert_item].
  destruct (Rltb (item_order j) (item_order i)); cbn [List.length]; lia.
Qed.

Lemma sort_items_length l : List.length (sort_items l) = List.length l.
Proof.
  induction l as [|i l IH]; [reflexivity|]. cbn [sort_items].
  rewrite insert_item_length. cbn [List.length]. lia.
Qed.

Lemma items_counts annotations areas :
  List.length (filter is_annotationb (items annotations areas))
  = List.length annotations
  /\ List.length (items annotations areas)
     = (List.length annotations + List.length areas)%nat.
Proof.
  unfold items. rewrite sort_items_annotations, sort_items_length.
  rewrite filter_app, !length_app, !length_map. split; [|reflexivity].
  assert (Ha : filter is_annotationb (map IAnnotation annotations)
               = map IAnnotation annotations).
  { induction annotations as [|a l IH]; [reflexivity|]. cbn. now rewrite IH. }
  assert (Hb : filter is_annotationb (map IArea areas) = []).
  { induction areas as [|a l IH]; [reflexivity|]. cbn. exact IH. }
  rewrite Ha, Hb, length_map. cbn. lia.
Qed.

Lemma step_counts pd s c i :
  let n := if is_annotationb i then 1%nat else 0%nat in
  count_type Wait (schedule (step pd s c i)) = (count_type Wait (schedule c) + n)%nat
  /\ count_type AreaEv (schedule (step pd s c i))
     = (count_type AreaEv (schedule c) + (1 - n))%nat
  /\ (count_type Draw (schedule c) <= count_type Draw (schedule (step pd s c i))
      <= count_type Draw (schedule c) + n)%nat.
Proof.
  destruct i as [a | a]; cbn [step is_annotationb wait_label area_fade schedule];
    unfold push; rewrite !count_type_app.
  - unfold draw_segment.
    destruct (draws c (pathIndex a) (segmentDist_of pd c (pathIndex a)));
      cbn [schedule]; unfold push; rewrite ?count_type_app; cbn; lia.
  - cbn. lia.
Qed.

Lemma run_counts pd s l : forall c,
  let n := List.length (filter is_annotationb l) in
  count_type Wait (schedule (run pd s l c)) = (count_type Wait (schedule c) + n)%nat
  /\ count_type AreaEv (schedule (run pd s l c))
     = (count_type AreaEv (schedule c) + (List.length l - n))%nat
  /\ (count_type Draw (schedule (run pd s l c))
      <= count_type Draw (schedule c) + n)%nat.
Proof.
  unfold run. induction l as [|i l IH]; intros c; cbn zeta.
  - cbn. lia.
  - cbn [fold_left filter].
    destruct (IH (step pd s c i)) as (Hw & Ha & Hd).
    destruct (step_counts pd s c i) as (Hw1 & Ha1 & Hd1).
    pose proof (filter_length_le is_annotationb l) as Hle.
    rewrite Hw, Ha, Hw1, Ha1.
    destruct (is_annotationb i); cbn [List.length] in *; lia.
Qed.

(** X3: a schedule holds exactly one wait event per annotation and one
    area event per area, and at most one draw event per annotation plus the
    trailing one. *)
Theorem schedule_event_counts
    (points : list Point) (annotations : list Annotation) (areas : list Area)
    (s : AppSettings) :
  let sch := tl_schedule (timeline points annotations areas s) in
  count_type Wait sch = List.length annotations
  /\ count_type AreaEv sch = List.length areas
  /\ (count_type Draw sch <= List.length annotations + 1)%nat.
Proof.
  intros sch. unfold sch, timeline, result, after_items. cbn [tl_schedule].
  rewrite finish_emits.
  destruct (run_counts (pathData points) s (items annotations areas) cursor0)
    as (Hw & Ha & Hd).
  destruct (items_counts annotations areas) as (Hn & Hlen).
  rewrite Hn, Hlen in *. cbn in Hw, Ha, Hd.
  destruct (emits_tail points (pathData points) _);
    cbn [schedule]; rewrite ?count_type_app; cbn; lia.
Qed.

(** ** Every item gets its event *)

Lemma step_keeps pd s c i e :
  In e (schedule c) -> In e (schedule (step pd s c i)).
Proof.
  intros He. destruct i as [a | a]; cbn; unfold push; apply in_or_app; left;
    [|assumption].
  unfold draw_segment.
  destruct (draws c (pathIndex a) (segmentDist_of pd c (pathIndex a)));
    [|assumption].
  cbn. unfold push. apply in_or_app. now left.
Qed.

Lemma run_keeps pd s l : forall c e,
  In e (schedule c) -> In e (schedule (run pd s l c)).
Proof.
  unfold run. induction l as [|i l IH]; intros c e He; simpl; [assumption|].
  now apply IH, step_keeps.
Qed.

Lemma finish_keeps points pd s c e :
  In e (schedule c) -> In e (schedule (finish points pd s c)).
Proof.
  intros He. rewrite finish_emits. destruct (emits_tail points pd c); [|assumption].
  cbn. apply in_or_app. now left.
Qed.

Lemma step_reveals pd s c i :
  exists e, In e (schedule (step pd s c i)) /\ reveals i e.
Proof.
  destruct i as [a | a]; cbn; unfold push; eexists;
    (split; [apply in_or_app; right; left; reflexivity | now split]).
Qed.

Lemma run_reveals pd s l i : In i l -> forall c,
  exists e, In e (schedule (run pd s l c)) /\ reveals i e.
Proof.
  unfold run. induction l as [|j l IH]; intros Hi c; [contradiction|].
  cbn [fold_left]. destruct Hi as [-> | Hi]; [|now apply IH].
  destruct (step_reveals pd s c i) as (e & He & Hr). exists e.
  split; [|assumption]. now apply (run_keeps pd s l).
Qed.

Lemma timeline_reveals points annotations areas s i :
  In i (map IAnnotation annotations ++ map IArea areas) ->
  exists e, In e (tl_schedule (timeline points annotations areas s))
            /\ reveals i e.
Proof.
  intros Hi. apply sort_items_In in Hi.
  destruct (run_reveals (pathData points) s (items annotations areas) i Hi cursor0)
    as (e & He & Hr).
  exists e. split; [|assumption].
  unfold timeline, result, after_items. cbn [tl_schedule]. now apply finish_keeps.
Qed.

Lemma passed_is_revealed ty sch t e i :
  In e sch -> is_passed t e = true -> type e = ty -> itemId e = Some i ->
  i <> EmptyString -> In i (revealed ty sch t).
Proof.
  intros He Hp Hty Hid Hne. apply revealed_In. exists e. split; [|now left].
  unfold id_if. rewrite Hty, Hid, (truthy_id_some i Hne).
  destruct ty; now left.
Qed.

(** ** The animation loop *)

Lemma effectiveTime_no_flash s t :
  enableFlash s = false -> effectiveTime_of s t = t.
Proof. unfold effectiveTime_of. now intros ->. Qed.

Lemma totalTime_no_flash s tl :
  enableFlash s = false -> totalTime s tl = totalDuration tl.
Proof. unfold totalTime, flashOffset. intros ->. apply Rplus_0_r. Qed.

Lemma distance_at_end points annotations areas s time :
  durations_nonneg annotations areas s ->
  totalDuration (timeline points annotations areas s) <= effectiveTime_of s time ->
  currentDistance (visualState points annotations areas s time)
  = Some (totalLength (pathData points)).
Proof.
  intros Hn Ht. destruct (timeline_bounds points _ _ _ Hn) as [H0 Hall].
  unfold visualState.
  destruct (getAnimationState_cases s (timeline points annotations areas s)
              (pathData points) time)
    as [(_ & Hf & Hlt) | [(_ & Hneg) | (-> & _)]].
  - unfold effectiveTime_of in Ht. rewrite Hf in Ht. lra.
  - lra.
  - cbn [currentDistance]. rewrite no_active_after_end.
    + unfold distance_at. now rewrite (proj2 (Rleb_true _ _) Ht).
    + eapply Forall_impl; [|exact Hall]. cbn beta. tauto.
    + assumption.
Qed.

(** X4: the animation loop never lets the time pass [totalTime], and the
    frame on which it stops playing leaves the time at [totalTime].  With
    the flash disabled that time is [totalDuration] and, when no duration is
    negative, the state shown there is the finished one: the distance is
    [totalLength], no flash, and every annotation and every area with a
    non-empty id is revealed. *)
Theorem playback_stops_on_finished_state
    (points : list Point) (annotations : list Annotation) (areas : list Area)
    (s : AppSettings) (prev dt : R) :
  durations_nonneg annotations areas s ->
  let tl := timeline points annotations areas s in
  let state := visualState points annotations areas s (fst (tick s tl prev dt)) in
  fst (tick s tl prev dt) <= totalTime s tl
  /\ (snd (tick s tl prev dt) = false ->
      fst (tick s tl prev dt) = totalTime s tl
      /\ (enableFlash s = false ->
          fst (tick s tl prev dt) = totalDuration tl
          /\ currentDistance state = Some (totalLength (pathData points))
          /\ isFlashing state = false
          /\ (forall a, In a annotations -> ann_id a <> EmptyString ->
                        In (ann_id a) (activeAnnotationIds state))
          /\ (forall a, In a areas -> area_id a <> EmptyString ->
                        In (area_id a) (visibleAreaIds state)))).
Proof.
  intros Hn tl state. unfold state. unfold tick.
  destruct (Rleb (totalTime s tl) (prev + dt)) eqn:E; cbn [fst snd].
  2:{ apply Rleb_false in E. split; [lra | discriminate]. }
  split; [lra|]. intros _. split; [reflexivity|]. intros Hoff.
  rewrite (totalTime_no_flash s tl Hoff). split; [reflexivity|].
  destruct (timeline_bounds points _ _ _ Hn) as [H0 Hall]. fold tl in H0, Hall.
  assert (Heff : effectiveTime_of s (totalDuration tl) = totalDuration tl)
    by now apply effectiveTime_no_flash.
  assert (Hend : totalDuration tl <= effectiveTime_of s (totalDuration tl))
    by (rewrite Heff; lra).
  split; [now apply distance_at_end|].
  unfold visualState. fold tl.
  destruct (getAnimationState_cases s tl (pathData points) (totalDuration tl))
    as [(_ & Hf & _) | [(_ & Hneg) | (-> & _)]].
  - congruence.
  - rewrite Heff in Hneg. lra.
  - cbn [isFlashing activeAnnotationIds visibleAreaIds].
    rewrite Heff. split; [reflexivity|].
    rewrite Forall_forall in Hall.
    split; intros a Ha Hne.
    + destruct (timeline_reveals points annotations areas s (IAnnotation a))
        as (e & He & Hty & Hid).
      { apply in_or_app. left. now apply in_map. }
      fold tl in He. apply (passed_is_revealed Wait _ _ e); try assumption.
      apply is_passed_spec. now apply Hall.
    + destruct (timeline_reveals points annotations areas s (IArea a))
        as (e & He & Hty & Hid).
      { apply in_or_app. right. now apply in_map. }
      fold tl in He. apply (passed_is_revealed AreaEv _ _ e); try assumption.
      apply is_passed_spec. now apply Hall.
Qed.

(** ** The distance shown *)

Lemma totalLength_nonneg points : 0 <= totalLength (pathData points).
Proof. rewrite totalLength_eq. apply euclid_sum_nonneg. Qed.

Lemma active_distance tl pd t e a b :
  is_active t e = true ->
  startDist e = Some a -> endDist e = Some b -> a <= b ->
  exists d, distance_at tl pd t (Some e) = Some d /\ a <= d <= b.
Proof.
  intros Hact Ha Hb Hab. unfold distance_at.
  destruct (progress_of_active _ _ Hact) as (p & Hp & Hp0 & Hp1).
  rewrite Ha, Hb, Hp. destruct (type e); cbn [nadd nsub nmul].
  - eexists. split; [reflexivity|]. nra.
  - exists a. split; [reflexivity | lra].
  - exists a. split; [reflexivity | lra].
Qed.

Lemma visualState_distance_nonneg points annotations areas s time :
  exists d, currentDistance (visualState points annotations areas s time) = Some d
            /\ 0 <= d.
Proof.
  unfold visualState.
  destruct (getAnimationState_cases s (timeline points annotations areas s)
              (pathData points) time)
    as [(-> & _) | [(-> & _) | (-> & _)]];
    [exists 0; split; [reflexivity | lra] .. |].
  cbn [currentDistance].
  destruct (find _ _) as [e|] eqn:E.
  - apply find_some in E. destruct E as [Hin Hact].
    pose proof (timeline_dist_ok points annotations areas s) as Hok.
    rewrite Forall_forall in Hok.
    destruct (Hok e Hin) as (a & b & Ha & Hb & Hab).
    destruct (active_distance (timeline points annotations areas s)
                (pathData points) _ e a b Hact Ha Hb) as (d & Hd & Hr); [lra|].
    exists d. split; [assumption | lra].
  - unfold distance_at. destruct (Rleb _ _).
    + eexists. split; [reflexivity | apply totalLength_nonneg].
    + exists 0. split; [reflexivity | lra].
Qed.

(** X5: the dash offset the canvas draws the path with is a finite number
    between 0 and the length of the path, at every time; it is 0 (the whole
    path shown) once the effective time has reached [totalDuration], when no
    duration is negative. *)
Theorem strokeDashoffset_in_range
    (points : list Point) (annotations : list Annotation) (areas : list Area)
    (s : AppSettings) (time : R) :
  let totalPathLength := totalLength (pathData points) in
  let state := visualState points annotations areas s time in
  exists o, strokeDashoffset totalPathLength (currentDistance state) = Some o
            /\ 0 <= o <= totalPathLength
            /\ (durations_nonneg annotations areas s ->
                totalDuration (timeline points annotations areas s)
                <= effectiveTime_of s time ->
                o = 0).
Proof.
  intros L state. unfold state.
  destruct (visualState_distance_nonneg points annotations areas s time)
    as (d & Hd & Hd0).
  pose proof (totalLength_nonneg points) as HL. fold L in HL.
  unfold strokeDashoffset. rewrite Hd. cbn [nsub].
  exists (Rmax 0 (L - d)). split; [reflexivity|]. split.
  - split; [apply Rmax_l|]. apply Rmax_lub; lra.
  - intros Hn Ht. rewrite (distance_at_end _ _ _ _ _ Hn Ht) in Hd.
    injection Hd as <-. fold L. rewrite Rminus_diag. apply Rmax_left. lra.
Qed.

(** ** The path is never undrawn *)

Lemma FOP_snoc {A : Type} (R : A -> A -> Prop) l x :
  ForallOrdPairs R l -> Forall (fun y => R y x) l ->
  ForallOrdPairs R (l ++ [x]).
Proof.
  induction 1 as [|a l Ha Hl IH]; intros Hx; simpl.
  - repeat constructor.
  - inversion Hx as [|? ? Hax Hlx]; subst. constructor.
    + apply Forall_app. split; [assumption | now constructor].
    + now apply IH.
Qed.

Lemma dist_sorted_push c D D' D'' ty t d i :
  dist_sorted c -> distCursor c = Some D -> D <= D' -> D' <= D'' ->
  dist_sorted
    {| schedule := push c {| type := ty; startTime := t; duration := d;
                             startDist := Some D; endDist := Some D';
                             itemId := i |};
       timeCursor := t + d;
       distCursor := Some D'';
       currentPointIdx := currentPointIdx c |}.
Proof.
  intros (Hs & D0 & HD0 & Hall) HD H1 H2. rewrite HD0 in HD. injection HD as ->.
  unfold dist_sorted, push. cbn [schedule distCursor]. split.
  - apply FOP_snoc; [assumption|].
    eapply Forall_impl; [|exact Hall]. cbn beta. intros e (b & Hb & Hle).
    exists b, D. cbn. auto.
  - exists D''. split; [reflexivity|]. apply Forall_app. split.
    + eapply Forall_impl; [|exact Hall]. cbn beta. intros e (b & Hb & Hle).
      exists b. split; [assumption | lra].
    + constructor; [|constructor]. exists D'. cbn. auto.
Qed.

Lemma step_dist_sorted pd s c i :
  cursor_ok c -> dist_sorted c -> dist_sorted (step pd s c i).
Proof.
  intros Hok Hs. destruct i as [a | a]; cbn [step].
  - assert (Hok1 : cursor_ok (draw_segment pd s c a)) by now apply draw_segment_ok.
    assert (Hs1 : dist_sorted (draw_segment pd s c a)).
    { unfold draw_segment.
      destruct (draws c (pathIndex a) (segmentDist_of pd c (pathIndex a))) eqn:E;
        [|assumption].
      destruct (draws_finite _ _ _ E) as (g & Hg & Hg0).
      destruct Hok as (_ & (D & HD & _) & _). rewrite Hg, HD. cbn [nadd].
      apply (dist_sorted_push c D (D + g) (D + g)); try assumption; lra. }
    destruct Hok1 as (_ & (D & HD & _) & _). unfold wait_label. rewrite HD.
    apply (dist_sorted_push _ D D D); try assumption; lra.
  - destruct Hok as (_ & (D & HD & _) & _). unfold area_fade.
    rewrite HD. apply (dist_sorted_push c D D D); try assumption; lra.
Qed.

Lemma run_dist_sorted pd s l : forall c,
  cursor_ok c -> dist_sorted c -> dist_sorted (run pd s l c).
Proof.
  unfold run. induction l as [|i l IH]; intros c Hok Hs; simpl; [assumption|].
  apply IH; [now apply step_ok | now apply step_dist_sorted].
Qed.

Lemma timeline_dist_sorted points annotations areas s :
  ForallOrdPairs before (tl_schedule (timeline points annotations areas s)).
Proof.
  unfold timeline, result, after_items. cbn [tl_schedule].
  set (c := run (pathData points) s (items annotations areas) cursor0).
  assert (Hok : cursor_ok c) by apply run_ok, cursor0_ok.
  assert (Hs : dist_sorted c).
  { apply run_dist_sorted; [apply cursor0_ok|].
    split; [constructor|]. exists 0. split; [reflexivity | constructor]. }
  rewrite finish_emits. destruct (emits_tail _ _ c); [|apply Hs].
  cbn [schedule]. destruct Hs as (Hs & D & HD & Hall).
  apply FOP_snoc; [assumption|].
  eapply Forall_impl; [|exact Hall]. cbn beta. intros e (b & Hb & Hle).
  exists b, D. unfold tail_event. cbn. auto.
Qed.

Lemma active_exists t0 l t1 t :
  chained t0 l t1 -> Forall (fun e => 0 <= duration e) l ->
  t0 <= t < t1 -> exists e, find (is_active t) l = Some e.
Proof.
  induction 1 as [t' | e l t' H IH]; intros Hd Ht; [lra|].
  cbn [find]. destruct (is_active t e) eqn:E; [eauto|].
  inversion Hd as [|? ? He Hl]; subst. apply IH; [assumption|].
  split; [|lra].
  destruct (Rle_dec (startTime e + duration e) t) as [|Hn]; [assumption|].
  assert (is_active t e = true) by (apply is_active_spec; lra). congruence.
Qed.

Lemma progress_monotone t1 t2 e p1 p2 :
  is_active t1 e = true -> t1 <= t2 ->
  progress_of t1 e = Some p1 -> progress_of t2 e = Some p2 -> p1 <= p2.
Proof.
  intros Hact H12. pose proof (is_active_positive _ _ Hact) as Hd.
  unfold progress_of. rewrite !ndiv_nonzero by lra.
  intros [= <-] [= <-]. unfold Rdiv.
  apply Rmult_le_compat_r; [|lra]. left. now apply Rinv_0_lt_compat.
Qed.

Lemma same_event_monotone tl pd t1 t2 e :
  dist_ok e -> is_active t1 e = true -> is_active t2 e = true -> t1 <= t2 ->
  exists d1 d2, distance_at tl pd t1 (Some e) = Some d1
                /\ distance_at tl pd t2 (Some e) = Some d2 /\ d1 <= d2.
Proof.
  intros (a & b & Ha & Hb & Hab) H1 H2 H12. unfold distance_at.
  destruct (progress_of_active _ _ H1) as (p1 & Hp1 & Hp10 & _).
  destruct (progress_of_active _ _ H2) as (p2 & Hp2 & _).
  pose proof (progress_monotone _ _ _ _ _ H1 H12 Hp1 Hp2) as Hp.
  rewrite Ha, Hb, Hp1, Hp2. destruct (type e); cbn [nadd nsub nmul];
    do 2 eexists; (split; [reflexivity|]); (split; [reflexivity|]); nra.
Qed.

Lemma distance_monotone_list tl pd t0 l t1' t1 t2 e1 e2 :
  chained t0 l t1' -> ForallOrdPairs before l -> Forall dist_ok l ->
  t0 <= t1 -> t1 <= t2 ->
  find (is_active t1) l = Some e1 -> find (is_active t2) l = Some e2 ->
  exists d1 d2, distance_at tl pd t1 (Some e1) = Some d1
                /\ distance_at tl pd t2 (Some e2) = Some d2 /\ d1 <= d2.
Proof.
  intros H. revert e1 e2.
  induction H as [t | e0 l t H IH]; intros e1 e2 Hs Hok H0 H12 Hf1 Hf2;
    [discriminate|].
  inversion Hs as [|? ? Hb0 Hsl]; subst.
  inversion Hok as [|? ? Hok0 Hokl]; subst.
  cbn [find] in Hf1, Hf2. destruct (is_active t1 e0) eqn:E1.
  - injection Hf1 as <-. destruct (is_active t2 e0) eqn:E2.
    + injection Hf2 as <-. now apply same_event_monotone.
    + apply find_some in Hf2. destruct Hf2 as [Hin2 Hact2].
      rewrite Forall_forall in Hb0, Hokl.
      destruct (Hb0 e2 Hin2) as (b & a' & Hb & Ha' & Hle).
      destruct Hok0 as (a0 & b0 & Ha0 & Hb0' & Hab0).
      rewrite Hb0' in Hb. injection Hb as ->.
      destruct (Hokl e2 Hin2) as (a2 & b2 & Ha2 & Hb2 & Hab2).
      rewrite Ha2 in Ha'. injection Ha' as ->.
      destruct (active_distance tl pd t1 e0 a0 b E1 Ha0 Hb0') as (d1 & Hd1 & Hr1);
        [lra|].
      destruct (active_distance tl pd t2 e2 a' b2 Hact2 Ha2 Hb2) as (d2 & Hd2 & Hr2);
        [lra|].
      exists d1, d2. repeat split; try assumption. lra.
  - assert (Hend : startTime e0 + duration e0 <= t1).
    { destruct (Rle_dec (startTime e0 + duration e0) t1) as [|Hn]; [assumption|].
      assert (is_active t1 e0 = true) by (apply is_active_spec; lra).
      congruence. }
    assert (E2 : is_active t2 e0 = false).
    { destruct (is_active t2 e0) eqn:E; [|reflexivity].
      apply is_active_spec in E. lra. }
    rewrite E2 in Hf2. now apply IH.
Qed.

(** X6: the path is never undrawn while the timeline runs: when no
    duration is negative, the distance shown at a time is at least the
    distance shown at any earlier time, as long as the effective time has not
    reached [totalDuration]. *)
Theorem distance_never_decreases
    (points : list Point) (annotations : list Annotation) (areas : list Area)
    (s : AppSettings) (t1 t2 : R) :
  durations_nonneg annotations areas s ->
  t1 <= t2 ->
  effectiveTime_of s t2 < totalDuration (timeline points annotations areas s) ->
  exists d1 d2,
    currentDistance (visualState points annotations areas s t1) = Some d1
    /\ currentDistance (visualState points annotations areas s t2) = Some d2
    /\ d1 <= d2.
Proof.
  intros Hn H12 Hend.
  destruct (visualState_distance_nonneg points annotations areas s t2)
    as (d2 & Hd2 & Hd20).
  set (tl := timeline points annotations areas s) in *.
  assert (He : effectiveTime_of s t1 <= effectiveTime_of s t2)
    by (unfold effectiveTime_of; destruct (enableFlash s); lra).
  unfold visualState in *. fold tl in Hd2 |- *.
  destruct (getAnimationState_cases s tl (pathData points) t1)
    as [(-> & _) | [(-> & _) | (-> & H0 & Hf1)]];
    [exists 0, d2; cbn; repeat split; assumption .. |].
  destruct (getAnimationState_cases s tl (pathData points) t2)
    as [(_ & Hf & Hlt) | [(_ & Hneg) | (-> & _)]].
  - specialize (Hf1 Hf). lra.
  - lra.
  - cbn [currentDistance].
    pose proof (timeline_chained points annotations areas s) as Hch.
    pose proof (timeline_durations points _ _ _ Hn) as Hdur.
    fold tl in Hch, Hdur.
    destruct (active_exists 0 _ _ (effectiveTime_of s t1) Hch Hdur) as (e1 & Hf1');
      [lra|].
    destruct (active_exists 0 _ _ (effectiveTime_of s t2) Hch Hdur) as (e2 & Hf2');
      [lra|].
    rewrite Hf1', Hf2'.
    apply (distance_monotone_list tl (pathData points) 0 (tl_schedule tl)
             (totalDuration tl)); try assumption.
    + apply timeline_dist_sorted.
    + apply timeline_dist_ok.
Qed.

(** ** Keyboard navigation *)

Lemma effectiveTime_offset s t : effectiveTime_of s t = t - flashOffset s.
Proof. unfold effectiveTime_of, flashOffset. destruct (enableFlash s); lra. Qed.

Lemma js_get_In {A : Type} (l : list A) (i : Z) (a : A) :
  js_get l i = Some a -> In a l.
Proof.
  unfold js_get. destruct (i <? 0)%Z; [discriminate|]. apply nth_error_In.
Qed.


(** X8: [ArrowLeft], pressed at a time that is not negative, never moves
    the time forward: it lands on 0 or strictly earlier than the current
    time; in the second case, with the flash disabled, the time it lands on
    is the start of an event of the schedule. *)
Theorem arrowLeft_moves_back
    (s : AppSettings) (tl : Timeline) (currentTime : R) :
  0 <= currentTime ->
  let r := arrowLeft s tl currentTime in
  r <= currentTime
  /\ (r = 0
      \/ (r < currentTime
          /\ (enableFlash s = false ->
              exists ev, In ev (tl_schedule tl)
                         /\ r = startTime ev
                         /\ effectiveTime_of s r = startTime ev))).
Proof.
  intros H0 r. unfold r, arrowLeft.
  set (eff := effectiveTime_of s currentTime).
  assert (Heff : eff = currentTime - flashOffset s) by apply effectiveTime_offset.
  assert (Hland : forall ev, In ev (tl_schedule tl) -> startTime ev < eff ->
            startTime ev + flashOffset s <= currentTime
            /\ (startTime ev + flashOffset s = 0
                \/ (startTime ev + flashOffset s < currentTime
                    /\ (enableFlash s = false ->
                        exists ev', In ev' (tl_schedule tl)
                          /\ startTime ev + flashOffset s = startTime ev'
                          /\ effectiveTime_of s (startTime ev + flashOffset s)
                             = startTime ev')))).
  { intros ev Hin Hlt. split; [lra|]. right. split; [lra|].
    intros Hoff. exists ev. split; [assumption|].
    rewrite (effectiveTime_no_flash s _ Hoff).
    unfold flashOffset. rewrite Hoff. split; apply Rplus_0_r. }
  destruct (find (is_active eff) (tl_schedule tl)) as [ce|] eqn:E.
  - apply find_some in E. destruct E as [Hin Hact].
    destruct (Rltb (1 / 2) (eff - startTime ce)) eqn:E2.
    + apply Rltb_true in E2. apply Hland; [assumption | lra].
    + destruct (js_get _ _) as [prev|] eqn:Ep; [|split; [lra | now left]].
      apply js_get_In, filter_In in Ep. destruct Ep as [Hp Hlt].
      apply Rltb_true in Hlt. apply Hland; [assumption | lra].
  - destruct (js_get _ _) as [prev|] eqn:Ep; [|split; [lra | now left]].
    apply js_get_In, filter_In in Ep. destruct Ep as [Hp Hlt].
    apply Rltb_true in Hlt. apply Hland; [assumption | lra].
Qed.

(** * Editing the path *)

Lemma with_pathIndex_same a : with_pathIndex a (pathIndex a) = a.
Proof. now destruct a. Qed.

Lemma with_pathIndex_twice a i j :
  with_pathIndex (with_pathIndex a i) j = with_pathIndex a j.
Proof. reflexivity. Qed.

Lemma js_splice_insert_in_range {A : Type} (arr : list A) (index : Z) (x : A) :
  (0 <= index <= Z.of_nat (List.length arr))%Z ->
  js_splice_insert arr index x
  = firstn (Z.to_nat index) arr ++ x :: skipn (Z.to_nat index) arr.
Proof.
  intros H. unfold js_splice_insert.
  destruct (Z.ltb_spec index 0); [lia|]. now rewrite Z.min_l by lia.
Qed.

Lemma nth_error_inserted {A : Type} (l : list A) (n : nat) (x : A) (k : nat) :
  (n <= List.length l)%nat ->
  nth_error (firstn n l ++ x :: skipn n l) (if (n <=? k)%nat then S k else k)
  = nth_error l k.
Proof.
  intros Hn. assert (Hlen : List.length (firstn n l) = n)
    by (rewrite length_firstn; lia).
  destruct (Nat.leb_spec n k).
  - rewrite nth_error_app2 by lia. rewrite Hlen.
    replace (S k - n)%nat with (S (k - n)) by lia. cbn [nth_error].
    rewrite nth_error_skipn. f_equal. lia.
  - rewrite nth_error_app1 by lia. rewrite nth_error_firstn.
    destruct (Nat.ltb_spec k n); [reflexivity | lia].
Qed.

Lemma nth_error_inserted_at {A : Type} (l : list A) (n : nat) (x : A) :
  (n <= List.length l)%nat ->
  nth_error (firstn n l ++ x :: skipn n l) n = Some x.
Proof.
  intros Hn. assert (Hlen : List.length (firstn n l) = n)
    by (rewrite length_firstn; lia).
  rewrite nth_error_app2 by lia. rewrite Hlen, Nat.sub_diag. reflexivity.
Qed.

Lemma js_get_inserted {A : Type} (arr : list A) (index : Z) (x : A) (j : Z) :
  (0 <= index <= Z.of_nat (List.length arr))%Z ->
  js_get (js_splice_insert arr index x) (if (j >=? index)%Z then j + 1 else j)%Z
  = js_get arr j.
Proof.
  intros H. rewrite js_splice_insert_in_range by assumption.
  destruct (Z.ltb_spec j 0) as [Hneg | Hpos].
  - destruct (Z.geb_spec j index); [lia|]. now rewrite !js_get_negative.
  - rewrite (js_get_nat arr j) by lia.
    rewrite <- (nth_error_inserted arr (Z.to_nat index) x (Z.to_nat j)) by lia.
    destruct (Z.geb_spec j index); destruct (Nat.leb_spec (Z.to_nat index) (Z.to_nat j));
      try lia; rewrite js_get_nat by lia; f_equal; lia.
Qed.

Lemma js_get_appended {A : Type} (arr : list A) (x : A) (j : Z) :
  (j < Z.of_nat (List.length arr))%Z ->
  js_get (arr ++ [x]) j = js_get arr j.
Proof.
  intros H. destruct (Z.ltb_spec j 0) as [Hneg | Hpos].
  - now rewrite !js_get_negative.
  - rewrite !js_get_nat by lia. apply nth_error_app1. lia.
Qed.

(** X9: inserting a waypoint at an index within the path (as a click near a
    segment does) adds exactly that waypoint there, and every annotation
    stays attached to the waypoint it was attached to, its other fields
    unchanged. *)
Theorem handleAddPoint_keeps_anchors
    (point : Point) (index : Z) (points : list Point)
    (annotations : list Annotation) :
  (0 <= index <= Z.of_nat (List.length points))%Z ->
  let points' := fst (handleAddPoint point (Some index) points annotations) in
  let annotations' := snd (handleAddPoint point (Some index) points annotations) in
  List.length points' = S (List.length points)
  /\ js_get points' index = Some point
  /\ map (anchor points') annotations' = map (anchor points) annotations
  /\ Forall2 (fun a a' => a' = with_pathIndex a (pathIndex a'))
             annotations annotations'.
Proof.
  intros H points' annotations'. unfold points', annotations', handleAddPoint.
  cbn [fst snd]. repeat split.
  - rewrite js_splice_insert_in_range by assumption.
    rewrite length_app. cbn [List.length].
    rewrite length_firstn, length_skipn. lia.
  - rewrite js_splice_insert_in_range by assumption.
    rewrite js_get_nat by lia. apply nth_error_inserted_at. lia.
  - rewrite map_map. apply map_ext. intros a. unfold anchor.
    rewrite <- (js_get_inserted points index point (pathIndex a) H).
    now destruct (pathIndex a >=? index)%Z.
  - induction annotations as [|a l IH]; cbn [map]; constructor; [|exact IH].
    destruct (pathIndex a >=? index)%Z; [reflexivity|].
    symmetry. apply with_pathIndex_same.
Qed.

Lemma filter_index_all {A : Type} (index : Z) (l : list A) : forall i0,
  (index < i0)%Z -> filter_index (fun i => negb (i =? index)%Z) i0 l = l.
Proof.
  induction l as [|a r IH]; intros i0 H; [reflexivity|]. cbn [filter_index].
  destruct (Z.eqb_spec i0 index); [lia|]. cbn [negb]. f_equal. apply IH. lia.
Qed.

Lemma filter_index_remove {A : Type} (index : Z) (l : list A) : forall i0,
  (i0 <= index)%Z ->
  filter_index (fun i => negb (i =? index)%Z) i0 l
  = firstn (Z.to_nat (index - i0)) l ++ skipn (S (Z.to_nat (index - i0))) l.
Proof.
  induction l as [|a r IH]; intros i0 H.
  - now rewrite firstn_nil, skipn_nil.
  - cbn [filter_index]. destruct (Z.eqb_spec i0 index) as [-> | Hne]; cbn [negb].
    + rewrite Z.sub_diag. cbn. apply filter_index_all. lia.
    + rewrite IH by lia.
      replace (Z.to_nat (index - i0)) with (S (Z.to_nat (index - (i0 + 1)))) by lia.
      reflexivity.
Qed.

Lemma remove_inserted {A : Type} (x : A) : forall (n : nat) (l : list A),
  (n <= List.length l)%nat ->
  firstn n (firstn n l ++ x :: skipn n l)
  ++ skipn (S n) (firstn n l ++ x :: skipn n l) = l.
Proof.
  induction n as [|n IH]; intros l H; [reflexivity|].
  destruct l as [|a r]; [simpl in H; lia|].
  cbn [firstn skipn app]. f_equal. apply IH. simpl in H. lia.
Qed.

Lemma nth_error_removed {A : Type} (l : list A) : forall m k,
  nth_error (firstn m l ++ skipn (S m) l) k
  = nth_error l (if (k <? m)%nat then k else S k).
Proof.
  induction l as [|a r IH]; intros m k.
  - rewrite firstn_nil, skipn_nil. cbn [app].
    destruct (k <? m)%nat; now destruct k.
  - destruct m as [|m]; [reflexivity|]. cbn [firstn skipn app].
    destruct k as [|k]; [reflexivity|]. cbn [nth_error]. rewrite IH.
    change (S k <? S m)%nat with (k <? m)%nat. now destruct (k <? m)%nat.
Qed.

Lemma js_get_removed {A : Type} (arr : list A) (index j : Z) :
  (0 <= index)%Z -> j <> index ->
  js_get (filter_index (fun i => negb (i =? index)%Z) 0 arr)
         (if (j >? index)%Z then j - 1 else j)%Z
  = js_get arr j.
Proof.
  intros H0 Hne. rewrite filter_index_remove by lia. rewrite Z.sub_0_r.
  destruct (Z.gtb_spec j index) as [Hgt | Hle].
  - rewrite !js_get_nat by lia. rewrite nth_error_removed.
    destruct (Nat.ltb_spec (Z.to_nat (j - 1)) (Z.to_nat index)); [lia|].
    f_equal. lia.
  - destruct (Z.ltb_spec j 0); [now rewrite !js_get_negative|].
    rewrite !js_get_nat by lia. rewrite nth_error_removed.
    destruct (Nat.ltb_spec (Z.to_nat j) (Z.to_nat index)); [reflexivity | lia].
Qed.

Lemma handleDeletePoint_annotations index points annotations :
  snd (handleDeletePoint index points annotations)
  = map (fun a => if (pathIndex a >? index)%Z
                  then with_pathIndex a (pathIndex a - 1) else a)
        (filter (fun a => negb (pathIndex a =? index)%Z) annotations).
Proof.
  unfold handleDeletePoint. cbn [snd].
  induction annotations as [|a l IH]; [reflexivity|]. cbn [flat_map filter].
  destruct (pathIndex a =? index)%Z; cbn [negb]; [exact IH|].
  cbn [map]. rewrite <- IH. now destruct (pathIndex a >? index)%Z.
Qed.

(** X10: deleting a waypoint removes it from the path together with the
    annotations attached to it; every other annotation is kept, in order,
    still attached to the waypoint it was attached to, its other fields
    unchanged. *)
Theorem handleDeletePoint_keeps_anchors
    (index : Z) (points : list Point) (annotations : list Annotation) :
  (0 <= index)%Z ->
  let points' := fst (handleDeletePoint index points annotations) in
  let annotations' := snd (handleDeletePoint index points annotations) in
  let kept := filter (fun a => negb (pathIndex a =? index)%Z) annotations in
  points' = firstn (Z.to_nat index) points ++ skipn (S (Z.to_nat index)) points
  /\ map (anchor points') annotations' = map (anchor points) kept
  /\ Forall2 (fun a a' => a' = with_pathIndex a (pathIndex a')) kept annotations'.
Proof.
  intros H0 points' annotations' kept.
  unfold annotations'. rewrite handleDeletePoint_annotations. fold kept.
  unfold points', handleDeletePoint. cbn [fst]. split; [|split].
  - rewrite filter_index_remove by lia. now rewrite Z.sub_0_r.
  - rewrite map_map.
    assert (Hk : Forall (fun a => pathIndex a <> index) kept).
    { apply Forall_forall. intros a Ha. apply filter_In in Ha.
      destruct Ha as [_ Ha]. now destruct (Z.eqb_spec (pathIndex a) index). }
    induction Hk as [|a l Ha _ IH]; [reflexivity|]. cbn [map]. f_equal; [|exact IH].
    unfold anchor. rewrite <- (js_get_removed points index (pathIndex a) H0 Ha).
    now destruct (pathIndex a >? index)%Z.
  - induction kept as [|a l IH]; cbn [map]; constructor; [|exact IH].
    destruct (pathIndex a >? index)%Z; [reflexivity|].
    symmetry. apply with_pathIndex_same.
Qed.

(** X11: deleting the waypoint just inserted gives back the path and the
    annotations as they were. *)
Theorem handleDeletePoint_undoes_handleAddPoint
    (point : Point) (index : Z) (points : list Point)
    (annotations : list Annotation) :
  (0 <= index <= Z.of_nat (List.length points))%Z ->
  let added := handleAddPoint point (Some index) points annotations in
  handleDeletePoint index (fst added) (snd added) = (points, annotations).
Proof.
  intros H added. unfold added, handleAddPoint. cbn [fst snd].
  unfold handleDeletePoint. f_equal.
  - rewrite filter_index_remove by lia. rewrite Z.sub_0_r.
    rewrite js_splice_insert_in_range by assumption.
    apply remove_inserted. lia.
  - induction annotations as [|a l IH]; [reflexivity|]. cbn [map flat_map].
    rewrite IH. destruct (Z.geb_spec (pathIndex a) index) as [Hge | Hlt].
    + cbn [pathIndex with_pathIndex].
      destruct (Z.eqb_spec (pathIndex a + 1) index); [lia|].
      destruct (Z.gtb_spec (pathIndex a + 1) index); [|lia].
      rewrite with_pathIndex_twice. replace (pathIndex a + 1 - 1)%Z
        with (pathIndex a) by lia.
      now rewrite with_pathIndex_same.
    + destruct (Z.eqb_spec (pathIndex a) index); [lia|].
      destruct (Z.gtb_spec (pathIndex a) index); [lia | reflexivity].
Qed.

Lemma removed_length {A : Type} (l : list A) (m : nat) :
  List.length (firstn m l ++ skipn (S m) l)
  = if (m <? List.length l)%nat then (List.length l - 1)%nat else List.length l.
Proof.
  rewrite length_app, length_firstn, length_skipn.
  destruct (Nat.ltb_spec m (List.length l)); lia.
Qed.

(** X12: the editing operations keep every [pathIndex] valid: if every
    annotation is attached to a waypoint of the path, this is still so after
    a waypoint is appended, inserted within the path or deleted, and after a
    click on a waypoint has added an annotation. *)
Theorem editing_keeps_anchors_valid
    (points : list Point) (annotations : list Annotation) :
  valid_anchors points annotations ->
  (forall point,
     valid_anchors (fst (handleAddPoint point None points annotations))
                   (snd (handleAddPoint point None points annotations)))
  /\ (forall point index,
        (0 <= index <= Z.of_nat (List.length points))%Z ->
        valid_anchors (fst (handleAddPoint point (Some index) points annotations))
                      (snd (handleAddPoint point (Some index) points annotations)))
  /\ (forall index,
        (0 <= index)%Z ->
        valid_anchors (fst (handleDeletePoint index points annotations))
                      (snd (handleDeletePoint index points annotations)))
  /\ (forall present nodeTool menuOpen button newId index areas s,
        (0 <= index < Z.of_nat (List.length points))%Z ->
        valid_anchors points
          (handlePointClick present nodeTool menuOpen button newId index
             annotations areas s)).
Proof.
  intros Hv. unfold valid_anchors in *. rewrite Forall_forall in Hv.
  repeat split.
  - intros point. cbn [handleAddPoint fst snd]. apply Forall_forall.
    intros a Ha. specialize (Hv a Ha). rewrite length_app. cbn. lia.
  - intros point index Hi. cbn [handleAddPoint fst snd].
    rewrite js_splice_insert_in_range by assumption.
    rewrite length_app. cbn [List.length]. rewrite length_firstn, length_skipn.
    apply Forall_forall. intros a' Ha'. apply in_map_iff in Ha'.
    destruct Ha' as (a & <- & Ha). specialize (Hv a Ha).
    destruct (pathIndex a >=? index)%Z; cbn [pathIndex with_pathIndex]; lia.
  - intros index Hi. rewrite handleDeletePoint_annotations.
    unfold handleDeletePoint. cbn [fst].
    rewrite filter_index_remove by lia. rewrite Z.sub_0_r, removed_length.
    apply Forall_forall. intros a' Ha'. apply in_map_iff in Ha'.
    destruct Ha' as (a & <- & Ha). apply filter_In in Ha. destruct Ha as [Ha Hne].
    specialize (Hv a Ha). destruct (Z.eqb_spec (pathIndex a) index); [discriminate|].
    destruct (Nat.ltb_spec (Z.to_nat index) (List.length points));
      destruct (Z.gtb_spec (pathIndex a) index);
      cbn [pathIndex with_pathIndex]; lia.
  - intros present nodeTool menuOpen button newId index areas s Hi.
    unfold handlePointClick.
    destruct present; [now apply Forall_forall|].
    destruct nodeTool; [|now apply Forall_forall].
    destruct (_ && _); [|now apply Forall_forall].
    unfold handleAddAnnotation. apply Forall_app. split; [now apply Forall_forall|].
    constructor; [exact Hi | constructor].
Qed.

Lemma distinct_anchors_map (g : Z -> Z) (h : Annotation -> Annotation) l :
  (forall a, pathIndex (h a) = g (pathIndex a)) ->
  (forall a b, In a l -> In b l ->
               g (pathIndex a) = g (pathIndex b) -> pathIndex a = pathIndex b) ->
  distinct_anchors l -> distinct_anchors (map h l).
Proof.
  intros Hh Hg Hl. unfold distinct_anchors in *. rewrite map_map.
  rewrite (map_ext _ (fun a => g (pathIndex a)) Hh), <- (map_map pathIndex g).
  apply NoDup_map_NoDup_ForallPairs; [|assumption].
  intros x y' Hx Hy. apply in_map_iff in Hx, Hy.
  destruct Hx as (a & <- & Ha). destruct Hy as (b & <- & Hb). now apply Hg.
Qed.

Lemma distinct_anchors_filter (f : Annotation -> bool) l :
  distinct_anchors l -> distinct_anchors (filter f l).
Proof.
  unfold distinct_anchors. induction l as [|a l IH]; intros H; [constructor|].
  inversion H as [|? ? Hn Hl]; subst. cbn [filter].
  destruct (f a); [|now apply IH]. cbn [map]. constructor; [|now apply IH].
  intros Hin. apply Hn. apply in_map_iff in Hin. destruct Hin as (b & Hb & Hin).
  apply filter_In in Hin. apply in_map_iff. exists b. tauto.
Qed.

(** X13: annotations on distinct waypoints stay on distinct waypoints when
    a waypoint is added or deleted, and a click on a waypoint never puts a
    second annotation on it. *)
Theorem editing_keeps_anchors_distinct
    (points : list Point) (annotations : list Annotation) :
  distinct_anchors annotations ->
  (forall point index,
     distinct_anchors (snd (handleAddPoint point index points annotations)))
  /\ (forall index,
        distinct_anchors (snd (handleDeletePoint index points annotations)))
  /\ (forall present nodeTool menuOpen button newId index areas s,
        distinct_anchors
          (handlePointClick present nodeTool menuOpen button newId index
             annotations areas s)).
Proof.
  intros Hd. repeat split.
  - intros point [index|]; cbn [handleAddPoint snd]; [|assumption].
    apply (distinct_anchors_map (fun p => if (p >=? index)%Z then p + 1 else p)%Z);
      [| |assumption].
    + intros a. now destruct (pathIndex a >=? index)%Z.
    + intros a b _ _.
      destruct (Z.geb_spec (pathIndex a) index), (Z.geb_spec (pathIndex b) index);
        lia.
  - intros index. rewrite handleDeletePoint_annotations.
    apply (distinct_anchors_map (fun p => if (p >? index)%Z then p - 1 else p)%Z).
    + intros a. now destruct (pathIndex a >? index)%Z.
    + intros a b Ha Hb. apply filter_In in Ha, Hb.
      destruct Ha as [_ Ha]. destruct Hb as [_ Hb].
      destruct (Z.eqb_spec (pathIndex a) index); [discriminate|].
      destruct (Z.eqb_spec (pathIndex b) index); [discriminate|].
      destruct (Z.gtb_spec (pathIndex a) index), (Z.gtb_spec (pathIndex b) index);
        lia.
    + now apply distinct_anchors_filter.
  - intros present nodeTool menuOpen button newId index areas s.
    unfold handlePointClick.
    destruct present; [assumption|]. destruct nodeTool; [|assumption].
    destruct (existsb _ annotations) eqn:E; cbn [negb andb]; [assumption|].
    destruct (negb menuOpen && (button =? 0)%Z); [|assumption].
    unfold handleAddAnnotation, distinct_anchors. rewrite map_app. cbn [map].
    apply NoDup_app; [assumption | repeat constructor; intros [] |].
    intros p Hp [<- | []]. apply in_map_iff in Hp. destruct Hp as (a & Ha & Hin).
    assert (existsb (fun a => (pathIndex a =? index)%Z) annotations = true).
    { apply existsb_exists. exists a. split; [assumption|]. now apply Z.eqb_eq. }
    congruence.
Qed.

(** * Clicks on the canvas *)

Lemma sqrt_le_squares a b c d :
  a ^ 2 + b ^ 2 <= c ^ 2 + d ^ 2 -> sqrt (a ^ 2 + b ^ 2) <= sqrt (c ^ 2 + d ^ 2).
Proof. intros H. now apply sqrt_le_1_alt. Qed.

Lemma clamp_cases t :
  (t <= 0 /\ Rmax 0 (Rmin 1 t) = 0)
  \/ (1 <= t /\ Rmax 0 (Rmin 1 t) = 1)
  \/ (0 <= t <= 1 /\ Rmax 0 (Rmin 1 t) = t).
Proof.
  destruct (Rle_dec t 0) as [H0 | H0].
  - left. split; [assumption|]. rewrite Rmin_right by lra. now apply Rmax_left.
  - right. destruct (Rle_dec 1 t) as [H1 | H1].
    + left. split; [assumption|]. rewrite Rmin_left by lra. apply Rmax_right. lra.
    + right. split; [lra|]. rewrite Rmin_right by lra. apply Rmax_right. lra.
Qed.

(** The quadratic the projection minimises. *)
Lemma clamp_minimises A B C D t c u :
  0 < C * C + D * D -> t * (C * C + D * D) = A * C + B * D ->
  0 <= u <= 1 ->
  (t <= 0 /\ c = 0) \/ (1 <= t /\ c = 1) \/ (0 <= t <= 1 /\ c = t) ->
  (A - c * C) ^ 2 + (B - c * D) ^ 2 <= (A - u * C) ^ 2 + (B - u * D) ^ 2.
Proof.
  intros Hl Ht Hu Hc.
  assert (E : (A - u * C) ^ 2 + (B - u * D) ^ 2
              - ((A - c * C) ^ 2 + (B - c * D) ^ 2)
              = (C * C + D * D) * ((u - c) * (u + c - 2 * t))).
  { replace ((C * C + D * D) * ((u - c) * (u + c - 2 * t)))
      with ((C * C + D * D) * (u * u - c * c)
            - 2 * (u - c) * (t * (C * C + D * D))) by ring.
    rewrite Ht. ring. }
  assert (0 <= (C * C + D * D) * ((u - c) * (u + c - 2 * t))); [|lra].
  apply Rmult_le_pos; [lra|].
  destruct Hc as [[H0 ->] | [[H1 ->] | [H01 ->]]].
  - replace ((u - 0) * (u + 0 - 2 * t)) with (u * (u - 2 * t)) by ring.
    apply Rmult_le_pos; lra.
  - replace ((u - 1) * (u + 1 - 2 * t)) with ((1 - u) * (2 * t - 1 - u)) by ring.
    apply Rmult_le_pos; lra.
  - replace ((u - t) * (u + t - 2 * t)) with ((u - t) * (u - t)) by ring.
    apply Rle_0_sqr.
Qed.

(** X14: [distToSegment] is the distance to the nearest point of the
    segment: it is the distance from [p] to some point of the segment, and
    no point of the segment is nearer to [p]. *)
Theorem distToSegment_is_minimal (p v w : Point) :
  (exists u, 0 <= u <= 1 /\ distToSegment p v w = dist p (on_segment v w u))
  /\ (forall u, 0 <= u <= 1 -> distToSegment p v w <= dist p (on_segment v w u)).
Proof.
  unfold distToSegment, dist, on_segment. cbn [x y].
  set (A := x p - x v). set (B := y p - y v).
  set (C := x w - x v). set (D := y w - y v).
  assert (Hl2 : (x v - x w) ^ 2 + (y v - y w) ^ 2 = C * C + D * D)
    by (unfold C, D; ring).
  rewrite Hl2.
  assert (Hsq : forall u, (x v + u * C - x p) ^ 2 + (y v + u * D - y p) ^ 2
                          = (A - u * C) ^ 2 + (B - u * D) ^ 2)
    by (intros u; unfold A, B; ring).
  assert (Hsq' : forall u, (x p - (x v + u * C)) ^ 2 + (y p - (y v + u * D)) ^ 2
                           = (A - u * C) ^ 2 + (B - u * D) ^ 2)
    by (intros u; unfold A, B; ring).
  destruct (Req_dec_T (C * C + D * D) 0) as [Hz | Hnz].
  - assert (HC : C = 0) by nra. assert (HD : D = 0) by nra.
    split.
    + exists 0. split; [lra|]. rewrite Hsq. f_equal. ring.
    + intros u Hu. rewrite Hsq, HC, HD. right. f_equal. ring.
  - assert (Hpos : 0 < C * C + D * D) by nra.
    set (t := (A * C + B * D) / (C * C + D * D)).
    assert (Ht : t * (C * C + D * D) = A * C + B * D)
      by (unfold t; field; lra).
    pose proof (clamp_cases t) as Hc.
    set (c := Rmax 0 (Rmin 1 t)) in *. rewrite Hsq'. split.
    + exists c. split; [|now rewrite Hsq].
      destruct Hc as [[? ->] | [[? ->] | [? ->]]]; lra.
    + intros u Hu. rewrite Hsq. apply sqrt_le_squares.
      apply (clamp_minimises A B C D t c u); assumption.
Qed.

Lemma insertIndex_from_spec click pts : forall i0,
  (0 <= i0)%Z ->
  (insertIndex_from click pts i0 = (-1)%Z
   /\ forall k p1 p2, nth_error pts k = Some p1 -> nth_error pts (S k) = Some p2 ->
                      10 <= distToSegment click p1 p2)
  \/ (exists k p1 p2,
        insertIndex_from click pts i0 = (i0 + Z.of_nat k + 1)%Z
        /\ nth_error pts k = Some p1 /\ nth_error pts (S k) = Some p2
        /\ distToSegment click p1 p2 < 10).
Proof.
  induction pts as [|p1 rest IH]; intros i0 H0.
  - left. split; [reflexivity|]. intros k ? ? Hk. now destruct k.
  - destruct rest as [|p2 r].
    + left. split; [reflexivity|]. intros k ? ? _ Hk. now destruct k.
    + cbn [insertIndex_from].
      destruct (Rltb (distToSegment click p1 p2) 10) eqn:E.
      * right. exists 0%nat, p1, p2. apply Rltb_true in E.
        split; [cbn; lia|]. split; [reflexivity|]. split; [reflexivity | assumption].
      * apply Rltb_false in E.
        destruct (IH (i0 + 1)%Z) as [[Hr Hall] | (k & q1 & q2 & Hr & H1 & H2 & Hlt)];
          [lia | |].
        -- left. split; [assumption|]. intros [|k] q1 q2 Hk1 Hk2.
           ++ cbn in Hk1, Hk2. injection Hk1 as <-. injection Hk2 as <-. assumption.
           ++ now apply (Hall k).
        -- right. exists (S k), q1, q2. split;
             [transitivity (i0 + 1 + Z.of_nat k + 1)%Z; [exact Hr | lia]|].
           repeat split; assumption.
Qed.

Lemma anchors_after_insert point index points annotations :
  (0 <= index <= Z.of_nat (List.length points))%Z ->
  map (anchor (fst (handleAddPoint point (Some index) points annotations)))
      (snd (handleAddPoint point (Some index) points annotations))
  = map (anchor points) annotations.
Proof.
  intros H. cbn [handleAddPoint fst snd]. rewrite map_map. apply map_ext.
  intros a. unfold anchor.
  rewrite <- (js_get_inserted points index point (pathIndex a) H).
  now destruct (pathIndex a >=? index)%Z.
Qed.

(** X15: a click with the path tool adds the clicked point to the path:
    between the two ends of the first segment that is less than 10 away from
    it, or else at the end; every annotation attached to a waypoint stays
    attached to the same waypoint. *)
Theorem handleCanvasClick_inserts_on_segment
    (click : Point) (points : list Point) (annotations : list Annotation) :
  valid_anchors points annotations ->
  let points' := fst (handleCanvasClick click points annotations) in
  let annotations' := snd (handleCanvasClick click points annotations) in
  map (anchor points') annotations' = map (anchor points) annotations
  /\ ((points' = points ++ [click] /\ annotations' = annotations
       /\ forall k p1 p2, nth_error points k = Some p1 ->
                          nth_error points (S k) = Some p2 ->
                          10 <= distToSegment click p1 p2)
      \/ (exists k p1 p2,
            nth_error points k = Some p1 /\ nth_error points (S k) = Some p2
            /\ distToSegment click p1 p2 < 10
            /\ (forall j q1 q2, (j < k)%nat -> nth_error points j = Some q1 ->
                                nth_error points (S j) = Some q2 ->
                                10 <= distToSegment click q1 q2)
            /\ nth_error points' k = Some p1
            /\ nth_error points' (S k) = Some click
            /\ nth_error points' (S (S k)) = Some p2)).
Proof.
  intros Hv points' annotations'. unfold points', annotations', handleCanvasClick.
  destruct (insertIndex_from_spec click points 0 (Z.le_refl 0))
    as [[Hr Hall] | (k & p1 & p2 & Hr & H1 & H2 & Hlt)].
  - rewrite Hr. cbn [Z.eqb negb handleAddPoint fst snd]. split; [|now left].
    apply map_ext_in. intros a Ha. unfold anchor, valid_anchors in *.
    rewrite Forall_forall in Hv. specialize (Hv a Ha).
    apply js_get_appended. lia.
  - rewrite Hr. assert (Hk : (S k < List.length points)%nat)
      by (apply nth_error_Some; congruence).
    destruct (Z.eqb_spec (0 + Z.of_nat k + 1) (-1)); [lia|]. cbn [negb].
    assert (Hi : (0 <= 0 + Z.of_nat k + 1 <= Z.of_nat (List.length points))%Z)
      by lia.
    split; [now apply anchors_after_insert|]. right.
    exists k, p1, p2. cbn [handleAddPoint fst snd].
    rewrite js_splice_insert_in_range by assumption.
    replace (Z.to_nat (0 + Z.of_nat k + 1)) with (S k) by lia.
    repeat split; try assumption.
    + intros j q1 q2 Hj Hq1 Hq2.
      destruct (Rle_dec 10 (distToSegment click q1 q2)) as [|Hn]; [assumption|].
      exfalso. clear - Hr Hj Hq1 Hq2 Hn.
      assert (Hgen : forall pts i0 j k,
                (j < k)%nat -> nth_error pts j = Some q1 ->
                nth_error pts (S j) = Some q2 ->
                insertIndex_from click pts i0 <> (i0 + Z.of_nat k + 1)%Z).
      { clear - Hn. induction pts as [|a rest IH]; intros i0 j k Hj H1 H2.
        - now destruct j.
        - destruct rest as [|b r]; [now destruct j|]. cbn [insertIndex_from].
          destruct j as [|j].
          + cbn in H1, H2. injection H1 as <-. injection H2 as <-.
            rewrite (proj2 (Rltb_true _ _)) by lra. lia.
          + destruct (Rltb _ _); [lia|].
            destruct k as [|k]; [lia|].
            specialize (IH (i0 + 1)%Z j k). cbn [nth_error] in H1, H2.
            assert (Hjk : (j < k)%nat) by lia.
            specialize (IH Hjk H1 H2). intros Heq. apply IH.
            etransitivity; [exact Heq | lia]. }
      exact (Hgen points 0%Z j k Hj Hq1 Hq2 Hr).
    + pose proof (nth_error_inserted points (S k) click k) as Hx.
      destruct (Nat.leb_spec (S k) k); [lia|]. rewrite Hx by lia. exact H1.
    + apply nth_error_inserted_at. lia.
    + pose proof (nth_error_inserted points (S k) click (S k)) as Hx.
      rewrite Nat.leb_refl in Hx. rewrite Hx by lia. exact H2.
Qed.

(** * The timeline tab *)

Lemma run_events_Forall (P : Event -> Prop) (Q : Item -> Prop) pd s :
  (forall c i, Q i -> Forall P (schedule c) -> Forall P (schedule (step pd s c i))) ->
  forall l, Forall Q l -> forall c,
  Forall P (schedule c) -> Forall P (schedule (run pd s l c)).
Proof.
  intros Hstep l Hl. unfold run.
  induction Hl as [|i l Hi _ IH]; intros c Hc; simpl; [assumption|].
  apply IH. now apply Hstep.
Qed.

Lemma items_Forall (Q : Item -> Prop) annotations areas :
  Forall (fun a => Q (IAnnotation a)) annotations ->
  Forall (fun a => Q (IArea a)) areas ->
  Forall Q (items annotations areas).
Proof.
  intros Ha Hb. apply Forall_forall. intros j Hj.
  apply sort_items_In, in_app_iff in Hj. rewrite !in_map_iff in Hj.
  rewrite Forall_forall in Ha, Hb.
  destruct Hj as [(a & <- & Hin) | (a & <- & Hin)]; auto.
Qed.

(** X16: after "apply to all", confirmed, with the wait time [v], every
    wait event of the schedule lasts [v]; with the draw time [v], every draw
    event lasts [v], except the trailing one, which lasts
    [defaults.segment]. *)
Theorem applyDurationToAll_sets_every_event
    (points : list Point) (annotations : list Annotation) (areas : list Area)
    (s : AppSettings) (v : R) :
  Forall (fun e => type e = Wait -> duration e = v)
         (tl_schedule (timeline points
                         (applyDurationToAll true KWait v annotations) areas s))
  /\ Forall (fun e => type e = Draw -> duration e = v)
            (schedule (after_items points
                         (applyDurationToAll true KDraw v annotations) areas s))
  /\ (forall kind e,
        In e (tl_schedule (timeline points
                (applyDurationToAll true kind v annotations) areas s)) ->
        ~ In e (schedule (after_items points
                (applyDurationToAll true kind v annotations) areas s)) ->
        type e = Draw /\ duration e = defaultSegmentDuration s).
Proof.
  split; [|split].
  - unfold timeline, result, after_items. cbn [tl_schedule]. rewrite finish_emits.
    set (c := run _ _ _ _).
    assert (Hc : Forall (fun e => type e = Wait -> duration e = v) (schedule c)).
    { apply (run_events_Forall _
               (fun i => match i with
                         | IAnnotation a => pauseDuration a = Some v
                         | IArea _ => True
                         end)); [| |constructor].
      - intros c0 [a | a] Hi Hall; cbn [step wait_label area_fade schedule];
          unfold push; apply Forall_app; (split; [|constructor; [|constructor]]).
        + unfold draw_segment. destruct (draws _ _ _); [|assumption].
          cbn [schedule]. unfold push. apply Forall_app. split; [assumption|].
          constructor; [discriminate | constructor].
        + cbn. intros _. now rewrite Hi.
        + assumption.
        + discriminate.
      - apply items_Forall.
        + unfold applyDurationToAll. apply Forall_forall. intros a Ha.
          apply in_map_iff in Ha. now destruct Ha as (a0 & <- & _).
        + apply Forall_forall. auto. }
    destruct (emits_tail _ _ c); [|assumption].
    cbn [schedule]. apply Forall_app. split; [assumption|].
    constructor; [discriminate | constructor].
  - unfold after_items.
    apply (run_events_Forall _
             (fun i => match i with
                       | IAnnotation a => segmentDuration a = Some v
                       | IArea _ => True
                       end)); [| |constructor].
    + intros c0 [a | a] Hi Hall; cbn [step wait_label area_fade schedule];
        unfold push; apply Forall_app; (split; [|constructor; [|constructor]]).
      * unfold draw_segment. destruct (draws _ _ _); [|assumption].
        cbn [schedule]. unfold push. apply Forall_app. split; [assumption|].
        constructor; [|constructor]. cbn. intros _. now rewrite Hi.
      * discriminate.
      * assumption.
      * discriminate.
    + apply items_Forall.
      * unfold applyDurationToAll. apply Forall_forall. intros a Ha.
        apply in_map_iff in Ha. now destruct Ha as (a0 & <- & _).
      * apply Forall_forall. auto.
  - intros kind e. unfold timeline, result. cbn [tl_schedule]. rewrite finish_emits.
    destruct (emits_tail _ _ _); [|tauto]. cbn [schedule].
    intros Hin Hnot. apply in_app_iff in Hin. destruct Hin as [? | [<- | []]]; [tauto|].
    split; reflexivity.
Qed.

(** ** The sort *)

Lemma insert_item_perm i l : Permutation (insert_item i l) (i :: l).
Proof.
  induction l as [|j l IH]; [reflexivity|]. cbn [insert_item].
  destruct (Rltb (item_order j) (item_order i)); [|reflexivity].
  rewrite IH. apply perm_swap.
Qed.

Lemma sort_items_perm l : Permutation (sort_items l) l.
Proof.
  induction l as [|i l IH]; [reflexivity|]. cbn [sort_items].
  rewrite insert_item_perm. now constructor.
Qed.

Lemma insert_item_sorted i l : sorted_items l -> sorted_items (insert_item i l).
Proof.
  unfold sorted_items. induction 1 as [|j l Hj Hl IH]; cbn [insert_item].
  - repeat constructor.
  - destruct (Rltb (item_order j) (item_order i)) eqn:E.
    + apply Rltb_true in E. constructor; [|assumption].
      apply Forall_forall. intros k Hk. apply insert_item_In in Hk.
      destruct Hk as [-> | Hk]; [lra|]. rewrite Forall_forall in Hj. now apply Hj.
    + apply Rltb_false in E. constructor; [|now constructor].
      constructor; [assumption|].
      eapply Forall_impl; [|exact Hj]. cbn beta. intros k Hk. lra.
Qed.

Lemma sort_items_sorted l : sorted_items (sort_items l).
Proof.
  induction l as [|i l IH]; [constructor|]. now apply insert_item_sorted.
Qed.

(** Two sorted lists of the same items, with distinct order keys, are
    equal. *)
Lemma sorted_items_unique l1 : forall l2,
  sorted_items l1 -> sorted_items l2 -> Permutation l1 l2 ->
  NoDup (map item_order l1) -> l1 = l2.
Proof.
  unfold sorted_items. induction l1 as [|a r1 IH]; intros l2 H1 H2 Hp Hn.
  - apply Permutation_nil in Hp. now subst.
  - destruct l2 as [|b r2].
    + apply Permutation_sym, Permutation_nil in Hp. discriminate.
    + inversion H1 as [|? ? Ha Hr1]; subst. inversion H2 as [|? ? Hb Hr2]; subst.
      cbn [map] in Hn. inversion Hn as [|? ? Hna Hnr]; subst.
      assert (Hab : a = b).
      { assert (Hina : In a (b :: r2))
          by (apply (Permutation_in _ Hp); now left).
        destruct Hina as [-> | Hina]; [reflexivity|].
        assert (Hinb : In b (a :: r1))
          by (apply (Permutation_in _ (Permutation_sym Hp)); now left).
        destruct Hinb as [-> | Hinb]; [reflexivity|]. exfalso.
        rewrite Forall_forall in Ha, Hb.
        specialize (Ha b Hinb). specialize (Hb a Hina).
        apply Hna. apply in_map_iff. exists b. split; [lra | assumption]. }
      subst b. f_equal. apply IH; try assumption.
      now apply Permutation_cons_inv in Hp.
Qed.

Lemma sort_items_unique l l' :
  sorted_items l' -> Permutation l' l -> NoDup (map item_order l) ->
  sort_items l = l'.
Proof.
  intros Hs Hp Hn. symmetry. apply sorted_items_unique.
  - assumption.
  - apply sort_items_sorted.
  - rewrite sort_items_perm. assumption.
  - apply (Permutation_NoDup (Permutation_map item_order (Permutation_sym Hp)) Hn).
Qed.

(** X17: the schedule does not depend on the positions of the annotations
    and areas in their arrays, as long as no two items share an [order]:
    rearranging either array gives the same timeline. *)
Theorem timeline_ignores_array_order
    (points : list Point) (annotations annotations' : list Annotation)
    (areas areas' : list Area) (s : AppSettings) :
  Permutation annotations annotations' ->
  Permutation areas areas' ->
  NoDup (map ann_order annotations ++ map area_order areas) ->
  timeline points annotations areas s = timeline points annotations' areas' s.
Proof.
  intros Ha Hb Hn. unfold timeline, after_items. f_equal. f_equal. f_equal.
  unfold items. apply sort_items_unique.
  - apply sort_items_sorted.
  - rewrite sort_items_perm. apply Permutation_app; now apply Permutation_map,
      Permutation_sym.
  - now rewrite map_app, !map_map.
Qed.

(** ** Moving an item up or down *)

Lemma findIndex_from_none {A : Type} (f : A -> bool) l : forall i0,
  Forall (fun a => f a = false) l -> findIndex_from f l i0 = (-1)%Z.
Proof.
  induction l as [|a r IH]; intros i0 H; [reflexivity|].
  inversion H as [|? ? Ha Hr]; subst. cbn [findIndex_from]. rewrite Ha.
  now apply IH.
Qed.

Lemma findIndex_from_first {A : Type} (f : A -> bool) l1 a l2 : forall i0,
  Forall (fun a => f a = false) l1 -> f a = true ->
  findIndex_from f (l1 ++ a :: l2) i0 = (i0 + Z.of_nat (List.length l1))%Z.
Proof.
  induction l1 as [|b r IH]; intros i0 H Ha.
  - cbn. rewrite Ha. lia.
  - inversion H as [|? ? Hb Hr]; subst. cbn [app findIndex_from]. rewrite Hb.
    rewrite IH by assumption. cbn [List.length]. lia.
Qed.

Lemma js_get_middle {A : Type} (l1 : list A) a l2 :
  js_get (l1 ++ a :: l2) (Z.of_nat (List.length l1)) = Some a.
Proof.
  rewrite js_get_nat by lia. rewrite Nat2Z.id.
  rewrite nth_error_app2 by lia. now rewrite Nat.sub_diag.
Qed.

Lemma js_get_middle_next {A : Type} (l1 : list A) a b l2 :
  js_get (l1 ++ a :: b :: l2) (Z.of_nat (List.length l1) + 1) = Some b.
Proof.
  rewrite js_get_nat by lia.
  replace (Z.to_nat (Z.of_nat (List.length l1) + 1)) with (S (List.length l1)) by lia.
  rewrite nth_error_app2 by lia.
  replace (S (List.length l1) - List.length l1)%nat with 1%nat by lia. reflexivity.
Qed.

Lemma items_all_items annotations areas :
  items annotations areas = sort_items (all_items annotations areas).
Proof. reflexivity. Qed.

Lemma NoDup_map_eq {A B : Type} (f : A -> B) l a b :
  NoDup (map f l) -> In a l -> In b l -> f a = f b -> a = b.
Proof.
  induction l as [|c l IH]; intros Hn Ha Hb Hf; [contradiction|].
  cbn [map] in Hn. inversion Hn as [|? ? Hc Hl]; subst.
  destruct Ha as [-> | Ha], Hb as [-> | Hb]; try reflexivity.
  - exfalso. apply Hc. rewrite Hf. now apply in_map.
  - exfalso. apply Hc. rewrite <- Hf. now apply in_map.
  - now apply IH.
Qed.

Lemma with_item_order_same i : with_item_order i (item_order i) = i.
Proof. now destruct i as [[] | []]. Qed.

Lemma item_id_with_order i o : item_id (with_item_order i o) = item_id i.
Proof. now destruct i. Qed.

Lemma item_order_with_order i o : item_order (with_item_order i o) = o.
Proof. now destruct i. Qed.

(** [updateOrder] seen on the items, when ids are unique. *)
Lemma updateOrder_all_items X o annotations areas :
  NoDup (map item_id (all_items annotations areas)) ->
  In X (all_items annotations areas) ->
  all_items (fst (updateOrder X o (annotations, areas)))
            (snd (updateOrder X o (annotations, areas)))
  = map (fun i => if String.eqb (item_id i) (item_id X)
                  then with_item_order i o else i)
        (all_items annotations areas).
Proof.
  intros Hn HX. unfold all_items in *. rewrite map_app, !map_map.
  assert (Hother : forall i, In i (map IAnnotation annotations ++ map IArea areas) ->
            item_id i = item_id X -> i = X).
  { intros i Hi Hid. now apply (NoDup_map_eq item_id _ i X Hn). }
  destruct X as [it | it]; cbn [updateOrder fst snd item_id]; rewrite map_map;
    f_equal; apply map_ext_in; intros a Ha; cbn [item_id].
  - now destruct (String.eqb (ann_id a) (ann_id it)).
  - destruct (String.eqb_spec (area_id a) (ann_id it)) as [E | _]; [|reflexivity].
    exfalso. assert (IArea a = IAnnotation it); [|discriminate].
    apply Hother; [|exact E]. apply in_or_app. right. now apply in_map.
  - destruct (String.eqb_spec (ann_id a) (area_id it)) as [E | _]; [|reflexivity].
    exfalso. assert (IAnnotation a = IArea it); [|discriminate].
    apply Hother; [|exact E]. apply in_or_app. left. now apply in_map.
  - now destruct (String.eqb (area_id a) (area_id it)).
Qed.

Lemma exchange_all_items X Y annotations areas :
  NoDup (map item_id (all_items annotations areas)) ->
  In X (all_items annotations areas) -> In Y (all_items annotations areas) ->
  item_id X <> item_id Y ->
  let st := updateOrder Y (item_order X)
              (updateOrder X (item_order Y) (annotations, areas)) in
  all_items (fst st) (snd st) = map (exchange X Y) (all_items annotations areas).
Proof.
  intros Hn HX HY Hne st. unfold st.
  pose proof (updateOrder_all_items X (item_order Y) annotations areas Hn HX) as H1.
  set (st1 := updateOrder X (item_order Y) (annotations, areas)) in *.
  assert (Hst1 : st1 = (fst st1, snd st1)) by now destruct st1.
  rewrite Hst1.
  assert (Hids : map item_id (all_items (fst st1) (snd st1))
                 = map item_id (all_items annotations areas)).
  { rewrite H1, map_map. apply map_ext. intros i.
    destruct (String.eqb _ _); [apply item_id_with_order | reflexivity]. }
  rewrite updateOrder_all_items.
  - rewrite H1, map_map. apply map_ext. intros i. unfold exchange.
    destruct (String.eqb_spec (item_id i) (item_id X)) as [E | E].
    + rewrite item_id_with_order.
      destruct (String.eqb_spec (item_id i) (item_id Y)); [congruence | reflexivity].
    + reflexivity.
  - now rewrite Hids.
  - rewrite H1. apply in_map_iff. exists Y. split; [|assumption].
    destruct (String.eqb_spec (item_id Y) (item_id X)); [congruence | reflexivity].
Qed.

Lemma NoDup_neighbours {A B : Type} (f : A -> B) l1 a b l2 :
  NoDup (map f (l1 ++ a :: b :: l2)) ->
  f a <> f b /\ Forall (fun i => f i <> f a /\ f i <> f b) (l1 ++ l2).
Proof.
  rewrite map_app. cbn [map]. intros Hn.
  apply NoDup_remove in Hn. destruct Hn as [Hn Ha].
  apply NoDup_remove in Hn. destruct Hn as [_ Hb]. split.
  - intros E. apply Ha. apply in_or_app. right. left. now symmetry.
  - apply Forall_forall. intros i Hi. split; intros E.
    + apply Ha. rewrite <- E. apply in_app_iff in Hi. apply in_or_app.
      destruct Hi as [Hi | Hi]; [left | right; right]; now apply in_map.
    + apply Hb. rewrite <- E, <- map_app. now apply in_map.
Qed.

Lemma exchange_neighbours X Y l1 A B l2 :
  (X = A /\ Y = B) \/ (X = B /\ Y = A) ->
  NoDup (map item_id (l1 ++ A :: B :: l2)) ->
  map (exchange X Y) (l1 ++ A :: B :: l2)
  = l1 ++ with_item_order A (item_order B)
       :: with_item_order B (item_order A) :: l2.
Proof.
  intros HXY Hn. apply NoDup_neighbours in Hn. destruct Hn as [Hab Hall].
  apply Forall_app in Hall. destruct Hall as [H1 H2].
  assert (Hid : forall l, Forall (fun i => item_id i <> item_id A
                                           /\ item_id i <> item_id B) l ->
                          map (exchange X Y) l = l).
  { induction 1 as [|i l [Hi1 Hi2] _ IH]; [reflexivity|]. cbn [map].
    rewrite IH. f_equal. unfold exchange.
    destruct HXY as [[-> ->] | [-> ->]];
      destruct (String.eqb_spec (item_id i) (item_id A));
      destruct (String.eqb_spec (item_id i) (item_id B)); congruence. }
  rewrite map_app. cbn [map]. rewrite !Hid by assumption. f_equal.
  unfold exchange. destruct HXY as [[-> ->] | [-> ->]];
    repeat match goal with
           | |- context [String.eqb ?a ?b] => destruct (String.eqb_spec a b)
           end; congruence.
Qed.

Lemma sorted_items_swap l1 : forall A B l2 A' B',
  sorted_items (l1 ++ A :: B :: l2) ->
  item_order B' = item_order A -> item_order A' = item_order B ->
  sorted_items (l1 ++ B' :: A' :: l2).
Proof.
  unfold sorted_items. induction l1 as [|c l1 IH]; intros A B l2 A' B' Hs HB HA.
  - cbn [app] in *. inversion Hs as [|? ? HAall Hs1]; subst.
    inversion Hs1 as [|? ? HBall Hs2]; subst.
    inversion HAall as [|? ? HAB HAl2]; subst.
    constructor; [|constructor; [|assumption]].
    + constructor; [lra|]. eapply Forall_impl; [|exact HAl2]. cbn beta.
      intros k Hk. lra.
    + eapply Forall_impl; [|exact HBall]. cbn beta. intros k Hk. lra.
  - cbn [app] in *. inversion Hs as [|? ? Hc Hs1]; subst. constructor.
    + apply Forall_app in Hc. destruct Hc as [Hc1 Hc2].
      inversion Hc2 as [|? ? HcA Hc3]; subst. inversion Hc3 as [|? ? HcB Hc4]; subst.
      apply Forall_app. split; [assumption|].
      constructor; [lra|]. constructor; [lra | assumption].
    + now apply (IH A B).
Qed.

Lemma reorder_exchange X Y annotations areas l1 A B l2 :
  (X = A /\ Y = B) \/ (X = B /\ Y = A) ->
  items annotations areas = l1 ++ A :: B :: l2 ->
  NoDup (map item_id (items annotations areas)) ->
  NoDup (map item_order (items annotations areas)) ->
  let st := updateOrder Y (item_order X)
              (updateOrder X (item_order Y) (annotations, areas)) in
  items (fst st) (snd st)
  = l1 ++ with_item_order B (item_order A)
       :: with_item_order A (item_order B) :: l2.
Proof.
  intros HXY HL Hid Hord st.
  pose proof (sort_items_perm (all_items annotations areas)) as Hp.
  rewrite <- items_all_items, HL in Hp. rewrite HL in Hid, Hord.
  assert (HidU : NoDup (map item_id (all_items annotations areas)))
    by (apply (Permutation_NoDup (Permutation_map item_id Hp) Hid)).
  assert (HA : In A (all_items annotations areas))
    by (apply (Permutation_in _ Hp), in_or_app; right; now left).
  assert (HB : In B (all_items annotations areas))
    by (apply (Permutation_in _ Hp), in_or_app; right; right; now left).
  destruct (NoDup_neighbours item_id _ _ _ _ Hid) as [Hab _].
  rewrite items_all_items. unfold st. rewrite exchange_all_items; try assumption.
  2,3,4: destruct HXY as [[-> ->] | [-> ->]]; try assumption; congruence.
  pose proof (exchange_neighbours X Y l1 A B l2 HXY Hid) as Hex.
  assert (Hpe : Permutation
                  (l1 ++ with_item_order B (item_order A)
                      :: with_item_order A (item_order B) :: l2)
                  (map (exchange X Y) (all_items annotations areas))).
  { rewrite <- (Permutation_map (exchange X Y) Hp), Hex.
    apply Permutation_app_head, perm_swap. }
  apply sort_items_unique.
  - apply (sorted_items_swap l1 A B l2).
    + rewrite <- HL. apply sort_items_sorted.
    + apply item_order_with_order.
    + apply item_order_with_order.
  - exact Hpe.
  - apply (Permutation_NoDup (Permutation_map item_order Hpe)).
    rewrite map_app. cbn [map]. rewrite !item_order_with_order.
    rewrite map_app in Hord. exact Hord.
Qed.

(** X18: with unique ids and distinct order keys, "move down" on an item
    and "move up" on the one after it both exchange the two items in the
    timeline, the order keys staying where they were, and leave every other
    item in place. *)
Theorem reorder_swaps_neighbours
    (id : string) (annotations : list Annotation) (areas : list Area)
    (l1 l2 : list Item) (A B : Item) :
  items annotations areas = l1 ++ A :: B :: l2 ->
  NoDup (map item_id (items annotations areas)) ->
  NoDup (map item_order (items annotations areas)) ->
  let swapped := l1 ++ with_item_order B (item_order A)
                    :: with_item_order A (item_order B) :: l2 in
  (item_id A = id ->
     items (fst (reorder id Down annotations areas))
           (snd (reorder id Down annotations areas)) = swapped)
  /\ (item_id B = id ->
      items (fst (reorder id Up annotations areas))
            (snd (reorder id Up annotations areas)) = swapped).
Proof.
  intros HL Hid Hord swapped.
  pose proof Hid as Hid'. rewrite HL in Hid'.
  destruct (NoDup_neighbours item_id _ _ _ _ Hid') as [Hab Hall].
  apply Forall_app in Hall. destruct Hall as [H1 _].
  assert (Hlen : List.length (l1 ++ A :: B :: l2)
                 = (List.length l1 + 2 + List.length l2)%nat)
    by (rewrite length_app; cbn [List.length]; lia).
  split; intros Hthis; unfold reorder; rewrite HL.
  - rewrite (findIndex_from_first _ l1 A (B :: l2)).
    + cbn [Z.add]. destruct (Z.eqb_spec (Z.of_nat (List.length l1)) (-1)); [lia|].
      destruct (Z.ltb_spec (Z.of_nat (List.length l1) + 1) 0); [lia|].
      destruct (Z.geb_spec (Z.of_nat (List.length l1) + 1)
                  (Z.of_nat (List.length (l1 ++ A :: B :: l2)))); [lia|].
      cbn [orb]. rewrite js_get_middle, js_get_middle_next.
      apply (reorder_exchange A B annotations areas l1 A B l2); auto.
    + eapply Forall_impl; [|exact H1]. cbn beta. intros i [Hi _].
      apply String.eqb_neq. congruence.
    + apply String.eqb_eq. assumption.
  - replace (l1 ++ A :: B :: l2) with ((l1 ++ [A]) ++ B :: l2)
      by (rewrite <- app_assoc; reflexivity).
    rewrite (findIndex_from_first _ (l1 ++ [A]) B l2).
    + rewrite length_app. cbn [List.length Z.add].
      replace (Z.of_nat (List.length l1 + 1)) with (Z.of_nat (List.length l1) + 1)%Z
        by lia.
      destruct (Z.eqb_spec (Z.of_nat (List.length l1) + 1) (-1)); [lia|].
      replace (Z.of_nat (List.length l1) + 1 - 1)%Z
        with (Z.of_nat (List.length l1)) by lia.
      destruct (Z.ltb_spec (Z.of_nat (List.length l1)) 0); [lia|].
      rewrite <- app_assoc. cbn [app].
      destruct (Z.geb_spec (Z.of_nat (List.length l1))
                  (Z.of_nat (List.length (l1 ++ A :: B :: l2)))); [lia|].
      cbn [orb]. rewrite js_get_middle, js_get_middle_next.
      apply (reorder_exchange B A annotations areas l1 A B l2); auto.
    + apply Forall_app. split.
      * eapply Forall_impl; [|exact H1]. cbn beta. intros i [_ Hi].
        apply String.eqb_neq. congruence.
      * constructor; [|constructor]. apply String.eqb_neq. congruence.
    + apply String.eqb_eq. assumption.
Qed.

Lemma updateOrder_same X annotations areas :
  NoDup (map item_id (all_items annotations areas)) ->
  In X (all_items annotations areas) ->
  updateOrder X (item_order X) (annotations, areas) = (annotations, areas).
Proof.
  intros Hn HX.
  assert (Hother : forall i, In i (all_items annotations areas) ->
            item_id i = item_id X -> i = X).
  { intros i Hi Hid. now apply (NoDup_map_eq item_id _ i X Hn). }
  destruct X as [it | it]; cbn [updateOrder fst snd item_order]; f_equal;
    rewrite <- map_id; apply map_ext_in; intros a Ha.
  - destruct (String.eqb_spec (ann_id a) (ann_id it)) as [E | _]; [|reflexivity].
    assert (Hai : IAnnotation a = IAnnotation it).
    { apply Hother; [|exact E]. apply in_or_app. left. now apply in_map. }
    injection Hai as ->. now destruct it.
  - destruct (String.eqb_spec (area_id a) (area_id it)) as [E | _]; [|reflexivity].
    assert (Hai : IArea a = IArea it).
    { apply Hother; [|exact E]. apply in_or_app. right. now apply in_map. }
    injection Hai as ->. now destruct it.
Qed.

(** X19: [reorder] changes nothing when no item has the id, when the first
    item is moved up or the last one down, and, ids being unique, when the
    item and the neighbour it would be exchanged with have the same [order]:
    a tie cannot be broken with the arrows. *)
Theorem reorder_changes_nothing
    (id : string) (annotations : list Annotation) (areas : list Area) :
  (Forall (fun i => item_id i <> id) (items annotations areas) ->
   forall direction,
     reorder id direction annotations areas = (annotations, areas))
  /\ (forall first rest,
        items annotations areas = first :: rest -> item_id first = id ->
        reorder id Up annotations areas = (annotations, areas))
  /\ (forall front last,
        items annotations areas = front ++ [last] ->
        Forall (fun i => item_id i <> id) front -> item_id last = id ->
        reorder id Down annotations areas = (annotations, areas))
  /\ (forall l1 A B l2,
        items annotations areas = l1 ++ A :: B :: l2 ->
        NoDup (map item_id (items annotations areas)) ->
        item_order A = item_order B ->
        (item_id A = id ->
           reorder id Down annotations areas = (annotations, areas))
        /\ (item_id B = id ->
            reorder id Up annotations areas = (annotations, areas))).
Proof.
  assert (Hneq : forall l, Forall (fun i => item_id i <> id) l ->
            Forall (fun i => String.eqb (item_id i) id = false) l).
  { intros l H. eapply Forall_impl; [|exact H]. cbn beta. intros i Hi.
    now apply String.eqb_neq. }
  split; [|split; [|split]].
  - intros Hall direction. unfold reorder.
    now rewrite (findIndex_from_none _ _ 0 (Hneq _ Hall)).
  - intros first rest HL Hid. unfold reorder. rewrite HL.
    cbn [findIndex_from]. rewrite (proj2 (String.eqb_eq _ _) Hid). reflexivity.
  - intros front last HL Hfront Hid. unfold reorder. rewrite HL.
    rewrite (findIndex_from_first _ front last [] 0 (Hneq _ Hfront)
               (proj2 (String.eqb_eq _ _) Hid)).
    cbn [Z.add]. destruct (Z.eqb_spec (Z.of_nat (List.length front)) (-1)); [lia|].
    rewrite length_app. cbn [List.length].
    destruct (Z.ltb_spec (Z.of_nat (List.length front) + 1) 0); [lia|].
    destruct (Z.geb_spec (Z.of_nat (List.length front) + 1)
                (Z.of_nat (List.length front + 1))); [reflexivity | lia].
  - intros l1 A B l2 HL Hid Htie.
    pose proof (sort_items_perm (all_items annotations areas)) as Hp.
    rewrite <- items_all_items, HL in Hp.
    pose proof Hid as Hid'. rewrite HL in Hid'.
    assert (HidU : NoDup (map item_id (all_items annotations areas)))
      by (apply (Permutation_NoDup (Permutation_map item_id Hp) Hid')).
    assert (HA : In A (all_items annotations areas))
      by (apply (Permutation_in _ Hp), in_or_app; right; now left).
    assert (HB : In B (all_items annotations areas))
      by (apply (Permutation_in _ Hp), in_or_app; right; right; now left).
    destruct (NoDup_neighbours item_id _ _ _ _ Hid') as [Hab Hall].
    apply Forall_app in Hall. destruct Hall as [H1 _].
    assert (Hlen : List.length (l1 ++ A :: B :: l2)
                   = (List.length l1 + 2 + List.length l2)%nat)
      by (rewrite length_app; cbn [List.length]; lia).
    split; intros Hthis; unfold reorder; rewrite HL.
    + rewrite (findIndex_from_first _ l1 A (B :: l2)).
      * cbn [Z.add]. destruct (Z.eqb_spec (Z.of_nat (List.length l1)) (-1)); [lia|].
        destruct (Z.ltb_spec (Z.of_nat (List.length l1) + 1) 0); [lia|].
        destruct (Z.geb_spec (Z.of_nat (List.length l1) + 1)
                    (Z.of_nat (List.length (l1 ++ A :: B :: l2)))); [lia|].
        cbn [orb]. rewrite js_get_middle, js_get_middle_next.
        rewrite <- Htie, (updateOrder_same A) by assumption.
        rewrite Htie. now apply updateOrder_same.
      * apply Hneq. eapply Forall_impl; [|exact H1]. cbn beta.
        intros i [Hi _]. congruence.
      * now apply String.eqb_eq.
    + replace (l1 ++ A :: B :: l2) with ((l1 ++ [A]) ++ B :: l2)
        by (rewrite <- app_assoc; reflexivity).
      rewrite (findIndex_from_first _ (l1 ++ [A]) B l2).
      * rewrite length_app. cbn [List.length Z.add].
        replace (Z.of_nat (List.length l1 + 1))
          with (Z.of_nat (List.length l1) + 1)%Z by lia.
        destruct (Z.eqb_spec (Z.of_nat (List.length l1) + 1) (-1)); [lia|].
        replace (Z.of_nat (List.length l1) + 1 - 1)%Z
          with (Z.of_nat (List.length l1)) by lia.
        destruct (Z.ltb_spec (Z.of_nat (List.length l1)) 0); [lia|].
        rewrite <- app_assoc. cbn [app].
        destruct (Z.geb_spec (Z.of_nat (List.length l1))
                    (Z.of_nat (List.length (l1 ++ A :: B :: l2)))); [lia|].
        cbn [orb]. rewrite js_get_middle, js_get_middle_next.
        rewrite Htie, (updateOrder_same B) by assumption.
        rewrite <- Htie. now apply updateOrder_same.
      * apply Hneq. apply Forall_app. split.
        -- eapply Forall_impl; [|exact H1]. cbn beta. intros i [_ Hi]. congruence.
        -- constructor; [congruence | constructor].
      * now apply String.eqb_eq.
Qed.

(** * Adding an annotation *)

Lemma insert_item_last x l :
  Forall (fun j => item_order j < item_order x) l -> insert_item x l = l ++ [x].
Proof.
  induction 1 as [|j l Hj _ IH]; [reflexivity|]. cbn [insert_item].
  rewrite (proj2 (Rltb_true _ _) Hj), IH. reflexivity.
Qed.

Lemma insert_item_before_last a x l :
  item_order a < item_order x ->
  insert_item a (l ++ [x]) = insert_item a l ++ [x].
Proof.
  intros Hax. induction l as [|j l IH]; cbn [app insert_item].
  - now rewrite (proj2 (Rltb_false (item_order x) (item_order a))) by lra.
  - destruct (Rltb (item_order j) (item_order a)); [|reflexivity].
    now rewrite IH.
Qed.

Lemma sort_items_latest x l1 l2 :
  Forall (fun j => item_order j < item_order x) (l1 ++ l2) ->
  sort_items (l1 ++ x :: l2) = sort_items (l1 ++ l2) ++ [x].
Proof.
  induction l1 as [|a l1 IH]; intros H; cbn [app sort_items].
  - apply insert_item_last. apply Forall_forall. intros j Hj.
    apply (proj1 (sort_items_In _ _)) in Hj. cbn [app] in H.
    rewrite Forall_forall in H. now apply H.
  - cbn [app] in H. inversion H as [|? ? Ha Hl]; subst.
    rewrite IH by assumption. now apply insert_item_before_last.
Qed.

(** X20: when every item has an [order] below the number of items plus
    one (as when items have only been added), a new annotation is scheduled
    last: the loop runs as before and then takes the new annotation, whose
    draw and wait durations are the defaults of the moment. *)
Theorem handleAddAnnotation_schedules_last
    (points : list Point) (annotations : list Annotation) (areas : list Area)
    (s : AppSettings) (newId : string) (pointIndex : Z) :
  Forall (fun i => item_order i
                   < INR (List.length annotations + List.length areas + 1))
         (all_items annotations areas) ->
  let annotations' := handleAddAnnotation newId pointIndex annotations areas s in
  let new := new_annotation newId pointIndex annotations areas s in
  annotations' = annotations ++ [new]
  /\ items annotations' areas = items annotations areas ++ [IAnnotation new]
  /\ after_items points annotations' areas s
     = step (pathData points) s (after_items points annotations areas s)
            (IAnnotation new).
Proof.
  intros H annotations' new.
  assert (Hi : items annotations' areas
               = items annotations areas ++ [IAnnotation new]).
  { unfold items, annotations', handleAddAnnotation. fold new.
    rewrite map_app, <- app_assoc. cbn [map app].
    apply (sort_items_latest (IAnnotation new)). exact H. }
  split; [reflexivity|]. split; [exact Hi|].
  unfold after_items. rewrite Hi, run_app. reflexivity.
Qed.

(** * The flash prefix *)

(** X21: with the flash enabled, the resolver shows the flashing rest
    state (distance 0, nothing revealed) before [flashDuration]; from
    [flashDuration] on it shows what it shows without flash
    [flashDuration] seconds earlier. *)
Theorem flash_shifts_the_timeline
    (s : AppSettings) (tl : Timeline) (pd : PathData) (time : R) :
  enableFlash s = true ->
  (time < flashDuration s ->
     getAnimationState s tl pd time = rest_state true)
  /\ (flashDuration s <= time ->
      getAnimationState s tl pd time
      = getAnimationState (without_flash s) tl pd (time - flashDuration s)).
Proof.
  intros Hf. unfold getAnimationState, effectiveTime_of.
  rewrite Hf. cbn [without_flash enableFlash andb]. split; intros Ht.
  - now rewrite (proj2 (Rltb_true _ _) Ht).
  - now rewrite (proj2 (Rltb_false _ _) Ht).
Qed.

(** * Revealed from the start of the event *)

Lemma active_is_found t0 l t1 t e :
  chained t0 l t1 -> Forall (fun e => 0 <= duration e) l ->
  In e l -> is_active t e = true -> find (is_active t) l = Some e.
Proof.
  induction 1 as [t' | e0 l t' H IH]; intros Hd Hin Hact; [contradiction|].
  inversion Hd as [|? ? Hd0 Hdl]; subst. cbn [find].
  destruct (is_active t e0) eqn:E0.
  - destruct Hin as [-> | Hin]; [reflexivity|]. exfalso.
    destruct (chained_bounds _ _ _ H Hdl) as [_ Hb].
    rewrite Forall_forall in Hb. specialize (Hb e Hin). cbn beta in Hb.
    apply is_active_spec in E0, Hact. lra.
  - destruct Hin as [-> | Hin]; [congruence|]. now apply IH.
Qed.

(** X22: an item is revealed exactly from the start of its event: when no
    duration is negative and the effective time is not negative, an id is
    among the revealed annotations if and only if it is the non-empty id of
    a wait event that has started, and among the revealed areas if and only
    if it is that of an area event that has started. *)
Theorem revealed_from_event_start
    (points : list Point) (annotations : list Annotation) (areas : list Area)
    (s : AppSettings) (time : R) (i : string) :
  durations_nonneg annotations areas s ->
  0 <= effectiveTime_of s time ->
  let state := visualState points annotations areas s time in
  let started ty :=
    i <> EmptyString
    /\ exists e, In e (tl_schedule (timeline points annotations areas s))
                 /\ type e = ty /\ itemId e = Some i
                 /\ startTime e <= effectiveTime_of s time in
  (In i (activeAnnotationIds state) <-> started Wait)
  /\ (In i (visibleAreaIds state) <-> started AreaEv).
Proof.
  intros Hn H0 state started. unfold state, visualState.
  set (tl := timeline points annotations areas s) in *.
  set (eff := effectiveTime_of s time) in *.
  pose proof (timeline_chained points annotations areas s) as Hch.
  pose proof (timeline_durations points _ _ _ Hn) as Hdur.
  fold tl in Hch, Hdur.
  assert (Hty : forall ty, In i (revealed ty (tl_schedule tl) eff) <-> started ty).
  { intros ty. unfold started. split.
    - intros Hi. apply revealed_In in Hi. destruct Hi as (e & Hid & He).
      apply id_if_In in Hid. destruct Hid as (Ht & Hid & Hne).
      split; [assumption|]. exists e.
      rewrite Forall_forall in Hdur.
      destruct He as [[Hin Hp] | Hf].
      + specialize (Hdur e Hin). cbn beta in Hdur. apply is_passed_spec in Hp.
        repeat split; try assumption. lra.
      + apply find_some in Hf. destruct Hf as [Hin Hact].
        apply is_active_spec in Hact. repeat split; try assumption. lra.
    - intros (Hne & e & Hin & Ht & Hid & Hs).
      destruct (Rle_dec (startTime e + duration e) eff) as [Hp | Hnp].
      + apply (passed_is_revealed ty _ _ e); try assumption.
        now apply is_passed_spec.
      + apply revealed_In. exists e. split.
        * unfold id_if. rewrite Ht, Hid, (truthy_id_some i Hne).
          destruct ty; now left.
        * right. apply (active_is_found 0 _ (totalDuration tl)); try assumption.
          apply is_active_spec. lra. }
  destruct (getAnimationState_cases s tl (pathData points) time)
    as [(_ & Hf & Hlt) | [(_ & Hneg) | (-> & _)]].
  - exfalso. unfold eff, effectiveTime_of in H0. rewrite Hf in H0. lra.
  - exfalso. fold eff in Hneg. lra.
  - cbn [activeAnnotationIds visibleAreaIds]. fold eff.
    split; apply Hty.
Qed.

(** * The further properties on concrete inputs *)

Lemma boundary_durations_nonneg :
  durations_nonneg [boundary_annotation "a" 1] [] boundary_settings.
Proof.
  unfold durations_nonneg, defaults_nonneg.
  repeat split; try constructor; cbn; try constructor; lra.
Qed.

Lemma boundary_valid_anchors :
  valid_anchors boundary_points [boundary_annotation "a" 1].
Proof. constructor; [cbn; lia | constructor]. Qed.

Lemma NoDup_two {A : Type} (a b : A) : a <> b -> NoDup [a; b].
Proof.
  intros H. constructor; [intros [E | []]; congruence|].
  constructor; [intros [] | constructor].
Qed.

Lemma playback_stops_on_finished_state_witness :
  let anns := [boundary_annotation "a" 1] in
  let tl := timeline boundary_points anns [] boundary_settings in
  let state := visualState boundary_points anns [] boundary_settings
                 (fst (tick boundary_settings tl 5 2)) in
  durations_nonneg anns [] boundary_settings
  /\ snd (tick boundary_settings tl 5 2) = false
  /\ enableFlash boundary_settings = false
  /\ fst (tick boundary_settings tl 5 2) <= totalTime boundary_settings tl
  /\ fst (tick boundary_settings tl 5 2) = totalDuration tl
  /\ currentDistance state = Some (totalLength (pathData boundary_points))
  /\ isFlashing state = false
  /\ In "a"%string (activeAnnotationIds state).
Proof.
  intros anns tl state.
  assert (Hstop : snd (tick boundary_settings tl 5 2) = false).
  { unfold tl, anns, tick, totalTime, flashOffset.
    rewrite (boundary_timeline "a" 1 boundary_settings eq_refl).
    cbn [totalDuration enableFlash boundary_settings]. Rdecide. reflexivity. }
  destruct (playback_stops_on_finished_state boundary_points anns []
              boundary_settings 5 2 boundary_durations_nonneg) as [Hle Hfin].
  destruct (Hfin Hstop) as [_ Hoff].
  destruct (Hoff eq_refl) as (Htd & Hd & Hf & Ha & _).
  split; [exact boundary_durations_nonneg|]. split; [exact Hstop|].
  split; [reflexivity|]. split; [exact Hle|]. split; [exact Htd|].
  split; [exact Hd|]. split; [exact Hf|].
  apply (Ha (boundary_annotation "a" 1)); [now left | discriminate].
Defined.

Lemma distance_never_decreases_witness :
  let anns := [boundary_annotation "a" 1] in
  durations_nonneg anns [] boundary_settings
  /\ 1 <= 2
  /\ effectiveTime_of boundary_settings 2
     < totalDuration (timeline boundary_points anns [] boundary_settings)
  /\ exists d1 d2,
       currentDistance (visualState boundary_points anns [] boundary_settings 1)
       = Some d1
       /\ currentDistance (visualState boundary_points anns [] boundary_settings 2)
          = Some d2
       /\ d1 <= d2.
Proof.
  intros anns.
  assert (H12 : 1 <= 2) by lra.
  assert (Hend : effectiveTime_of boundary_settings 2
                 < totalDuration (timeline boundary_points anns [] boundary_settings)).
  { unfold anns. rewrite (boundary_timeline "a" 1 boundary_settings eq_refl).
    cbn. lra. }
  split; [exact boundary_durations_nonneg|]. split; [exact H12|].
  split; [exact Hend|].
  exact (distance_never_decreases boundary_points anns [] boundary_settings 1 2
           boundary_durations_nonneg H12 Hend).
Defined.


Lemma arrowLeft_moves_back_witness :
  let tl := {| tl_schedule := [ev Draw 0 2 0 10 None;
                               ev Wait 2 1 10 10 (Some "a"%string);
                               ev Draw 3 3 10 20 None];
               totalDuration := 6 |} in
  let r := arrowLeft boundary_settings tl 3 in
  0 <= 3
  /\ enableFlash boundary_settings = false
  /\ r <= 3
  /\ r < 3
  /\ exists ev, In ev (tl_schedule tl)
                /\ r = startTime ev
                /\ effectiveTime_of boundary_settings r = startTime ev.
Proof.
  intros tl r. assert (H : 0 <= 3) by lra.
  assert (Hr : r = 2).
  { unfold r, tl, arrowLeft, effectiveTime_of, flashOffset, is_active, ev, js_get.
    repeat (progress (simpl; Rdecide)). lra. }
  destruct (arrowLeft_moves_back boundary_settings tl 3 H)
    as [Hb [Hzero | [Hlt Hev]]].
  - exfalso. fold r in Hzero. rewrite Hr in Hzero. lra.
  - split; [exact H|]. split; [reflexivity|]. split; [exact Hb|].
    split; [exact Hlt|]. exact (Hev eq_refl).
Defined.

Lemma handleAddPoint_keeps_anchors_witness :
  let anns := [boundary_annotation "a" 1] in
  (0 <= 1 <= Z.of_nat (List.length boundary_points))%Z
  /\ map (anchor (fst (handleAddPoint (pt 5 0) (Some 1%Z) boundary_points anns)))
         (snd (handleAddPoint (pt 5 0) (Some 1%Z) boundary_points anns))
     = map (anchor boundary_points) anns.
Proof.
  intros anns.
  assert (H : (0 <= 1 <= Z.of_nat (List.length boundary_points))%Z) by (cbn; lia).
  split; [exact H|].
  exact (proj1 (proj2 (proj2
           (handleAddPoint_keeps_anchors (pt 5 0) 1 boundary_points anns H)))).
Defined.

Lemma handleDeletePoint_keeps_anchors_witness :
  let anns := [boundary_annotation "a" 1] in
  (0 <= 0)%Z
  /\ map (anchor (fst (handleDeletePoint 0 boundary_points anns)))
         (snd (handleDeletePoint 0 boundary_points anns))
     = map (anchor boundary_points)
           (filter (fun a => negb (pathIndex a =? 0)%Z) anns).
Proof.
  intros anns. split; [lia|].
  exact (proj1 (proj2
           (handleDeletePoint_keeps_anchors 0 boundary_points anns (Z.le_refl 0)))).
Defined.

Lemma handleDeletePoint_undoes_handleAddPoint_witness :
  let anns := [boundary_annotation "a" 1] in
  let added := handleAddPoint (pt 5 0) (Some 1%Z) boundary_points anns in
  (0 <= 1 <= Z.of_nat (List.length boundary_points))%Z
  /\ handleDeletePoint 1 (fst added) (snd added) = (boundary_points, anns).
Proof.
  intros anns added.
  assert (H : (0 <= 1 <= Z.of_nat (List.length boundary_points))%Z) by (cbn; lia).
  split; [exact H|].
  exact (handleDeletePoint_undoes_handleAddPoint (pt 5 0) 1 boundary_points anns H).
Defined.

Lemma editing_keeps_anchors_valid_witness :
  let anns := [boundary_annotation "a" 1] in
  valid_anchors boundary_points anns
  /\ valid_anchors (fst (handleDeletePoint 0 boundary_points anns))
                   (snd (handleDeletePoint 0 boundary_points anns)).
Proof.
  intros anns. split; [exact boundary_valid_anchors|].
  exact (proj1 (proj2 (proj2
           (editing_keeps_anchors_valid boundary_points anns boundary_valid_anchors)))
           0%Z (Z.le_refl 0)).
Defined.

Lemma editing_keeps_anchors_distinct_witness :
  let anns := [plain_annotation "a" 2 1; plain_annotation "b" 0 2] in
  distinct_anchors anns
  /\ distinct_anchors (snd (handleDeletePoint 1 boundary_points anns)).
Proof.
  intros anns.
  assert (H : distinct_anchors anns) by (apply NoDup_two; discriminate).
  split; [exact H|].
  exact (proj1 (proj2 (editing_keeps_anchors_distinct boundary_points anns H)) 1%Z).
Defined.

Lemma handleCanvasClick_inserts_on_segment_witness :
  let anns := [boundary_annotation "a" 1] in
  valid_anchors boundary_points anns
  /\ map (anchor (fst (handleCanvasClick (pt 5 0) boundary_points anns)))
         (snd (handleCanvasClick (pt 5 0) boundary_points anns))
     = map (anchor boundary_points) anns.
Proof.
  intros anns. split; [exact boundary_valid_anchors|].
  exact (proj1 (handleCanvasClick_inserts_on_segment (pt 5 0) boundary_points anns
                  boundary_valid_anchors)).
Defined.

Lemma timeline_ignores_array_order_witness :
  let a1 := plain_annotation "a" 2 1 in
  let a2 := plain_annotation "b" 0 2 in
  Permutation [a1; a2] [a2; a1]
  /\ Permutation (@nil Area) []
  /\ NoDup (map ann_order [a1; a2] ++ map area_order [])
  /\ timeline boundary_points [a1; a2] [] initial_settings
     = timeline boundary_points [a2; a1] [] initial_settings.
Proof.
  intros a1 a2.
  assert (Hp : Permutation [a1; a2] [a2; a1]) by apply perm_swap.
  assert (Hn : NoDup (map ann_order [a1; a2] ++ map area_order []))
    by (apply NoDup_two; cbn; lra).
  split; [exact Hp|]. split; [apply perm_nil|]. split; [exact Hn|].
  exact (timeline_ignores_array_order boundary_points [a1; a2] [a2; a1] [] []
           initial_settings Hp (perm_nil Area) Hn).
Defined.

Lemma reorder_swaps_neighbours_witness :
  let a1 := plain_annotation "a" 2 1 in
  let a2 := plain_annotation "b" 0 2 in
  items [a1; a2] [] = [] ++ IAnnotation a1 :: IAnnotation a2 :: []
  /\ NoDup (map item_id (items [a1; a2] []))
  /\ NoDup (map item_order (items [a1; a2] []))
  /\ items (fst (reorder "a" Down [a1; a2] [])) (snd (reorder "a" Down [a1; a2] []))
     = [IAnnotation (with_ann_order a2 1); IAnnotation (with_ann_order a1 2)].
Proof.
  intros a1 a2.
  assert (Hi : items [a1; a2] [] = [] ++ IAnnotation a1 :: IAnnotation a2 :: [])
    by (apply items_two; cbn; lra).
  assert (Hid : NoDup (map item_id (items [a1; a2] [])))
    by (rewrite Hi; apply NoDup_two; discriminate).
  assert (Hord : NoDup (map item_order (items [a1; a2] [])))
    by (rewrite Hi; apply NoDup_two; cbn; lra).
  split; [exact Hi|]. split; [exact Hid|]. split; [exact Hord|].
  exact (proj1 (reorder_swaps_neighbours "a" [a1; a2] [] [] []
                  (IAnnotation a1) (IAnnotation a2) Hi Hid Hord) eq_refl).
Defined.

Lemma handleAddAnnotation_schedules_last_witness :
  let anns := [boundary_annotation "a" 1] in
  let areas := [ {| area_id := "z"; area_order := 2; appearDuration := None |} ] in
  let anns' := handleAddAnnotation "b" 2 anns areas boundary_settings in
  let new := new_annotation "b" 2 anns areas boundary_settings in
  Forall (fun i => item_order i
                   < INR (List.length anns + List.length areas + 1))
         (all_items anns areas)
  /\ anns' = anns ++ [new]
  /\ items anns' areas = items anns areas ++ [IAnnotation new]
  /\ after_items boundary_points anns' areas boundary_settings
     = step (pathData boundary_points) boundary_settings
            (after_items boundary_points anns areas boundary_settings)
            (IAnnotation new).
Proof.
  intros anns areas anns' new.
  assert (H : Forall (fun i => item_order i
                               < INR (List.length anns + List.length areas + 1))
                     (all_items anns areas)).
  { unfold anns, areas, all_items. cbn [map app List.length Nat.add].
    repeat constructor; cbn; lra. }
  split; [exact H|].
  exact (handleAddAnnotation_schedules_last boundary_points anns areas
           boundary_settings "b" 2 H).
Defined.

Lemma flash_shifts_the_timeline_witness :
  let tl := {| tl_schedule := [ev Draw 0 2 0 10 None]; totalDuration := 2 |} in
  let pd := {| totalLength := 10; segmentLengths := [10];
               pointDistances := [0; 10] |} in
  enableFlash flash_settings = true
  /\ (flashDuration flash_settings <= 1 ->
      getAnimationState flash_settings tl pd 1
      = getAnimationState (without_flash flash_settings) tl pd
          (1 - flashDuration flash_settings)).
Proof.
  intros tl pd. split; [reflexivity|].
  exact (proj2 (flash_shifts_the_timeline flash_settings tl pd 1 eq_refl)).
Defined.

Lemma revealed_from_event_start_witness :
  let anns := [boundary_annotation "a" 1] in
  durations_nonneg anns [] boundary_settings
  /\ 0 <= effectiveTime_of boundary_settings (5 / 2)
  /\ (In "a"%string
         (activeAnnotationIds
            (visualState boundary_points anns [] boundary_settings (5 / 2)))
      <-> "a"%string <> EmptyString
          /\ exists e,
               In e (tl_schedule
                       (timeline boundary_points anns [] boundary_settings))
               /\ type e = Wait /\ itemId e = Some "a"%string
               /\ startTime e <= effectiveTime_of boundary_settings (5 / 2)).
Proof.
  intros anns.
  assert (H0 : 0 <= effectiveTime_of boundary_settings (5 / 2)) by (cbn; lra).
  split; [exact boundary_durations_nonneg|]. split; [exact H0|].
  exact (proj1 (revealed_from_event_start boundary_points anns [] boundary_settings
                  (5 / 2) "a" boundary_durations_nonneg H0)).
Defined.

Lemma schedule_is_contiguous_witness :
  let tl := timeline boundary_points [boundary_annotation "a" 1] []
              boundary_settings in
  totalDuration tl = sum_durations (tl_schedule tl).
Proof.
  exact (proj2 (proj2 (schedule_is_contiguous boundary_points
                         [boundary_annotation "a" 1] [] boundary_settings))).
Defined.

Lemma distToSegment_is_minimal_witness :
  0 <= 1 / 2 <= 1
  /\ distToSegment (pt 5 3) (pt 0 0) (pt 10 0)
     <= dist (pt 5 3) (on_segment (pt 0 0) (pt 10 0) (1 / 2)).
Proof.
  assert (H : 0 <= 1 / 2 <= 1) by lra. split; [exact H|].
  exact (proj2 (distToSegment_is_minimal (pt 5 3) (pt 0 0) (pt 10 0)) (1 / 2) H).
Defined.

Lemma reorder_changes_nothing_witness :
  let a1 := plain_annotation "a" 2 1 in
  items [a1] [] = [IAnnotation a1]
  /\ item_id (IAnnotation a1) = "a"%string
  /\ reorder "a" Up [a1] [] = ([a1], []).
Proof.
  intros a1. split; [reflexivity|]. split; [reflexivity|].
  exact (proj1 (proj2 (reorder_changes_nothing "a" [a1] []))
           (IAnnotation a1) [] eq_refl eq_refl).
Defined.

(** * Deleting an item *)

Lemma revealed_provenance points annotations areas s time i :
  (In i (activeAnnotationIds (visualState points annotations areas s time)) ->
   exists a, In a annotations /\ ann_id a = i)
  /\ (In i (visibleAreaIds (visualState points annotations areas s time)) ->
      exists a, In a areas /\ area_id a = i).
Proof.
  unfold visualState.
  pose proof (timeline_provenance points annotations areas s) as Hp.
  rewrite Forall_forall in Hp.
  destruct (getAnimationState_cases s (timeline points annotations areas s)
              (pathData points) time)
    as [(-> & _) | [(-> & _) | (-> & _)]];
    [split; intros [] | split; intros [] |].
  cbn [activeAnnotationIds visibleAreaIds]. split; intros Hi;
    apply revealed_event in Hi; destruct Hi as (e & He & Hty & Hid & Hne);
    specialize (Hp e He); unfold event_of_items in Hp; rewrite Hty in Hp;
    destruct Hp as (a & Ha & Hida); rewrite Hid in Hida;
    injection Hida as ->; eauto.
Qed.

(** X23: a deleted item is never shown again: after
    [handleDeleteAnnotation(id)] the resolver never reports [id] among the
    revealed annotations, and after [handleDeleteArea(id)] never among the
    revealed areas, at any time and whatever the other items are. *)
Theorem deleted_item_is_never_revealed
    (points : list Point) (annotations : list Annotation) (areas : list Area)
    (s : AppSettings) (id : string) (time : R) :
  ~ In id (activeAnnotationIds
             (visualState points (handleDeleteAnnotation id annotations) areas
                s time))
  /\ ~ In id (visibleAreaIds
                (visualState points annotations (handleDeleteArea id areas)
                   s time)).
Proof.
  split; intros H.
  - apply (proj1 (revealed_provenance _ _ _ _ _ _)) in H.
    destruct H as (a & Ha & Hid). apply filter_In in Ha. destruct Ha as [_ Ha].
    rewrite Hid, String.eqb_refl in Ha. discriminate.
  - apply (proj2 (revealed_provenance _ _ _ _ _ _)) in H.
    destruct H as (a & Ha & Hid). apply filter_In in Ha. destruct Ha as [_ Ha].
    rewrite Hid, String.eqb_refl in Ha. discriminate.
Qed.
